(** * QuantX: portfolio simulator, signal generators and metrics

    A shallow embedding of [backtester.py], [strategies.py],
    [features.py] and the metric helpers and trade report of [app.py].

    Numbers.  The program computes on IEEE doubles (Python [float],
    [numpy.float64]).  They are modelled as numbers of a carrier [K]
    extended with the three special values the code can meet: [PInf], [NInf]
    and [NaN], with the IEEE rules for them.  The simulator and the signal
    generators run on the carrier [Qc] (canonical rationals: everything
    evaluates), the metrics and the indicators on [R], because they need
    square roots and real powers.  Both carriers are exact: rounding,
    overflow and the sign of zero are outside them.  What is stated of the
    program is therefore stated in forms that rounding keeps (which
    branch is taken, which values are missing, orders that a monotone
    rounding preserves, the expression a value is computed by), and where
    a claim depends on exactness the arithmetic is replayed on the carrier
    [B64_carrier] of binary64 numbers, whose operations round as the
    program's do. *)

From Stdlib Require Import ZArith QArith Qcanon List Bool String Lia Sorted.
From Stdlib Require Import Reals ROrderedType Lra.
From Stdlib Require Lqa Floats Uint63.
From stdpp Require Import base option list gmap strings.

Set Default Proof Using "Type".
Open Scope Z_scope.

(** ** Extended numbers *)

Class Carrier (K : Type) := {
  c0 : K;
  c1 : K;
  cadd : K -> K -> K;
  cmul : K -> K -> K;
  copp : K -> K;
  cdiv : K -> K -> K;
  ccmp : K -> K -> comparison
}.

Inductive float (K : Type) : Type :=
| Fin (x : K)
| PInf
| NInf
| NaN.
Arguments Fin {K} x.
Arguments PInf {K}.
Arguments NInf {K}.
Arguments NaN {K}.

Section FloatOps.
Context {K : Type} `{Carrier K}.

Definition f0 : float K := Fin c0.
Definition f1 : float K := Fin c1.

Definition is_nan (a : float K) : bool :=
  match a with NaN => true | _ => false end.

Definition fneg (a : float K) : float K :=
  match a with
  | Fin x => Fin (copp x)
  | PInf => NInf
  | NInf => PInf
  | NaN => NaN
  end.

Definition fadd (a b : float K) : float K :=
  match a, b with
  | NaN, _ | _, NaN => NaN
  | Fin x, Fin y => Fin (cadd x y)
  | PInf, NInf | NInf, PInf => NaN
  | PInf, _ | _, PInf => PInf
  | NInf, _ | _, NInf => NInf
  end.

Definition fsub (a b : float K) : float K := fadd a (fneg b).

(** The sign of an infinity times (or divided by) a finite number;
    [inf * 0] is not a number. *)
Definition inf_signed (pos : bool) (x : K) (zero : float K) : float K :=
  match ccmp x c0 with
  | Eq => zero
  | Gt => if pos then PInf else NInf
  | Lt => if pos then NInf else PInf
  end.

Definition fmul (a b : float K) : float K :=
  match a, b with
  | NaN, _ | _, NaN => NaN
  | Fin x, Fin y => Fin (cmul x y)
  | PInf, Fin x | Fin x, PInf => inf_signed true x NaN
  | NInf, Fin x | Fin x, NInf => inf_signed false x NaN
  | PInf, PInf | NInf, NInf => PInf
  | PInf, NInf | NInf, PInf => NInf
  end.

(** numpy division: a finite number over zero is an infinity of its
    sign, [0/0] and [inf/inf] are not numbers; nothing is raised. *)
Definition fdiv (a b : float K) : float K :=
  match a, b with
  | NaN, _ | _, NaN => NaN
  | Fin x, Fin y =>
      match ccmp y c0 with
      | Eq => inf_signed true x NaN
      | _ => Fin (cdiv x y)
      end
  | Fin _, _ => Fin c0
  | PInf, Fin y => inf_signed true y PInf
  | NInf, Fin y => inf_signed false y NInf
  | _, _ => NaN
  end.

(** Comparisons: every comparison with [NaN] is false, except [!=]. *)
Definition fcompare (a b : float K) : option comparison :=
  match a, b with
  | NaN, _ | _, NaN => None
  | Fin x, Fin y => Some (ccmp x y)
  | PInf, PInf | NInf, NInf => Some Eq
  | PInf, _ | _, NInf => Some Gt
  | NInf, _ | _, PInf => Some Lt
  end.

Definition feqb (a b : float K) : bool :=
  match fcompare a b with Some Eq => true | _ => false end.
Definition fltb (a b : float K) : bool :=
  match fcompare a b with Some Lt => true | _ => false end.
Definition fgtb (a b : float K) : bool := fltb b a.
Definition fleb (a b : float K) : bool :=
  match fcompare a b with Some Lt | Some Eq => true | _ => false end.
Definition fgeb (a b : float K) : bool := fleb b a.
Definition fneb (a b : float K) : bool := negb (feqb a b).

(** [Series.fillna(v)] on one cell. *)
Definition fillna (v a : float K) : float K :=
  if is_nan a then v else a.
End FloatOps.

#[export] Instance Qc_carrier : Carrier Qc := {
  c0 := 0%Qc; c1 := 1%Qc;
  cadd := Qcplus; cmul := Qcmult; copp := Qcopp; cdiv := Qcdiv;
  ccmp := Qccompare
}.

#[export] Instance R_carrier : Carrier R := {
  c0 := 0%R; c1 := 1%R;
  cadd := Rplus; cmul := Rmult; copp := Ropp; cdiv := Rdiv;
  ccmp := Rcompare
}.




(** Decimal literals of the simulator's examples. *)
Definition qz (n : Z) : float Qc := Fin (Q2Qc (inject_Z n)).
Definition qfrac (n : Z) (d : positive) : float Qc := Fin (Q2Qc (n # d)).

(** ** The arithmetic of one trade

    The lines of [run] that move cash, on any carrier: the simulator
    below computes them on [Qc]. *)
Section TradeArithmetic.
Context {K : Type} `{Carrier K}.



End TradeArithmetic.

(** ** Dates, series and dictionaries

    A date is a day number.  A pandas [Series] is its index labels with
    their cells, in index order; a price [DataFrame] is modelled by its
    ['Close'] column, the only column the simulator reads.  A Python [dict]
    keeps insertion order, which decides in what order instruments compete
    for cash: it is an association list with distinct keys. *)

Abbreviation date := Z.
Abbreviation ticker := string.
Abbreviation Series := (list (date * float Qc)).
Abbreviation dict V := (list (ticker * V)).

Definition index (s : Series) : list date := map fst s.
Definition values (s : Series) : list (float Qc) := map snd s.

Fixpoint dict_get {V} (d : dict V) (t : ticker) : option V :=
  match d with
  | [] => None
  | (k, v) :: d' => if String.eqb k t then Some v else dict_get d' t
  end.

(** [d[t] = v]: an existing key keeps its place, a new one goes last. *)
Fixpoint dict_set {V} (d : dict V) (t : ticker) (v : V) : dict V :=
  match d with
  | [] => [(t, v)]
  | (k, v0) :: d' =>
      if String.eqb k t then (k, v) :: d' else (k, v0) :: dict_set d' t v
  end.

Definition keys {V} (d : dict V) : list ticker := map fst d.

(** [s.at[dt]]: the cell at label [dt]; [None] is pandas' [KeyError]. *)
Fixpoint at_ (s : Series) (dt : date) : option (float Qc) :=
  match s with
  | [] => None
  | (l, v) :: s' => if Z.eqb l dt then Some v else at_ s' dt
  end.

(** [s.shift(1)]: every cell moves one row down, the first becomes NaN. *)
Fixpoint shift_from (prev : float Qc) (s : Series) : Series :=
  match s with
  | [] => []
  | (l, v) :: s' => (l, prev) :: shift_from v s'
  end.
Definition shift1 (s : Series) : Series := shift_from NaN s.

(** [s.loc[dt] = v] on an existing label. *)
Definition set_loc (s : Series) (dt : date) (v : float Qc) : Series :=
  map (fun c => if Z.eqb (fst c) dt then (fst c, v) else c) s.

(** [sorted(set().union(...))]: the labels of all indexes, ascending,
    each once. *)
Fixpoint insert_date (d : date) (l : list date) : list date :=
  match l with
  | [] => [d]
  | x :: l' =>
      if Z.ltb d x then d :: l
      else if Z.eqb d x then l
      else x :: insert_date d l'
  end.

Definition sorted_union (idxs : list (list date)) : list date :=
  fold_left (fun acc idx => fold_left (fun a d => insert_date d a) idx acc)
            idxs [].

Fixpoint ascending (l : list date) : bool :=
  match l with
  | x :: ((y :: _) as l') => Z.ltb x y && ascending l'
  | _ => true
  end.

(** [reindex(master, method='ffill')]: at each label of [master] the cell
    of the last label of [s] that is not later; NaN before the first
    label of [s].  Only labels are compared: a NaN cell of [s] is carried
    like any other. *)
Definition asof (s : Series) (d : date) : float Qc :=
  fold_left (fun acc c => if Z.leb (fst c) d then snd c else acc) s NaN.

Definition reindex_ffill (master : list date) (s : Series) : Series :=
  map (fun d => (d, asof s d)) master.

Definition fillna_series (v : float Qc) (s : Series) : Series :=
  map (fun c => (fst c, fillna v (snd c))) s.

(** Monadic left fold: the loops of the program, stopping at the first
    exception. *)
Fixpoint foldM {A B} (f : B -> A -> option B) (l : list A) (b : B)
  : option B :=
  match l with
  | [] => Some b
  | x :: l' => b' ← f b x; foldM f l' b'
  end.

(** ** The object store

    Frames and dictionaries are objects: the caller and the simulator may
    hold the same one.  References are positions in the store; allocation
    appends. *)

Abbreviation ref := nat.

Record Store := mkStore {
  frames : list Series;
  dicts : list (dict ref)
}.

Definition alloc_frame (σ : Store) (s : Series) : Store * ref :=
  (mkStore (frames σ ++ [s]) (dicts σ), length (frames σ)).

Definition dict_store (σ : Store) (r : ref) (t : ticker) (v : ref) : Store :=
  match dicts σ !! r with
  | Some d => mkStore (frames σ) (<[r := dict_set d t v]> (dicts σ))
  | None => σ
  end.

(** [d[t]] for a dictionary of frames: the frame object it refers to. *)
Definition deref (σ : Store) (r : ref) (t : ticker) : option Series :=
  d ← dicts σ !! r; o ← dict_get d t; frames σ !! o.

Record PortfolioBacktest := mkBacktest {
  data : ref;
  signals : ref;
  weights : dict (float Qc);
  initial_capital : float Qc;
  slippage : float Qc;
  commission : float Qc;
  master_index : list date
}.

(** [1/len(data_dict)] *)
Definition equal_weight (n : nat) : float Qc :=
  fdiv f1 (Fin (Q2Qc (inject_Z (Z.of_nat n)))).

(** One round of the alignment loop of [__init__], for ticker [t]. *)
Definition align_one (data_dict signals_dict : ref) (master : list date)
    (σ : Store) (t : ticker) : option Store :=
  df ← deref σ data_dict t;
  if negb (ascending (index df)) then None else
  let '(σ1, r1) := alloc_frame σ (reindex_ffill master df) in
  let σ2 := dict_store σ1 data_dict t r1 in
  s ← deref σ2 signals_dict t;
  if negb (ascending (index s)) then None else
  let '(σ3, r3) :=
    alloc_frame σ2 (fillna_series f0 (reindex_ffill master s)) in
  Some (dict_store σ3 signals_dict t r3).

(** [PortfolioBacktest.__init__].  [self.data = data_dict] binds the
    caller's dictionary itself, so the assignments [self.data[t] = ...] of
    the alignment loop are made in that dictionary.  An empty or absent
    [weights] is falsy and gives equal weights. *)
Definition init (σ : Store) (data_dict signals_dict : ref)
    (weights : option (dict (float Qc)))
    (initial_capital slippage commission : float Qc)
  : option (Store * PortfolioBacktest) :=
  d ← dicts σ !! data_dict;
  let w :=
    match weights with
    | Some ((_ :: _) as w) => w
    | _ => map (fun t => (t, equal_weight (length d))) (keys d)
    end in
  idxs ← mapM (fun kv => index <$> frames σ !! kv.2) d;
  let master := sorted_union idxs in
  σ' ← foldM (align_one data_dict signals_dict master) (keys d) σ;
  Some (σ', mkBacktest data_dict signals_dict w initial_capital slippage
              commission master).

(** ** The simulation state and [run] *)

Record Trade := mkTrade {
  entry_time : date;
  entry_price : float Qc;
  trade_shares : float Qc;
  exit_time : option date;
  exit_price : option (float Qc);
  proceeds : option (float Qc)
}.

Record State := mkState {
  portfolio_cash : float Qc;
  trades : dict (list Trade);
  positions : dict Z;
  shares : dict (float Qc)
}.

(** [trades[t][-1].update({...})] *)
Definition close_last (l : list Trade) (dt : date) (px pr : float Qc)
  : option (list Trade) :=
  match rev l with
  | [] => None
  | r :: before =>
      Some (rev before ++
            [mkTrade (entry_time r) (entry_price r) (trade_shares r)
                     (Some dt) (Some px) (Some pr)])
  end.

Definition entry_cond (sig prev_sig : float Qc) : bool :=
  feqb sig f1 && feqb prev_sig f0.

Definition exit_signal (sig prev_sig : float Qc) : bool :=
  feqb sig f0 && feqb prev_sig f1.

(** The body of the inner loop up to the mark of the position: the entry
    branch, the exit branch, or nothing. *)
Definition trade_step (bt : PortfolioBacktest) (dt : date) (t : ticker)
    (price sig prev_sig : float Qc) (st : State) : option State :=
  if entry_cond sig prev_sig then
    w ← dict_get (weights bt) t;
    let cash_alloc := fmul (portfolio_cash st) w in
    let sh := fdiv cash_alloc price in
    let cost :=
      fadd (fmul (fmul sh price) (fadd f1 (slippage bt))) (commission bt) in
    log ← dict_get (trades st) t;
    Some (mkState
            (fsub (portfolio_cash st) cost)
            (dict_set (trades st) t
               (log ++ [mkTrade dt (fmul price (fadd f1 (slippage bt))) sh
                                None None None]))
            (dict_set (positions st) t 1)
            (dict_set (shares st) t sh))
  else if exit_signal sig prev_sig then
    pos ← dict_get (positions st) t;
    if Z.eqb pos 1 then
      sh ← dict_get (shares st) t;
      let exit_price := fmul price (fsub f1 (slippage bt)) in
      let proceeds := fsub (fmul sh exit_price) (commission bt) in
      log ← dict_get (trades st) t;
      log' ← close_last log dt exit_price proceeds;
      Some (mkState
              (fadd (portfolio_cash st) proceeds)
              (dict_set (trades st) t log')
              (dict_set (positions st) t 0)
              (dict_set (shares st) t f0))
    else Some st
  else Some st.

(** What the inner loop reads for ticker [t] at date [dt]: the price, the
    signal, and the signal of the row before ([0] on the first date). *)
Definition read_inputs (σ : Store) (bt : PortfolioBacktest) (dt : date)
    (t : ticker) (df_ref : ref)
  : option (float Qc * float Qc * float Qc) :=
  df ← frames σ !! df_ref;
  price ← at_ df dt;
  s ← deref σ (signals bt) t;
  sig ← at_ s dt;
  prev_sig ←
    (match master_index bt with
     | first :: _ =>
         if negb (Z.eqb dt first) then at_ (shift1 s) dt else Some f0
     | [] => None
     end);
  Some (price, sig, prev_sig).

(** One round of the inner loop: [acc] is the state with
    [portfolio_value]. *)
Definition instrument_step (σ : Store) (bt : PortfolioBacktest) (dt : date)
    (acc : State * float Qc) (item : ticker * ref)
  : option (State * float Qc) :=
  let '(st, portfolio_value) := acc in
  let '(t, df_ref) := item in
  '(price, sig, prev_sig) ← read_inputs σ bt dt t df_ref;
  st' ← trade_step bt dt t price sig prev_sig st;
  sh ← dict_get (shares st') t;
  Some (st', fadd portfolio_value (fmul sh price)).

(** One round of the outer loop: [acc] is the state with the equity
    curve. *)
Definition date_step (σ : Store) (bt : PortfolioBacktest)
    (acc : State * Series) (dt : date) : option (State * Series) :=
  let '(st, equity_curve) := acc in
  items ← dicts σ !! data bt;
  '(st', portfolio_value) ← foldM (instrument_step σ bt dt) items (st, f0);
  Some (st', set_loc equity_curve dt
               (fadd (portfolio_cash st') portfolio_value)).

Definition initial_state (bt : PortfolioBacktest) (ks : list ticker)
  : State :=
  mkState (initial_capital bt)
          (map (fun t => (t, [])) ks)
          (map (fun t => (t, 0)) ks)
          (map (fun t => (t, f0)) ks).

(** [PortfolioBacktest.run]: the equity curve and the trade logs. *)
Definition run (σ : Store) (bt : PortfolioBacktest)
  : option (Series * dict (list Trade)) :=
  items ← dicts σ !! data bt;
  let equity_curve := map (fun d => (d, NaN)) (master_index bt) in
  '(st, eq) ← foldM (date_step σ bt) (master_index bt)
                     (initial_state bt (keys items), equity_curve);
  Some (eq, trades st).

(** ** Signal generators ([strategies.py]) *)

Module Strategies.

(** One row of a feature table: the columns the generators read.  The
    table is the list of its rows with their index labels, in index
    order; labels are distinct, so [df.loc[t, c]] is the cell of the row
    the loop is at. *)
Record Row := mkRow {
  Close : float Qc;
  ema_fast : float Qc;
  ema_slow : float Qc;
  rsi : float Qc;
  vol : float Qc;
  macd : float Qc;
  macd_signal : float Qc;
  bb_lower : float Qc;
  bb_upper : float Qc
}.

Abbreviation Table := (list (date * Row)).

Definition column (c : Row -> float Qc) (df : Table) : list (float Qc) :=
  map (fun r => c r.2) df.

(** [col.shift(1)] on the cells of a column. *)
Definition shift (l : list (float Qc)) : list (float Qc) :=
  match l with
  | [] => []
  | _ => NaN :: removelast l
  end.

(** [(a > b) & (a.shift(1) <= b.shift(1))] *)
Definition cross_up (a b : list (float Qc)) : list bool :=
  zip_with andb (zip_with fgtb a b) (zip_with fleb (shift a) (shift b)).

(** [(a < b) & (a.shift(1) >= b.shift(1))] *)
Definition cross_down (a b : list (float Qc)) : list bool :=
  zip_with andb (zip_with fltb a b) (zip_with fgeb (shift a) (shift b)).

(** The loop of a generator: [step] gives the position after a row from
    the position before it; the position is written at the row's
    label. *)
Fixpoint emit {A} (step : A -> Z -> Z) (rows : list (date * A))
    (position : Z) : Series :=
  match rows with
  | [] => []
  | (t, a) :: rows' =>
      let position' := step a position in
      (t, qz position') :: emit step rows' position'
  end.

(** The position the loop holds after the rows [l], started at [p]. *)
Definition pos_after {A} (step : A -> Z -> Z) (l : list (date * A))
    (p : Z) : Z :=
  fold_left (fun q a => step a.2 q) l p.

Definition with_crosses (df : Table) (up down : list bool)
  : list (date * (Row * bool * bool)) :=
  zip_with (fun r ud => (r.1, (r.2, ud.1, ud.2))) df (zip up down).

Definition ema_rsi_vol_step (rsi_high vol_thresh : float Qc)
    (a : Row * bool * bool) (position : Z) : Z :=
  let '(r, up, down) := a in
  if Z.eqb position 0 && up && fltb (rsi r) rsi_high
     && fltb (vol r) vol_thresh then 1
  else if Z.eqb position 1
          && (down || fgtb (rsi r) rsi_high || fgtb (vol r) vol_thresh)
  then 0
  else position.

Definition ema_rsi_vol_signals (df : Table) (rsi_high vol_thresh : float Qc)
  : Series :=
  let up := cross_up (column ema_fast df) (column ema_slow df) in
  let down := cross_down (column ema_fast df) (column ema_slow df) in
  emit (ema_rsi_vol_step rsi_high vol_thresh) (with_crosses df up down) 0.

Definition default_rsi_high : float Qc := qz 70.
Definition default_vol_thresh : float Qc := qfrac 6 10.

Definition bollinger_step (r : Row) (position : Z) : Z :=
  let price := Close r in
  let lower := bb_lower r in
  let upper := bb_upper r in
  let sma := fdiv (fadd upper lower) (qz 2) in
  if Z.eqb position 0 && fltb price lower then 1
  else if Z.eqb position 1 && fgtb price sma then 0
  else position.

Definition bollinger_signals (df : Table) : Series :=
  emit bollinger_step df 0.

Definition macd_step (a : Row * bool * bool) (position : Z) : Z :=
  let '(_, up, down) := a in
  if Z.eqb position 0 && up then 1
  else if Z.eqb position 1 && down then 0
  else position.

Definition macd_signals (df : Table) : Series :=
  let up := cross_up (column macd df) (column macd_signal df) in
  let down := cross_down (column macd df) (column macd_signal df) in
  emit macd_step (with_crosses df up down) 0.

End Strategies.

(** ** Metrics ([compute_metrics] and the ratio helpers of [app.py])

    The metrics run on real numbers.  [None] is a Python exception
    ([IndexError] on an empty curve, [ZeroDivisionError] in [cagr]); numpy
    arithmetic itself never raises. *)

Module Metrics.

Abbreviation Curve := (list (date * float R)).

Definition cells (c : Curve) : list (float R) := map snd c.

Definition rnat (n : nat) : float R := Fin (INR n).

(** [np.sqrt] *)
Definition fsqrt (a : float R) : float R :=
  match a with
  | Fin x => if Rlt_dec x 0 then NaN else Fin (sqrt x)
  | PInf => PInf
  | _ => NaN
  end.

Definition sqrt252 : float R := Fin (sqrt 252).

(** [s.pct_change()]: [s / s.shift(1) - 1], with no filling of missing
    cells before the change is taken. *)
Fixpoint changes (prev : float R) (l : list (float R)) : list (float R) :=
  match l with
  | [] => []
  | x :: l' => fsub (fdiv x prev) f1 :: changes x l'
  end.

Definition pct_change (l : list (float R)) : list (float R) :=
  match l with
  | [] => []
  | x :: l' => NaN :: changes x l'
  end.

Definition dropna (l : list (float R)) : list (float R) :=
  filter (fun a => is_nan a = false) l.

(** The sum of the cells as they are, and pandas' [s.sum()], which skips
    missing cells. *)
Definition raw_sum (l : list (float R)) : float R := fold_left fadd l f0.

Definition fsum (l : list (float R)) : float R := raw_sum (dropna l).

Definition mean (l : list (float R)) : float R :=
  fdiv (fsum l) (rnat (length (dropna l))).

(** [s.std()]: the sample standard deviation ([ddof=1]) of the defined
    cells; pandas returns NaN when there are fewer than two.  The squared
    deviations are summed as they are: an infinite cell makes the result
    NaN. *)
Definition std (l : list (float R)) : float R :=
  let xs := dropna l in
  if (length xs <=? 1)%nat then NaN else
  let m := mean xs in
  let ss := raw_sum (map (fun x => fmul (fsub x m) (fsub x m)) xs) in
  fsqrt (fdiv ss (fsub (rnat (length xs)) f1)).

(** [s.cummax()]: the running maximum; a missing cell stays missing and
    is skipped by the maximum. *)
Definition fmax (a b : float R) : float R :=
  match a, b with
  | NaN, _ => b
  | _, NaN => a
  | _, _ => if fltb a b then b else a
  end.

Fixpoint cummax_from (m : float R) (l : list (float R)) : list (float R) :=
  match l with
  | [] => []
  | x :: l' =>
      if is_nan x then NaN :: cummax_from m l'
      else fmax m x :: cummax_from (fmax m x) l'
  end.

Definition cummax (l : list (float R)) : list (float R) :=
  cummax_from NaN l.

(** [s.max()]: NaN when no cell is defined. *)
Definition series_max (l : list (float R)) : float R :=
  fold_left fmax l NaN.

(** [(equity.cummax() - equity) / equity.cummax()] and its maximum. *)
Definition drawdown (l : list (float R)) : list (float R) :=
  zip_with fdiv (zip_with fsub (cummax l) l) (cummax l).

Definition max_drawdown (l : list (float R)) : float R :=
  series_max (drawdown l).

(** [returns = equity_curve.pct_change().fillna(0)] *)
Definition returns (c : Curve) : list (float R) :=
  map (fillna f0) (pct_change (cells c)).

Definition ann_vol (c : Curve) : float R :=
  fmul (std (returns c)) sqrt252.

Section Power.
(** numpy's [**] on doubles.  It never raises, and nothing proved below
    depends on its value. *)
Variable fpow : float R -> float R -> float R.

Definition total_return (c : Curve) : option (float R) :=
  last_ ← last (cells c);
  first_ ← head (cells c);
  Some (fsub (fdiv last_ first_) f1).

Definition ann_return (c : Curve) : option (float R) :=
  tr ← total_return c;
  Some (if (1 <? length c)%nat
        then fsub (fpow (fadd f1 tr) (fdiv (rnat 252) (rnat (length c))))
                  f1
        else f0).

Definition sharpe (c : Curve) : option (float R) :=
  ar ← ann_return c;
  Some (if fgtb (ann_vol c) f0 then fdiv ar (ann_vol c) else NaN).

Record MetricsDict := mkMetrics {
  m_total_return : float R;
  m_annualized_return : float R;
  m_annualized_vol : float R;
  m_sharpe : float R;
  m_max_drawdown : float R
}.

Definition compute_metrics (c : Curve) : option MetricsDict :=
  tr ← total_return c;
  ar ← ann_return c;
  sh ← sharpe c;
  Some (mkMetrics tr ar (ann_vol c) sh (max_drawdown (cells c))).

(** [cagr]: [years] is a Python float, so [1 / years] raises
    [ZeroDivisionError] when the curve spans no day. *)
Definition cagr (c : Curve) : option (float R) :=
  last_d ← last (map fst c);
  first_d ← head (map fst c);
  let years := (IZR (last_d - first_d) / 365.25)%R in
  if Req_dec_T years 0 then None else
  last_ ← last (cells c);
  first_ ← head (cells c);
  Some (fsub (fpow (fdiv last_ first_) (Fin (1 / years)%R)) f1).

Definition calmar_ratio (c : Curve) : option (float R) :=
  total_cagr ← cagr c;
  let max_dd := max_drawdown (cells c) in
  Some (if fgtb max_dd f0 then fdiv total_cagr max_dd else NaN).
End Power.

Definition sortino_ratio (c : Curve) (risk_free : float R) : float R :=
  let returns := dropna (pct_change (cells c)) in
  let downside := filter (fun r => fltb r f0 = true) returns in
  if feqb (std downside) f0 then NaN
  else fmul (fdiv (fsub (mean returns) (fdiv risk_free (rnat 252)))
                  (std downside))
            sqrt252.

Definition omega_ratio (c : Curve) (target : float R) : float R :=
  let returns := dropna (pct_change (cells c)) in
  let gains :=
    fsum (map (fun r => fsub r target)
              (filter (fun r => fgtb r target = true) returns)) in
  let losses :=
    fneg (fsum (map (fun r => fsub r target)
                    (filter (fun r => fltb r target = true) returns))) in
  if fneb losses f0 then fdiv gains losses else NaN.

(** Volatility as the specification words it.  The daily percentage
    return of observation [i] is [e_i / e_(i-1) - 1]; the first
    observation has none. *)
Definition daily_return (l : list (float R)) (i : nat) : float R :=
  match i with
  | O => NaN
  | S j =>
      match l !! j, l !! S j with
      | Some a, Some b => fsub (fdiv b a) f1
      | _, _ => NaN
      end
  end.

(** The returns of a curve of [n] observations: one for each of the
    [n - 1] observations that have a predecessor. *)
Definition daily_returns (l : list (float R)) : list (float R) :=
  map (daily_return l) (seq 1 (length l - 1)).

(** The sample variance of a list of real numbers. *)
Definition rsum (xs : list R) : R := fold_left Rplus xs 0%R.

Definition rmean (xs : list R) : R := (rsum xs / INR (length xs))%R.

Definition rvar (xs : list R) : R :=
  (rsum (map (fun x => (x - rmean xs) * (x - rmean xs)) xs)
   / (INR (length xs) - 1))%R.




(** One cell per observation, with 0 wherever the return is
    undefined. *)
Definition zero_filled_returns (l : list (float R)) : list (float R) :=
  map (fun i => fillna f0 (daily_return l i)) (seq 0 (length l)).

End Metrics.

(** ** Indicators ([features.py])

    The indicators run on real numbers, like the metrics.  A column is
    the list of its cells in index order.  [None] is a Python exception:
    pandas raises [ValueError] for a span below 1 or a smoothing factor
    outside (0, 1], and [1/length] raises [ZeroDivisionError].  The
    windows of [rolling] are given by their formula; cells are finite
    numbers or missing. *)

Module Features.
Import Metrics.

Definition is_obs (a : float R) : bool := negb (is_nan a).

(** [s.shift(1)] *)
Definition shift (l : list (float R)) : list (float R) :=
  match l with
  | [] => []
  | _ => NaN :: removelast l
  end.

(** [s.diff()] *)
Fixpoint diffs (prev : float R) (l : list (float R)) : list (float R) :=
  match l with
  | [] => []
  | x :: l' => fsub x prev :: diffs x l'
  end.

Definition diff (l : list (float R)) : list (float R) :=
  match l with
  | [] => []
  | x :: l' => NaN :: diffs x l'
  end.

(** [s.clip(lower=0)] and [s.clip(upper=0)] on one cell; a missing cell
    stays missing. *)
Definition clip_lower0 (a : float R) : float R :=
  if fltb a f0 then f0 else a.

Definition clip_upper0 (a : float R) : float R :=
  if fgtb a f0 then f0 else a.

(** [s.abs()] on one cell. *)
Definition fabs (a : float R) : float R :=
  match a with
  | Fin x => Fin (Rabs x)
  | NInf => PInf
  | _ => a
  end.

(** One turn of the loop of [s.ewm(alpha=..., adjust=False).mean()].
    The state is the running average and the weight of the past.  A
    missing cell leaves the average as it is and lets the weight of the
    past decay; the first observation starts the average. *)
Definition ewm_step (alpha : float R) (st : float R * float R)
    (cur : float R) : float R * float R :=
  let '(weighted, old_wt) := st in
  if is_obs weighted then
    if is_obs cur then
      let old_wt' := fmul old_wt (fsub f1 alpha) in
      (if fneb weighted cur
       then fdiv (fadd (fmul old_wt' weighted) (fmul alpha cur))
                 (fadd old_wt' alpha)
       else weighted,
       f1)
    else (weighted, fmul old_wt (fsub f1 alpha))
  else if is_obs cur then (cur, old_wt)
  else (weighted, old_wt).

Fixpoint ewm_loop (alpha : float R) (st : float R * float R)
    (l : list (float R)) : list (float R) :=
  match l with
  | [] => []
  | cur :: l' =>
      let st' := ewm_step alpha st cur in
      st'.1 :: ewm_loop alpha st' l'
  end.

Definition ewm_mean (alpha : float R) (l : list (float R))
  : list (float R) :=
  match l with
  | [] => []
  | x :: l' => x :: ewm_loop alpha (x, f1) l'
  end.

(** The usual recursion of an exponential average on real numbers:
    each value is [(1 - a)] times the one before plus [a] times the
    new observation. *)
Fixpoint smooth (a w : R) (xs : list R) : list R :=
  match xs with
  | [] => []
  | x :: xs' =>
      ((1 - a) * w + a * x)%R :: smooth a ((1 - a) * w + a * x)%R xs'
  end.

(** [s.ewm(span=span, adjust=False).mean()] *)
Definition ewm_span (span : R) (l : list (float R))
  : option (list (float R)) :=
  if Rlt_dec span 1 then None
  else Some (ewm_mean (Fin (2 / (span + 1))%R) l).

(** [s.ewm(alpha=alpha, adjust=False).mean()] *)
Definition ewm_alpha (alpha : R) (l : list (float R))
  : option (list (float R)) :=
  if Rle_dec alpha 0%R then None
  else if Rlt_dec 1%R alpha then None
  else Some (ewm_mean (Fin alpha) l).

Definition ema (series : list (float R)) (span : R)
  : option (list (float R)) :=
  ewm_span span series.

(** The constant [1e-12] of [rsi]. *)
Definition tiny : float R := Fin (1 / 1000000000000)%R.

Definition rsi (series : list (float R)) (length : R)
  : option (list (float R)) :=
  let delta := diff series in
  let up := map clip_lower0 delta in
  let down := map (fun a => fmul (Fin (-1)%R) (clip_upper0 a)) delta in
  if Req_dec_T length 0%R then None else
  ma_up ← ewm_alpha (1 / length)%R up;
  ma_down ← ewm_alpha (1 / length)%R down;
  let rs := zip_with (fun u d => fdiv u (fadd d tiny)) ma_up ma_down in
  Some (map (fun r => fsub (Fin 100%R) (fdiv (Fin 100%R) (fadd f1 r))) rs).

(** [s.rolling(window).f()]: the statistic of the last [window] cells,
    missing until that many cells are there and whenever one of them is
    missing. *)
Definition window_at (window : nat) (l : list (float R)) (i : nat)
  : list (float R) :=
  take window (drop (S i - window) l).

Definition rolling (f : list (float R) -> float R) (window : nat)
    (l : list (float R)) : list (float R) :=
  map (fun i =>
         if (window <=? S i)%nat && forallb is_obs (window_at window l i)
         then f (window_at window l i)
         else NaN)
      (seq 0 (length l)).

Definition rolling_volatility (series : list (float R)) (window : nat)
  : list (float R) :=
  map (fun s => fmul s sqrt252) (rolling std window (pct_change series)).

Definition macd (series : list (float R)) (fast slow signal : R)
  : option (list (float R) * list (float R) * list (float R)) :=
  ema_fast ← ewm_span fast series;
  ema_slow ← ewm_span slow series;
  let macd_line := zip_with fsub ema_fast ema_slow in
  signal_line ← ewm_span signal macd_line;
  let hist := zip_with fsub macd_line signal_line in
  Some (macd_line, signal_line, hist).

Definition bollinger_bands (series : list (float R)) (window : nat)
    (n_std : float R) : list (float R) * list (float R) :=
  let sma := rolling mean window series in
  let std_ := rolling std window series in
  let upper := zip_with (fun m s => fadd m (fmul n_std s)) sma std_ in
  let lower := zip_with (fun m s => fsub m (fmul n_std s)) sma std_ in
  (upper, lower).

(** The price columns of a downloaded frame. *)
Record Bar := mkBar {
  Open : float R;
  High : float R;
  Low : float R;
  Close : float R;
  Adj_Close : float R;
  Volume : float R
}.

(** [pd.concat([...], axis=1).max(axis=1)] on one row: the largest of
    the cells that are there. *)
Definition row_max (cells : list (float R)) : float R :=
  fold_left fmax cells NaN.

Definition atr (df : list Bar) (window : nat) : list (float R) :=
  let high_low := map (fun b => fsub (High b) (Low b)) df in
  let prev_close := shift (map Close df) in
  let high_close :=
    zip_with (fun b c => fabs (fsub (High b) c)) df prev_close in
  let low_close :=
    zip_with (fun b c => fabs (fsub (Low b) c)) df prev_close in
  let tr :=
    zip_with (fun hl hc_lc => row_max [hl; hc_lc.1; hc_lc.2])
             high_low (zip high_close low_close) in
  rolling mean window tr.

(** [df['Close'] = df['Adj_Close']] on one row. *)
Definition adjusted (b : Bar) : Bar :=
  mkBar (Open b) (High b) (Low b) (Adj_Close b) (Adj_Close b) (Volume b).

(** One row of the frame [prepare_features] returns.  The columns of the
    switched-off indicators are not there. *)
Record FeatureRow := mkFeatureRow {
  bar : Bar;
  ema_fast : float R;
  ema_slow : float R;
  rsi_ : float R;
  vol : float R;
  macd_ : option (float R * float R * float R);
  bb : option (float R * float R);
  atr_ : option (float R)
}.

Definition row_cells (r : FeatureRow) : list (float R) :=
  [Open (bar r); High (bar r); Low (bar r); Close (bar r);
   Adj_Close (bar r); Volume (bar r);
   ema_fast r; ema_slow r; rsi_ r; vol r]
  ++ match macd_ r with Some (m, s, h) => [m; s; h] | None => [] end
  ++ match bb r with Some (u, l) => [u; l] | None => [] end
  ++ match atr_ r with Some a => [a] | None => [] end.

(** [df.dropna()] keeps the rows with no missing cell. *)
Definition complete (r : FeatureRow) : bool := forallb is_obs (row_cells r).

Definition cell (l : list (float R)) (i : nat) : float R := nth i l NaN.

Definition prepare_features (df : list (date * Bar))
    (fast_ema slow_ema rsi_len : R) (vol_window : nat)
    (compute_macd compute_bb compute_atr : bool)
  : option (list (date * FeatureRow)) :=
  let bars := map adjusted (map snd df) in
  let close := map Close bars in
  c_fast ← ema close fast_ema;
  c_slow ← ema close slow_ema;
  c_rsi ← rsi close rsi_len;
  let c_vol := rolling_volatility close vol_window in
  c_macd ← (if compute_macd then Some <$> macd close 12%R 26%R 9%R
            else Some None);
  let c_bb :=
    if compute_bb then Some (bollinger_bands close 20 (Fin 2%R)) else None in
  let c_atr := if compute_atr then Some (atr bars 14) else None in
  let rows :=
    map (fun i =>
           (nth i (map fst df) 0,
            mkFeatureRow
              (nth i bars (mkBar NaN NaN NaN NaN NaN NaN))
              (cell c_fast i) (cell c_slow i) (cell c_rsi i) (cell c_vol i)
              ((fun c => (cell c.1.1 i, cell c.1.2 i, cell c.2 i))
                 <$> c_macd)
              ((fun c => (cell c.1 i, cell c.2 i)) <$> c_bb)
              ((fun c => cell c i) <$> c_atr)))
        (seq 0 (length df)) in
  Some (filter (fun r => complete r.2 = true) rows).

(** A downloaded row whose six cells are finite numbers, with an
    adjusted close that is not 0. *)
Definition finite_bar (b : Bar) : Prop :=
  exists o h l c a v : R,
    b = mkBar (Fin o) (Fin h) (Fin l) (Fin c) (Fin a) (Fin v) /\ a <> 0%R.

(** The number of leading rows on which some indicator is still
    missing: the volatility needs [vol_window] returns, the bands 20
    prices and the true-range average 14 rows. *)
Definition warm_up (vol_window : nat) (compute_bb compute_atr : bool)
  : nat :=
  Nat.max vol_window
          (Nat.max (if compute_bb then 19 else 0)
                   (if compute_atr then 13 else 0)).

End Features.

(** ** Statements about a run *)

(** What [run] reads for ticker [t] at date [dt], by ticker. *)
Definition price_at (σ : Store) (bt : PortfolioBacktest) (t : ticker)
    (dt : date) : option (float Qc) :=
  df ← deref σ (data bt) t; at_ df dt.

Definition sig_at (σ : Store) (bt : PortfolioBacktest) (t : ticker)
    (dt : date) : option (float Qc) :=
  s ← deref σ (signals bt) t; at_ s dt.

(** The dates on which a trade log records an entry or an exit, in log
    order. *)
Definition times (log : list Trade) : list date :=
  flat_map (fun r => entry_time r ::
                     match exit_time r with Some x => [x] | None => [] end)
           log.

(** The exit fields of a record: absent while the trade is open, and
    once closed the slipped price of the exit date and the proceeds
    computed from the record's own share quantity. *)
Definition closed_ok (σ : Store) (bt : PortfolioBacktest) (t : ticker)
    (r : Trade) : Prop :=
  match exit_time r with
  | Some x =>
      exists price,
        price_at σ bt t x = Some price /\
        exit_price r = Some (fmul price (fsub f1 (slippage bt))) /\
        proceeds r
        = Some (fsub (fmul (trade_shares r)
                           (fmul price (fsub f1 (slippage bt))))
                     (commission bt))
  | None => exit_price r = None /\ proceeds r = None
  end.

(** The state in which the inner loop reaches an instrument: after the
    dates [ds], and on the next date [dt] after the instruments [ts]. *)
Definition equity0 (bt : PortfolioBacktest) : Series :=
  map (fun d => (d, NaN)) (master_index bt).

Definition after_dates (σ : Store) (bt : PortfolioBacktest)
    (ds : list date) : option (State * Series) :=
  items ← dicts σ !! data bt;
  foldM (date_step σ bt) ds (initial_state bt (keys items), equity0 bt).

Definition state_before (σ : Store) (bt : PortfolioBacktest)
    (ds : list date) (dt : date) (ts : dict ref)
  : option (State * float Qc) :=
  a ← after_dates σ bt ds;
  foldM (instrument_step σ bt dt) ts (a.1, f0).

(** The entries of ticker [t] are the same in two states. *)
Definition untouched (t : ticker) (st st' : State) : Prop :=
  dict_get (trades st') t = dict_get (trades st) t /\
  dict_get (positions st') t = dict_get (positions st) t /\
  dict_get (shares st') t = dict_get (shares st) t.

(** The invariant of one ticker's entries after it has been processed on
    the first [k] dates: an open position has its entry as the last,
    still open, record of the log, holding the shares of that record;
    every record is well formed; and the dates of the log are picked, in
    order, from those [k] dates. *)
Definition log_ok (σ : Store) (bt : PortfolioBacktest) (t : ticker)
    (k : nat) (st : State) : Prop :=
  exists p sh log,
    dict_get (positions st) t = Some p /\
    dict_get (shares st) t = Some sh /\
    dict_get (trades st) t = Some log /\
    (p = 1 ->
     exists before r,
       log = before ++ [r] /\ exit_time r = None /\ trade_shares r = sh) /\
    Forall (closed_ok σ bt t) log /\
    times log `sublist_of` take k (master_index bt).

(** An entry, or an exit, of the log is dated [dt]. *)
Definition entry_on (log : list Trade) (dt : date) : Prop :=
  exists r, r ∈ log /\ entry_time r = dt.

Definition exit_on (log : list Trade) (dt : date) : Prop :=
  exists r, r ∈ log /\ exit_time r = Some dt.

(** Yesterday's signal of ticker [t] at the [k]-th calendar date: the
    signal at the date before, and 0 on the first date. *)
Definition prev_signal (σ : Store) (bt : PortfolioBacktest) (t : ticker)
    (k : nat) : float Qc :=
  match k with
  | O => f0
  | S j => default f0 (master_index bt !! j ≫= sig_at σ bt t)
  end.

(** The position flag of [t] follows the signal it was last processed
    with. *)
Definition position_tracks (σ : Store) (bt : PortfolioBacktest)
    (t : ticker) (k : nat) (st : State) : Prop :=
  dict_get (positions st) t
  = Some (if feqb (prev_signal σ bt t k) f1 then 1 else 0).

(** The step from [st] to [st'] opened a new trade record for [t]. *)
Definition entered (st st' : State) (t : ticker) : Prop :=
  exists log r,
    dict_get (trades st) t = Some log /\
    dict_get (trades st') t = Some (log ++ [r]).

(** What one round of the inner loop did for ticker [t] on date [dt],
    read off the states before and after it; [log] is the trade log of
    [t] before the round.  An entry appends an open record dated [dt]
    while the position is flat.  An exit happens while the position is
    open: it writes the exit fields, dated [dt], into the last record,
    which was open and was entered on an earlier date of the calendar,
    and leaves the position flat. *)
Definition entry_event (t : ticker) (dt : date) (st st' : State)
    (log : list Trade) : Prop :=
  dict_get (positions st) t = Some 0 /\
  exists r,
    dict_get (trades st') t = Some (log ++ [r]) /\
    entry_time r = dt /\ exit_time r = None /\
    dict_get (positions st') t = Some 1.

Definition exit_event (bt : PortfolioBacktest) (k : nat) (t : ticker)
    (dt : date) (st st' : State) (log : list Trade) : Prop :=
  dict_get (positions st) t = Some 1 /\
  exists before r px pr,
    log = before ++ [r] /\
    exit_time r = None /\
    entry_time r < dt /\
    entry_time r ∈ take k (master_index bt) /\
    dict_get (trades st') t
    = Some (before ++ [mkTrade (entry_time r) (entry_price r)
                               (trade_shares r) (Some dt) (Some px)
                               (Some pr)]) /\
    dict_get (positions st') t = Some 0.

(** What the alignment loop of [__init__] has established once the
    tickers [done] are processed: the price dictionary keeps the keys
    [ks], and the entries of a processed ticker, in both dictionaries, are
    frames indexed by [master]. *)
Definition aligned_for (σ : Store) (data_dict signals_dict : ref)
    (master : list date) (ks done : list ticker) : Prop :=
  exists d,
    dicts σ !! data_dict = Some d /\ keys d = ks /\
    forall t, t ∈ done ->
      exists r df s,
        dict_get d t = Some r /\
        frames σ !! r = Some df /\ index df = master /\
        deref σ signals_dict t = Some s /\ index s = master.

(** A signal series as the caller passes it: cells are 0, 1 or missing. *)
Definition ternary (s : Series) : bool :=
  forallb (fun c => is_nan c.2 || feqb c.2 f0 || feqb c.2 f1) s.

(** Signal series hold only 0 and 1. *)
Definition binary (s : Series) : bool :=
  forallb (fun c => feqb c.2 f0 || feqb c.2 f1) s.

(** The signal series of the tickers [ks] during the alignment loop:
    0, 1 or missing as passed, and 0 or 1 once the ticker is processed. *)
Definition signals_ok (σ : Store) (signals_dict : ref)
    (ks done : list ticker) : Prop :=
  forall t, t ∈ ks ->
    exists s,
      deref σ signals_dict t = Some s /\ ternary s = true /\
      (t ∈ done -> binary s = true).

(** The object [__init__] leaves: an ascending calendar, and for every
    instrument a price frame and a signal series indexed by it. *)
Definition aligned (σ : Store) (bt : PortfolioBacktest) : bool :=
  ascending (master_index bt) &&
  match dicts σ !! data bt with
  | Some items =>
      bool_decide (NoDup (keys items)) &&
      forallb
        (fun kv =>
           match frames σ !! kv.2, deref σ (signals bt) kv.1 with
           | Some df, Some s =>
               bool_decide (index df = master_index bt)
               && bool_decide (index s = master_index bt)
           | _, _ => false
           end)
        items
  | None => false
  end.

Definition binary_signals (σ : Store) (bt : PortfolioBacktest) : bool :=
  match dicts σ !! data bt with
  | Some items =>
      forallb
        (fun kv =>
           match deref σ (signals bt) kv.1 with
           | Some s => binary s
           | None => false
           end)
        items
  | None => false
  end.

(** A record is closed once its exit fields are written. *)
Definition is_closed (r : Trade) : Prop := exit_time r <> None.

(** The shape of a trade log when the instrument was last processed with
    the signal [sig]: every record is closed, except that with signal 1
    the last record is the open trade. *)
Definition log_shape (sig : float Qc) (log : list Trade) : Prop :=
  if feqb sig f1
  then exists before r,
         log = before ++ [r] /\ Forall is_closed before /\ exit_time r = None
  else Forall is_closed log.

Definition shape_ok (σ : Store) (bt : PortfolioBacktest) (t : ticker)
    (k : nat) (st : State) : Prop :=
  position_tracks σ bt t k st /\
  exists log,
    dict_get (trades st) t = Some log /\
    log_shape (prev_signal σ bt t k) log.

(** Forward fill, said directly: the cell of the last row of [s] whose
    label is not later than [d], and NaN when there is none. *)
Definition last_known (s : Series) (d : date) : float Qc :=
  match last (filter (fun c => c.1 <= d) s) with
  | Some c => c.2
  | None => NaN
  end.

(** ** The per-ticker trade report of [app.py]

    [pd.DataFrame(trades[t])] has a column for every key some record
    holds; a record without the key has a missing cell.  [df['proceeds']]
    on a frame without that column raises [KeyError] ([None]). *)

Definition has_proceeds (r : Trade) : bool :=
  match proceeds r with Some _ => true | None => false end.

Definition has_exit_time (r : Trade) : bool :=
  match exit_time r with Some _ => true | None => false end.

(** [df_tr['proceeds'] - df_tr['entry_price'] * df_tr['shares']] *)
Definition pnl_column (log : list Trade) : option (list (float Qc)) :=
  if existsb has_proceeds log
  then Some (map (fun r => fsub (default NaN (proceeds r))
                                (fmul (entry_price r) (trade_shares r)))
                 log)
  else None.

(** [(df_tr['exit_time'] - df_tr['entry_time']).dt.days] *)
Definition holding_days (log : list Trade) : option (list (float Qc)) :=
  if existsb has_exit_time log
  then Some (map (fun r => match exit_time r with
                           | Some x => qz (x - entry_time r)
                           | None => NaN
                           end)
                 log)
  else None.

(** [len(df_tr[df_tr['PnL'] > 0]) / len(df_tr) * 100] *)
Definition win_rate (pnl : list (float Qc)) : float Qc :=
  fmul (fdiv (qz (Z.of_nat (length (filter (fun x => fgtb x f0 = true) pnl))))
             (qz (Z.of_nat (length pnl))))
       (qz 100).

Record TradeReport := mkReport {
  report_pnl : list (float Qc);
  report_days : list (float Qc);
  report_win_rate : float Qc
}.

(** The body of the loop over tickers: [Some None] is the
    "No trades" branch, [None] an exception. *)
Definition trade_report (log : list Trade) : option (option TradeReport) :=
  match log with
  | [] => Some None
  | _ =>
      pnl ← pnl_column log;
      days ← holding_days log;
      Some (Some (mkReport pnl days (win_rate pnl)))
  end.

(** ** Statements about signal series, and the inputs of the examples *)

(** A series is flat when every cell is [0]. *)
Definition all_flat (s : Series) : Prop := Forall (fun c => c.2 = qz 0) s.

(** Row [i] of [rows] is long since an entry row: some row at or
    before it satisfies [E], and no later row up to [i] satisfies
    [X]. *)
Definition long_since {A} (E X : A -> bool) (rows : list (date * A))
    (i : nat) : Prop :=
  exists j a, (j <= i)%nat /\ snd <$> rows !! j = Some a /\ E a = true /\
    forall k a', (j < k <= i)%nat -> snd <$> rows !! k = Some a' ->
                 X a' = false.

Module Examples.
Import Strategies.


(** Three rows: no cross, then a cross up with both filters in range,
    then a row with the oscillator on its threshold, the volatility
    above its own, and the fast average still above the slow one. *)
Definition threshold_table : Table :=
  [(0, mkRow (qz 100) (qz 9) (qz 10) (qz 50) (qfrac 2 10) (qz 0) (qz 0)
             (qz 90) (qz 110));
   (1, mkRow (qz 101) (qz 11) (qz 10) (qz 50) (qfrac 2 10) (qz 0) (qz 0)
             (qz 90) (qz 110));
   (2, mkRow (qz 102) (qz 12) (qz 10) (qz 70) (qfrac 9 10) (qz 0) (qz 0)
             (qz 90) (qz 110))].

(** The five-date scenario: one instrument, prices 100, 105, 95, 110,
    120, signals 0, 1, 1, 0, 0.  The caller holds the price dictionary
    at reference 0 and the signal dictionary at reference 1. *)
Definition scenario_store : Store :=
  mkStore
    [ [(0, qz 100); (1, qz 105); (2, qz 95); (3, qz 110); (4, qz 120)];
      [(0, qz 0); (1, qz 1); (2, qz 1); (3, qz 0); (4, qz 0)] ]
    [ [("A"%string, 0%nat)]; [("A"%string, 1%nat)] ].

Definition scenario_run : option (Series * dict (list Trade)) :=
  x ← init scenario_store 0%nat 1%nat (Some [("A"%string, qz 1)])
           (qz 1000) (qz 0) (qz 0);
  run x.1 x.2.

(** Two instruments with different calendars: A trades on days 1 and 2,
    B only on day 2; every signal is flat. *)
Definition gap_store : Store :=
  mkStore
    [ [(1, qz 10); (2, qz 11)]; [(2, qz 20)];
      [(1, qz 0); (2, qz 0)]; [(2, qz 0)] ]
    [ [("A"%string, 0%nat); ("B"%string, 1%nat)];
      [("A"%string, 2%nat); ("B"%string, 3%nat)] ].

(** The five-date scenario with a slippage of one tenth. *)
Definition slippage_run : option (Series * dict (list Trade)) :=
  x ← init scenario_store 0%nat 1%nat (Some [("A"%string, qz 1)])
           (qz 1000) (qfrac 1 10) (qz 0);
  run x.1 x.2.

Definition gap_init : option (Store * PortfolioBacktest) :=
  init gap_store 0%nat 1%nat None (qz 1000) (qfrac 5 10000) (qz 0).

Definition gap_run : option (Series * dict (list Trade)) :=
  x ← gap_init; run x.1 x.2.

(** The same two instruments, with no signal series for B. *)
Definition missing_signal_store : Store :=
  mkStore
    [ [(1, qz 10); (2, qz 11)]; [(2, qz 20)]; [(1, qz 0); (2, qz 0)] ]
    [ [("A"%string, 0%nat); ("B"%string, 1%nat)]; [("A"%string, 2%nat)] ].

(** An equity curve growing by a tenth a day, and a curve of a single
    observation. *)
Definition steady_growth : Metrics.Curve :=
  [(0, Fin 100%R); (1, Fin 110%R); (2, Fin 121%R)].

Definition single_observation : Metrics.Curve := [(0, Fin 1000%R)].

(** Five rows on which each generator opens a position at the second
    row and closes it at the fourth: the fast average and the momentum
    line cross up at row 1 and down at row 3, the close is under the
    lower band at row 1 and over the middle of the bands at row 3. *)
Definition crossing_table : Table :=
  [(0, mkRow (qz 100) (qz 9) (qz 10) (qz 50) (qfrac 2 10) (qz (-1)) (qz 0)
             (qz 90) (qz 110));
   (1, mkRow (qz 89) (qz 11) (qz 10) (qz 50) (qfrac 2 10) (qz 1) (qz 0)
             (qz 90) (qz 110));
   (2, mkRow (qz 95) (qz 12) (qz 10) (qz 50) (qfrac 2 10) (qz 2) (qz 0)
             (qz 90) (qz 110));
   (3, mkRow (qz 101) (qz 9) (qz 10) (qz 50) (qfrac 2 10) (qz (-1)) (qz 0)
             (qz 90) (qz 110));
   (4, mkRow (qz 101) (qz 8) (qz 10) (qz 50) (qfrac 2 10) (qz (-2)) (qz 0)
             (qz 90) (qz 110))].

(** Three downloaded rows, the adjusted close a little under the
    close. *)
Definition three_bars : list (date * Features.Bar) :=
  [(0, Features.mkBar (Fin 100%R) (Fin 102%R) (Fin 99%R) (Fin 101%R)
                      (Fin 100%R) (Fin 5000%R));
   (1, Features.mkBar (Fin 101%R) (Fin 111%R) (Fin 100%R) (Fin 111%R)
                      (Fin 110%R) (Fin 6000%R));
   (2, Features.mkBar (Fin 111%R) (Fin 123%R) (Fin 110%R) (Fin 122%R)
                      (Fin 121%R) (Fin 7000%R))].

End Examples.

(** * Properties *)

(** ** Extended numbers on [Qc] *)

Lemma qc_compare_refl (a : Qc) : (a ?= a)%Qc = Eq.
Proof. by apply Qceq_alt. Qed.

Lemma fcompare_eq_sym (a b : float Qc) :
  fcompare a b = Some Eq -> fcompare b a = Some Eq.
Proof.
  destruct a as [x| | |], b as [y| | |]; simpl; try done.
  intros [= E]. apply Qceq_alt in E. subst. by rewrite qc_compare_refl.
Qed.

Lemma feqb_not_lt (a b : float Qc) : feqb a b = true -> fltb a b = false.
Proof. unfold feqb, fltb. by destruct (fcompare a b) as [[]|]. Qed.

Lemma feqb_not_gt (a b : float Qc) : feqb a b = true -> fgtb a b = false.
Proof.
  unfold feqb, fgtb, fltb. intros E.
  destruct (fcompare a b) as [[]|] eqn:C; try done.
  by rewrite (fcompare_eq_sym _ _ C).
Qed.

Lemma feqb_fin (x y : Qc) : feqb (Fin x) (Fin y) = true <-> x = y.
Proof.
  unfold feqb; simpl. rewrite Qceq_alt.
  destruct (x ?= y)%Qc; split; congruence.
Qed.

Lemma qz_inj (n m : Z) : qz n = qz m -> n = m.
Proof.
  unfold qz. intros [= E]. apply inject_Z_injective.
  by rewrite <- (Qred_correct (inject_Z n)), E, Qred_correct.
Qed.

Lemma feqb_qz (n m : Z) : feqb (qz n) (qz m) = Z.eqb n m.
Proof.
  destruct (Z.eqb_spec n m) as [->|N].
  - by apply feqb_fin.
  - apply not_true_is_false. intros E. apply feqb_fin in E.
    apply N, qz_inj. unfold qz. by rewrite E.
Qed.

(** ** Signal generators *)

Section Generators.
Import Strategies.

Lemma emit_app {A} (step : A -> Z -> Z) (l1 l2 : list (date * A)) p :
  emit step (l1 ++ l2) p =
  emit step l1 p ++ emit step l2 (fold_left (fun q a => step a.2 q) l1 p).
Proof.
  revert p. induction l1 as [|[t a] l1 IH]; intros p; simpl; [done|].
  by rewrite IH.
Qed.



Lemma length_removelast_cons (x : float Qc) (l : list (float Qc)) :
  length (removelast (x :: l)) = length l.
Proof.
  revert x. induction l as [|y l IH]; intros x; [done|].
  change (removelast (x :: y :: l)) with (x :: removelast (y :: l)).
  cbn [length]. by rewrite IH.
Qed.

Lemma length_shift (l : list (float Qc)) : length (shift l) = length l.
Proof.
  destruct l as [|x l]; [done|]. unfold shift.
  cbn [length]. by rewrite length_removelast_cons.
Qed.

Lemma length_cross_down (a b : list (float Qc)) :
  length a = length b -> length (cross_down a b) = length a.
Proof.
  intros E. unfold cross_down.
  rewrite !length_zip_with, !length_shift; lia.
Qed.

Lemma length_cross_up (a b : list (float Qc)) :
  length a = length b -> length (cross_up a b) = length a.
Proof.
  intros E. unfold cross_up.
  rewrite !length_zip_with, !length_shift; lia.
Qed.

Lemma emit_lookup {A} (step : A -> Z -> Z) (rows : list (date * A)) :
  forall i p t a,
    rows !! i = Some (t, a) ->
    emit step rows p !! i
    = Some (t, qz (step a (pos_after step (take i rows) p))).
Proof.
  induction rows as [|[t0 a0] rows IH]; intros i p t a Hi; [done|].
  destruct i as [|i]; simpl in *.
  - by injection Hi as -> ->.
  - exact (IH i _ t a Hi).
Qed.

Lemma pos_after_snoc {A} (step : A -> Z -> Z) (rows : list (date * A)) :
  forall j p t a,
    rows !! j = Some (t, a) ->
    pos_after step (take (S j) rows) p
    = step a (pos_after step (take j rows) p).
Proof.
  induction rows as [|[t0 a0] rows IH]; intros j p t a Hj; [done|].
  destruct j as [|j]; simpl in *.
  - by injection Hj as -> ->.
  - exact (IH j _ t a Hj).
Qed.

(** The cell before row [i] of an emitted series is the position the
    loop holds when it reaches row [i]. *)
Lemma emit_before {A} (step : A -> Z -> Z) (rows : list (date * A)) i :
  (i < length rows)%nat ->
  match i with
  | O => qz 0
  | S j => default NaN (snd <$> emit step rows 0 !! j)
  end = qz (pos_after step (take i rows) 0).
Proof.
  intros Hi. destruct i as [|j]; [done|].
  destruct (lookup_lt_is_Some_2 rows j ltac:(lia)) as [[t a] Hj].
  rewrite (emit_lookup step rows j 0 t a Hj). simpl.
  by rewrite (pos_after_snoc step rows j 0 t a Hj).
Qed.

Lemma with_crosses_lookup (df : Table) (up down : list bool) i t r u d :
  df !! i = Some (t, r) -> up !! i = Some u -> down !! i = Some d ->
  with_crosses df up down !! i = Some (t, (r, u, d)).
Proof.
  intros Hdf Hu Hd. unfold with_crosses.
  rewrite lookup_zip_with, Hdf. simpl.
  by rewrite lookup_zip_with, Hu, Hd.
Qed.

Lemma length_with_crosses (df : Table) (up down : list bool) :
  length up = length df -> length down = length df ->
  length (with_crosses df up down) = length df.
Proof.
  intros Hu Hd. unfold with_crosses.
  rewrite length_zip_with, length_zip_with; lia.
Qed.




(** C10 (amended): in the trend-crossover generator both threshold
    comparisons are strict.  At a row where the oscillator equals
    [rsi_high] or the volatility equals [vol_thresh], the filter that is
    on its threshold reads neither below nor above it; a flat position
    stays flat, and an open position is held exactly when neither the
    cross-down nor a filter strictly above its threshold (which can only
    be the other one) fires. *)
Theorem threshold_equality (df : Table) (rsi_high vol_thresh : float Qc)
    (i : nat) (t : date) (r : Row) :
  df !! i = Some (t, r) ->
  feqb (rsi r) rsi_high = true \/ feqb (vol r) vol_thresh = true ->
  let s := ema_rsi_vol_signals df rsi_high vol_thresh in
  let before :=
    match i with
    | O => qz 0
    | S j => default NaN (snd <$> s !! j)
    end in
  exists now down,
    s !! i = Some (t, now) /\
    cross_down (column ema_fast df) (column ema_slow df) !! i = Some down /\
    (feqb (rsi r) rsi_high = true ->
     fltb (rsi r) rsi_high = false /\ fgtb (rsi r) rsi_high = false) /\
    (feqb (vol r) vol_thresh = true ->
     fltb (vol r) vol_thresh = false /\ fgtb (vol r) vol_thresh = false) /\
    (before = qz 0 -> now = qz 0) /\
    (before = qz 1 ->
     (now = qz 1 <->
      down = false /\ fgtb (rsi r) rsi_high = false
      /\ fgtb (vol r) vol_thresh = false)).
Proof.
  intros Hdf Heq s before.
  pose proof (lookup_lt_Some _ _ _ Hdf) as Hi.
  set (fast := column ema_fast df). set (slow := column ema_slow df).
  assert (Hcol : length fast = length slow)
    by (unfold fast, slow, column; by rewrite !length_map).
  assert (Hlf : length fast = length df)
    by (unfold fast, column; by rewrite length_map).
  destruct (lookup_lt_is_Some_2 (cross_up fast slow) i) as [u Hu];
    [rewrite length_cross_up; lia|].
  destruct (lookup_lt_is_Some_2 (cross_down fast slow) i) as [d Hd];
    [rewrite length_cross_down; lia|].
  set (rows := with_crosses df (cross_up fast slow) (cross_down fast slow)).
  assert (Hrow : rows !! i = Some (t, (r, u, d)))
    by (by apply with_crosses_lookup).
  assert (Hlen : (i < length rows)%nat)
    by (by apply lookup_lt_Some in Hrow).
  set (step := ema_rsi_vol_step rsi_high vol_thresh).
  assert (Hbefore : before = qz (pos_after step (take i rows) 0))
    by (exact (emit_before step rows i Hlen)).
  set (p := pos_after step (take i rows) 0) in *.
  exists (qz (step (r, u, d) p)), d.
  split; [exact (emit_lookup step rows i 0 t _ Hrow)|].
  split; [exact Hd|].
  split; [intros E; split; [by apply feqb_not_lt|by apply feqb_not_gt]|].
  split; [intros E; split; [by apply feqb_not_lt|by apply feqb_not_gt]|].
  assert (Hlt : fltb (rsi r) rsi_high && fltb (vol r) vol_thresh = false).
  { destruct Heq as [E|E].
    - by rewrite (feqb_not_lt _ _ E).
    - by rewrite (feqb_not_lt _ _ E), andb_false_r. }
  split.
  - intros E. rewrite Hbefore in E. apply qz_inj in E.
    unfold step, ema_rsi_vol_step. rewrite E. simpl.
    rewrite <- andb_assoc, Hlt. by rewrite andb_false_r.
  - intros E. rewrite Hbefore in E. apply qz_inj in E.
    unfold step, ema_rsi_vol_step. rewrite E. simpl.
    destruct d, (fgtb (rsi r) rsi_high), (fgtb (vol r) vol_thresh);
      simpl; split; try done; try (intros Q; by apply qz_inj in Q);
      try (by intros (?&?&?)).
Qed.

(** Witness of [threshold_equality]: the third row of the example
    table, where the oscillator is on its threshold. *)
Lemma threshold_equality_witness :
  let s := ema_rsi_vol_signals Examples.threshold_table default_rsi_high
                               default_vol_thresh in
  exists now down,
    s !! 2%nat = Some (2, now) /\
    cross_down (column ema_fast Examples.threshold_table)
               (column ema_slow Examples.threshold_table) !! 2%nat
    = Some down /\
    (feqb (qz 70) default_rsi_high = true ->
     fltb (qz 70) default_rsi_high = false
     /\ fgtb (qz 70) default_rsi_high = false) /\
    (feqb (qfrac 9 10) default_vol_thresh = true ->
     fltb (qfrac 9 10) default_vol_thresh = false
     /\ fgtb (qfrac 9 10) default_vol_thresh = false) /\
    (default NaN (snd <$> s !! 1%nat) = qz 0 -> now = qz 0) /\
    (default NaN (snd <$> s !! 1%nat) = qz 1 ->
     (now = qz 1 <->
      down = false /\ fgtb (qz 70) default_rsi_high = false
      /\ fgtb (qfrac 9 10) default_vol_thresh = false)).
Proof.
  apply (threshold_equality Examples.threshold_table default_rsi_high
           default_vol_thresh 2 2
           (mkRow (qz 102) (qz 12) (qz 10) (qz 70) (qfrac 9 10) (qz 0)
                  (qz 0) (qz 90) (qz 110))).
  - reflexivity.
  - left. reflexivity.
Defined.

(** C10 as stated fails: in the example table the position is open
    after the second row; on the third row the oscillator equals its
    threshold and no cross-down fires, yet the position is closed,
    because the volatility is above its threshold. *)
Lemma threshold_row_not_held :
  ema_rsi_vol_signals Examples.threshold_table default_rsi_high
                      default_vol_thresh
  = [(0, qz 0); (1, qz 1); (2, qz 0)] /\
  (rsi <$> (snd <$> Examples.threshold_table !! 2%nat))
  = Some default_rsi_high /\
  cross_down (column ema_fast Examples.threshold_table)
             (column ema_slow Examples.threshold_table) !! 2%nat
  = Some false.
Proof. repeat split; reflexivity. Qed.
End Generators.

(** ** The simulator on the example inputs *)

(** Equal canonical rationals are equal whatever proof they carry. *)
Ltac qc_equal :=
  vm_compute;
  repeat (reflexivity || (apply Qc_is_canon; reflexivity) || f_equal).

(** C3: on one instrument over five dates with prices 100, 105, 95, 110,
    120, signals 0, 1, 1, 0, 0, no slippage, no commission, weight 1 and
    capital 1000, the simulator enters on date 1 at 105 with 1000/105
    shares, exits on date 3 at 110, and the equity curve is 1000, 1000,
    1000*(95/105), 1000*(110/105), 1000*(110/105). *)
Theorem five_date_scenario :
  Examples.scenario_run =
  Some ([(0, qz 1000); (1, qz 1000);
         (2, fmul (qz 1000) (fdiv (qz 95) (qz 105)));
         (3, fmul (qz 1000) (fdiv (qz 110) (qz 105)));
         (4, fmul (qz 1000) (fdiv (qz 110) (qz 105)))],
        [("A"%string,
          [mkTrade 1 (qz 105) (fdiv (qz 1000) (qz 105))
                   (Some 3) (Some (qz 110))
                   (Some (fmul (fdiv (qz 1000) (qz 105)) (qz 110)))])]).
Proof. qc_equal. Qed.

(** C1 (the code departs from it): instrument B has no price on day 1,
    the day on which only A trades.  B is flat and never traded, but its
    mark [shares * price] is [0 * NaN], so the equity recorded for day 1
    is NaN instead of the cash plus the value of A. *)
Theorem gap_date_equity_is_nan :
  exists σ bt,
    Examples.gap_init = Some (σ, bt) /\
    (deref σ (data bt) "B" ≫= fun df => at_ df 1) = Some NaN /\
    (deref σ (data bt) "A" ≫= fun df => at_ df 1) = Some (qz 10) /\
    run σ bt = Some ([(1, NaN); (2, qz 1000)],
                     [("A"%string, []); ("B"%string, [])]).
Proof.
  unfold Examples.gap_init.
  destruct (init _ _ _ _ _ _ _) as [[σ bt]|] eqn:E; [|by vm_compute in E].
  exists σ, bt. split; [done|].
  vm_compute in E. injection E as <- <-.
  repeat split; qc_equal.
Qed.

(** C9 (the code departs from it): [__init__] stores the aligned frames
    in the dictionaries it was given.  After construction the caller's
    price dictionary (reference 0) and signal dictionary (reference 1)
    hold new objects for every instrument, and B's have other contents:
    a NaN price and a flat signal on day 1. *)
Theorem init_rebinds_caller_dicts :
  exists σ bt,
    Examples.gap_init = Some (σ, bt) /\
    dicts Examples.gap_store !! 0%nat
      = Some [("A"%string, 0%nat); ("B"%string, 1%nat)] /\
    dicts σ !! 0%nat = Some [("A"%string, 4%nat); ("B"%string, 6%nat)] /\
    dicts Examples.gap_store !! 1%nat
      = Some [("A"%string, 2%nat); ("B"%string, 3%nat)] /\
    dicts σ !! 1%nat = Some [("A"%string, 5%nat); ("B"%string, 7%nat)] /\
    deref Examples.gap_store 0%nat "B" = Some [(2, qz 20)] /\
    deref σ 0%nat "B" = Some [(1, NaN); (2, qz 20)] /\
    deref Examples.gap_store 1%nat "B" = Some [(2, qz 0)] /\
    deref σ 1%nat "B" = Some [(1, qz 0); (2, qz 0)].
Proof.
  unfold Examples.gap_init.
  destruct (init _ _ _ _ _ _ _) as [[σ bt]|] eqn:E; [|by vm_compute in E].
  exists σ, bt. split; [done|].
  vm_compute in E. injection E as <- <-.
  repeat split; qc_equal.
Qed.

(** ** Dictionaries *)

Lemma dict_get_set_eq {V} (d : dict V) t v :
  dict_get (dict_set d t v) t = Some v.
Proof.
  induction d as [|[k v0] d IH]; simpl.
  - by rewrite String.eqb_refl.
  - destruct (String.eqb k t) eqn:E; simpl; by rewrite E.
Qed.

Lemma dict_get_set_ne {V} (d : dict V) t t' v :
  t <> t' -> dict_get (dict_set d t v) t' = dict_get d t'.
Proof.
  intros N. induction d as [|[k v0] d IH]; simpl.
  - destruct (String.eqb_spec t t'); [done|done].
  - destruct (String.eqb_spec k t) as [->|Nk]; simpl.
    + by destruct (String.eqb_spec t t').
    + by rewrite IH.
Qed.

Lemma keys_dict_set {V} (d : dict V) t v v0 :
  dict_get d t = Some v0 -> keys (dict_set d t v) = keys d.
Proof.
  induction d as [|[k w] d IH]; simpl; [done|].
  destruct (String.eqb_spec k t) as [->|Nk]; simpl; [done|].
  intros H. by rewrite (IH H).
Qed.

Lemma dict_get_Some_keys {V} (d : dict V) t v :
  dict_get d t = Some v -> t ∈ keys d.
Proof.
  induction d as [|[k w] d IH]; simpl; [done|].
  destruct (String.eqb_spec k t) as [->|Nk].
  - intros _. apply list_elem_of_here.
  - intros H. apply list_elem_of_further. by apply IH.
Qed.

Lemma dict_get_map_const {V} (ks : list ticker) (v : V) t :
  t ∈ ks -> dict_get (map (fun k => (k, v)) ks) t = Some v.
Proof.
  induction ks as [|k ks IH]; simpl.
  - by intros ?%elem_of_nil.
  - intros [->|H]%elem_of_cons.
    + by rewrite String.eqb_refl.
    + destruct (String.eqb k t); [done|by apply IH].
Qed.

Lemma dict_get_nodup_here {V} (d1 d2 : dict V) t v :
  t ∉ keys d1 -> dict_get (d1 ++ (t, v) :: d2) t = Some v.
Proof.
  induction d1 as [|[k w] d1 IH]; simpl.
  - by rewrite String.eqb_refl.
  - intros N. destruct (String.eqb_spec k t) as [->|Nk].
    + exfalso. apply N. apply list_elem_of_here.
    + apply IH. intros H. apply N. by apply list_elem_of_further.
Qed.

(** ** Invariants of [run] *)

Lemma foldM_app {A B} (f : B -> A -> option B) (l1 l2 : list A) (b : B) :
  foldM f (l1 ++ l2) b = foldM f l1 b ≫= foldM f l2.
Proof.
  revert b. induction l1 as [|x l1 IH]; intros b; simpl; [done|].
  destruct (f b x) as [b'|]; simpl; [apply IH|done].
Qed.

Lemma foldM_snoc {A B} (f : B -> A -> option B) (l : list A) (x : A) b c :
  foldM f (l ++ [x]) b = Some c ->
  exists b', foldM f l b = Some b' /\ f b' x = Some c.
Proof.
  rewrite foldM_app. destruct (foldM f l b) as [b'|]; simpl; [|done].
  destruct (f b' x) as [c'|] eqn:E; simpl; [|done].
  intros [= <-]. eauto.
Qed.

Lemma trade_step_untouched bt dt t price sig prev st st' t' :
  trade_step bt dt t price sig prev st = Some st' ->
  t <> t' -> untouched t' st st'.
Proof.
  unfold trade_step, untouched. intros H N.
  destruct (entry_cond sig prev).
  - destruct (dict_get (weights bt) t); simpl in H; [|done].
    destruct (dict_get (trades st) t); simpl in H; [|done].
    injection H as <-. simpl. by rewrite !dict_get_set_ne.
  - destruct (exit_signal sig prev); [|by injection H as <-].
    destruct (dict_get (positions st) t) as [p|]; simpl in H; [|done].
    destruct (Z.eqb p 1); [|by injection H as <-].
    destruct (dict_get (shares st) t); simpl in H; [|done].
    destruct (dict_get (trades st) t); simpl in H; [|done].
    destruct (close_last _ _ _ _); simpl in H; [|done].
    injection H as <-. simpl. by rewrite !dict_get_set_ne.
Qed.

Lemma instrument_step_inv σ bt dt st pv t r st' pv' :
  instrument_step σ bt dt (st, pv) (t, r) = Some (st', pv') ->
  exists price sig prev sh,
    read_inputs σ bt dt t r = Some (price, sig, prev) /\
    trade_step bt dt t price sig prev st = Some st' /\
    dict_get (shares st') t = Some sh /\
    pv' = fadd pv (fmul sh price).
Proof.
  unfold instrument_step.
  destruct (read_inputs σ bt dt t r) as [[[price sig] prev]|]; [|done].
  simpl. destruct (trade_step _ _ _ _ _ _ _) as [st1|] eqn:T; [|done].
  simpl. destruct (dict_get (shares st1) t) as [sh|] eqn:E; [|done].
  simpl. intros [= <- <-]. by exists price, sig, prev, sh.
Qed.

Section RunInvariant.
Variables (σ : Store) (bt : PortfolioBacktest) (items : dict ref).
Hypothesis Hitems : dicts σ !! data bt = Some items.
Hypothesis Hnodup : NoDup (keys items).

(** [Q t k st]: what holds of ticker [t] in state [st] once [t] has been
    processed on the first [k] dates of the calendar. *)
Variable Q : ticker -> nat -> State -> Prop.
Hypothesis Q_frame :
  forall t k st st', untouched t st st' -> Q t k st -> Q t k st'.
Hypothesis Q_init :
  forall t, t ∈ keys items -> Q t 0 (initial_state bt (keys items)).
Hypothesis Q_step :
  forall t r k dt st st' price sig prev,
    master_index bt !! k = Some dt ->
    (t, r) ∈ items ->
    read_inputs σ bt dt t r = Some (price, sig, prev) ->
    trade_step bt dt t price sig prev st = Some st' ->
    Q t k st -> Q t (S k) st'.

Lemma within_date k dt st0 :
  master_index bt !! k = Some dt ->
  (forall t, t ∈ keys items -> Q t k st0) ->
  forall ts ts' st pv,
    items = ts ++ ts' ->
    foldM (instrument_step σ bt dt) ts (st0, f0) = Some (st, pv) ->
    forall t, t ∈ keys items ->
      Q t (if bool_decide (t ∈ keys ts) then S k else k) st.
Proof using Hnodup Q_frame Q_step.
  intros Hk H0 ts. induction ts as [|[t1 r1] ts IH] using rev_ind.
  - intros ts' st pv _ [= <- <-] t Ht.
    rewrite bool_decide_eq_false_2; [by apply H0|].
    unfold keys; simpl. by intros ?%elem_of_nil.
  - intros ts' st pv Hsplit Hfold t Ht.
    apply foldM_snoc in Hfold as ([st1 pv1] & Hfold & Hstep).
    apply instrument_step_inv in Hstep
      as (price & sig & prev & sh & Hread & Htrade & _ & _).
    rewrite <- app_assoc in Hsplit.
    specialize (IH _ _ _ Hsplit Hfold).
    assert (Hfresh : t1 ∉ keys ts).
    { rewrite Hsplit in Hnodup. unfold keys in Hnodup.
      rewrite map_app in Hnodup. apply NoDup_app in Hnodup as (_ & Hd & _).
      intros Hin. apply (Hd t1 Hin). simpl. apply list_elem_of_here. }
    assert (Hin1 : (t1, r1) ∈ items).
    { rewrite Hsplit. apply elem_of_app. right. apply list_elem_of_here. }
    unfold keys. rewrite map_app. simpl.
    destruct (decide (t = t1)) as [->|N].
    + rewrite bool_decide_eq_true_2
        by (apply elem_of_app; right; apply list_elem_of_here).
      specialize (IH t1 Ht).
      rewrite bool_decide_eq_false_2 in IH by done.
      by eapply Q_step.
    + specialize (IH t Ht).
      apply (Q_frame t _ st1 st);
        [by eapply trade_step_untouched|].
      destruct (bool_decide (t ∈ keys ts)) eqn:E.
      * apply bool_decide_eq_true in E.
        rewrite bool_decide_eq_true_2; [done|].
        apply elem_of_app. by left.
      * apply bool_decide_eq_false in E.
        rewrite bool_decide_eq_false_2; [done|].
        intros [?|?%list_elem_of_singleton]%elem_of_app; done.
Qed.

Lemma date_step_inv st eq dt st' eq' :
  date_step σ bt (st, eq) dt = Some (st', eq') ->
  exists pv,
    foldM (instrument_step σ bt dt) items (st, f0) = Some (st', pv) /\
    eq' = set_loc eq dt (fadd (portfolio_cash st') pv).
Proof using Hitems.
  unfold date_step. rewrite Hitems. simpl.
  destruct (foldM _ _ _) as [[st1 pv]|]; [|done].
  simpl. intros [= <- <-]. by exists pv.
Qed.

Lemma after_dates_inv ds rest st eq :
  master_index bt = ds ++ rest ->
  after_dates σ bt ds = Some (st, eq) ->
  forall t, t ∈ keys items -> Q t (length ds) st.
Proof using All.
  unfold after_dates. rewrite Hitems. simpl.
  revert rest st eq. induction ds as [|dt ds IH] using rev_ind.
  - intros rest st eq _ [= <- <-] t Ht. by apply Q_init.
  - intros rest st eq Hm Hfold t Ht.
    apply foldM_snoc in Hfold as ([st1 eq1] & Hfold & Hstep).
    apply date_step_inv in Hstep as (pv & Hstep & _).
    rewrite <- app_assoc in Hm.
    specialize (IH _ _ _ Hm Hfold).
    assert (Hk : master_index bt !! length ds = Some dt).
    { rewrite Hm. by apply list_lookup_middle. }
    pose proof (within_date (length ds) dt st1 Hk IH items [] st pv
                  (eq_sym (app_nil_r items)) Hstep t Ht) as HQ.
    rewrite bool_decide_eq_true_2 in HQ by done.
    by rewrite length_app, Nat.add_1_r.
Qed.

Lemma state_before_inv ds dt ds' ts ts' st pv :
  master_index bt = ds ++ dt :: ds' ->
  items = ts ++ ts' ->
  state_before σ bt ds dt ts = Some (st, pv) ->
  forall t, t ∈ keys items ->
    Q t (if bool_decide (t ∈ keys ts) then S (length ds) else length ds) st.
Proof using All.
  intros Hm Hsplit. unfold state_before.
  destruct (after_dates σ bt ds) as [[st0 eq0]|] eqn:E; [|done].
  simpl. intros Hfold.
  eapply within_date; eauto.
  - rewrite Hm. by apply list_lookup_middle.
  - by eapply after_dates_inv.
Qed.

Lemma run_inv eq tr :
  run σ bt = Some (eq, tr) ->
  exists st, after_dates σ bt (master_index bt) = Some (st, eq) /\
             tr = trades st /\
             forall t, t ∈ keys items ->
               Q t (length (master_index bt)) st.
Proof using All.
  unfold run. rewrite Hitems. simpl.
  destruct (foldM _ _ _) as [[st eq1]|] eqn:E; [|done].
  simpl. intros [= <- <-]. exists st.
  assert (A : after_dates σ bt (master_index bt) = Some (st, eq1)).
  { unfold after_dates. rewrite Hitems. exact E. }
  repeat split; [done|].
  eapply (after_dates_inv _ []); [by rewrite app_nil_r|done].
Qed.
End RunInvariant.

Lemma dict_get_elem_of {V} (d : dict V) t v :
  NoDup (keys d) -> (t, v) ∈ d -> dict_get d t = Some v.
Proof.
  induction d as [|[k w] d IH]; simpl.
  - by intros _ ?%elem_of_nil.
  - intros [Hk Hd]%NoDup_cons [[= <- <-]|Hin]%elem_of_cons.
    + by rewrite String.eqb_refl.
    + destruct (String.eqb_spec k t) as [->|N]; [|by apply IH].
      exfalso. apply Hk. unfold keys.
      apply list_elem_of_fmap. by exists (t, v).
Qed.

Lemma read_inputs_price σ bt items dt t r price sig prev :
  dicts σ !! data bt = Some items ->
  NoDup (keys items) ->
  (t, r) ∈ items ->
  read_inputs σ bt dt t r = Some (price, sig, prev) ->
  price_at σ bt t dt = Some price.
Proof.
  intros Hitems Hnd Hin.
  assert (D : deref σ (data bt) t = frames σ !! r).
  { unfold deref. rewrite Hitems. simpl.
    by rewrite (dict_get_elem_of items t r Hnd Hin). }
  unfold read_inputs, price_at. rewrite D.
  destruct (frames σ !! r) as [df|]; [|done]. simpl.
  destruct (at_ df dt) as [p|]; [|done]. simpl.
  destruct (deref σ (signals bt) t) as [s|]; [|done]. simpl.
  destruct (at_ s dt) as [sg|]; [|done]. simpl.
  destruct (match master_index bt with [] => _ | _ => _ end); [|done].
  simpl. by intros [= <- _ _].
Qed.

Lemma times_app (l1 l2 : list Trade) : times (l1 ++ l2) = times l1 ++ times l2.
Proof. unfold times. apply flat_map_app. Qed.

Lemma close_last_snoc before r dt px pr :
  close_last (before ++ [r]) dt px pr
  = Some (before ++ [mkTrade (entry_time r) (entry_price r) (trade_shares r)
                             (Some dt) (Some px) (Some pr)]).
Proof.
  unfold close_last. rewrite rev_app_distr. simpl.
  by rewrite rev_involutive.
Qed.

Lemma times_close before r dt px pr :
  exit_time r = None ->
  times (before ++ [mkTrade (entry_time r) (entry_price r) (trade_shares r)
                            (Some dt) (Some px) (Some pr)])
  = times (before ++ [r]) ++ [dt].
Proof.
  intros E. rewrite !times_app. unfold times at 2 4. simpl. rewrite E.
  by rewrite <- app_assoc.
Qed.

Lemma sublist_snoc_take (l : list date) (m : list date) k dt :
  m !! k = Some dt ->
  l `sublist_of` take k m ->
  l ++ [dt] `sublist_of` take (S k) m.
Proof.
  intros Hk Hl. rewrite (take_S_r _ _ _ Hk). by apply sublist_app.
Qed.

Lemma sublist_keep_take (l : list date) (m : list date) k :
  l `sublist_of` take k m -> l `sublist_of` take (S k) m.
Proof.
  intros Hl. destruct (m !! k) as [dt|] eqn:Hk.
  - rewrite (take_S_r _ _ _ Hk). by apply sublist_inserts_r.
  - apply lookup_ge_None in Hk.
    rewrite take_ge by lia. by rewrite take_ge in Hl by lia.
Qed.

Section LogInvariant.
Variables (σ : Store) (bt : PortfolioBacktest) (items : dict ref).
Hypothesis Hitems : dicts σ !! data bt = Some items.
Hypothesis Hnodup : NoDup (keys items).

Lemma log_ok_frame t k st st' :
  untouched t st st' -> log_ok σ bt t k st -> log_ok σ bt t k st'.
Proof.
  intros (Ht & Hp & Hs) (p & sh & log & ? & ? & ? & ?).
  exists p, sh, log. rewrite Ht, Hp, Hs. eauto.
Qed.

Lemma log_ok_init t :
  t ∈ keys items -> log_ok σ bt t 0 (initial_state bt (keys items)).
Proof.
  intros Ht. exists 0, f0, []. simpl.
  rewrite !dict_get_map_const by done.
  repeat split; [done|constructor|apply sublist_nil_l].
Qed.

Lemma log_ok_keep t k st :
  log_ok σ bt t k st -> log_ok σ bt t (S k) st.
Proof.
  intros (p & sh & log & ? & ? & ? & ? & ? & Hsub).
  exists p, sh, log. repeat split; try done.
  by apply sublist_keep_take.
Qed.

Lemma log_ok_step t r k dt st st' price sig prev :
  master_index bt !! k = Some dt ->
  (t, r) ∈ items ->
  read_inputs σ bt dt t r = Some (price, sig, prev) ->
  trade_step bt dt t price sig prev st = Some st' ->
  log_ok σ bt t k st -> log_ok σ bt t (S k) st'.
Proof using Hitems Hnodup.
  intros Hk Hin Hread Hstep Hok.
  pose proof (read_inputs_price _ _ _ _ _ _ _ _ _ Hitems Hnodup Hin Hread)
    as Hprice.
  pose proof Hok as (p & sh & log & Hp & Hsh & Hlog & Hopen & Hall & Hsub).
  unfold trade_step in Hstep.
  destruct (entry_cond sig prev).
  - destruct (dict_get (weights bt) t) as [w|]; simpl in Hstep; [|done].
    rewrite Hlog in Hstep. simpl in Hstep. injection Hstep as <-.
    eexists 1, _, _. simpl. rewrite !dict_get_set_eq.
    split; [done|]. split; [done|]. split; [done|].
    split; [intros _; by eexists log, _|].
    split.
    + apply Forall_app. split; [done|].
      apply Forall_singleton. by split.
    + rewrite times_app. unfold times at 2. simpl.
      by apply sublist_snoc_take.
  - destruct (exit_signal sig prev);
      [|injection Hstep as <-; by apply log_ok_keep].
    rewrite Hp in Hstep. cbn [mbind option_bind] in Hstep.
    destruct (Z.eqb_spec p 1) as [E|N];
      [subst p|injection Hstep as <-; by apply log_ok_keep].
    destruct (Hopen eq_refl) as (before & r0 & -> & Hnone & Hshares).
    rewrite Hsh, Hlog in Hstep. simpl in Hstep.
    rewrite close_last_snoc in Hstep. simpl in Hstep.
    injection Hstep as <-.
    eexists 0, f0, _. simpl. rewrite !dict_get_set_eq.
    split; [done|]. split; [done|]. split; [done|].
    split; [done|].
    split.
    + apply Forall_app in Hall as [Hbefore _].
      apply Forall_app. split; [done|].
      apply Forall_singleton. unfold closed_ok. simpl.
      exists price. by rewrite Hshares.
    + rewrite times_close by done. by apply sublist_snoc_take.
Qed.

(** The logs [run] returns are well formed, and dated on the calendar. *)
Lemma run_log_ok eq tr :
  run σ bt = Some (eq, tr) ->
  forall t, t ∈ keys items ->
    exists log,
      dict_get tr t = Some log /\
      Forall (closed_ok σ bt t) log /\
      times log `sublist_of` master_index bt.
Proof using Hitems Hnodup.
  intros Hrun t Ht.
  destruct (run_inv σ bt items Hitems Hnodup (log_ok σ bt)
              log_ok_frame log_ok_init log_ok_step eq tr Hrun)
    as (st & _ & -> & HQ).
  destruct (HQ t Ht) as (p & sh & log & _ & _ & Hlog & _ & Hall & Hsub).
  exists log. repeat split; try done.
  by rewrite firstn_all in Hsub.
Qed.
End LogInvariant.

(** ** Order of the events of a log *)

Lemma ascending_sorted (l : list date) :
  ascending l = true -> StronglySorted Z.lt l.
Proof.
  induction l as [|x l IH]; [constructor|].
  destruct l as [|y l]; [repeat constructor|].
  intros [Hxy Hl]%andb_true_iff. apply Z.ltb_lt in Hxy.
  specialize (IH Hl). constructor; [done|].
  constructor; [done|].
  apply StronglySorted_inv in IH as [_ Hy].
  eapply Forall_impl; [exact Hy|]. simpl. lia.
Qed.

Lemma sublist_sorted (l1 l2 : list date) :
  l1 `sublist_of` l2 -> StronglySorted Z.lt l2 -> StronglySorted Z.lt l1.
Proof.
  induction 1 as [|x l1 l2 Hsub IH|x l1 l2 Hsub IH]; intros Hs.
  - constructor.
  - apply StronglySorted_inv in Hs as [Hs Hx].
    constructor; [by apply IH|].
    rewrite Forall_forall in Hx |- *. intros y Hy.
    apply Hx. by eapply elem_of_sublist.
  - apply StronglySorted_inv in Hs as [Hs _]. by apply IH.
Qed.

Lemma entry_in_times (log : list Trade) r :
  r ∈ log -> entry_time r ∈ times log.
Proof.
  intros Hr. unfold times. apply list_elem_of_In, in_flat_map.
  exists r. split; [by apply list_elem_of_In|]. by left.
Qed.

Lemma exit_in_times (log : list Trade) r x :
  r ∈ log -> exit_time r = Some x -> x ∈ times log.
Proof.
  intros Hr Hx. unfold times. apply list_elem_of_In, in_flat_map.
  exists r. split; [by apply list_elem_of_In|]. rewrite Hx. right. by left.
Qed.

Lemma sorted_entry_before_exit (log : list Trade) :
  StronglySorted Z.lt (times log) ->
  forall r x, r ∈ log -> exit_time r = Some x -> entry_time r < x.
Proof.
  induction log as [|a log IH]; intros Hs r x Hr Hx.
  - by apply elem_of_nil in Hr.
  - change (a :: log) with ([a] ++ log) in Hs. rewrite times_app in Hs.
    apply elem_of_cons in Hr as [->|Hr].
    + unfold times in Hs. simpl in Hs. rewrite Hx in Hs. simpl in Hs.
      apply StronglySorted_inv in Hs as [_ Hall].
      by apply Forall_inv in Hall.
    + apply IH; try done.
      clear -Hs. induction (times [a]) as [|y l IHl]; [done|].
      apply StronglySorted_inv in Hs as [Hs _]. by apply IHl.
Qed.

Lemma sorted_nodup (l : list date) : StronglySorted Z.lt l -> NoDup l.
Proof.
  induction 1 as [|x l Hs IH Hall]; constructor; [|done].
  intros Hin. rewrite Forall_forall in Hall.
  specialize (Hall x Hin). lia.
Qed.

Lemma sorted_no_entry_and_exit (log : list Trade) :
  StronglySorted Z.lt (times log) ->
  forall dt, ~ (entry_on log dt /\ exit_on log dt).
Proof.
  induction log as [|a log IH]; intros Hs dt [(r1 & H1 & E1) (r2 & H2 & E2)].
  - by apply elem_of_nil in H1.
  - assert (Hrest : StronglySorted Z.lt (times log)).
    { change (a :: log) with ([a] ++ log) in Hs. rewrite times_app in Hs.
      clear -Hs. induction (times [a]) as [|y l IHl]; [done|].
      apply StronglySorted_inv in Hs as [Hs _]. by apply IHl. }
    unfold times in Hs. simpl in Hs. fold (times log) in Hs.
    apply StronglySorted_inv in Hs as [Hs Hall].
    rewrite Forall_forall in Hall.
    apply elem_of_cons in H1 as [->|H1], H2 as [->|H2].
    + rewrite E2 in Hall. specialize (Hall dt (list_elem_of_here _ _)). lia.
    + specialize (Hall dt). rewrite E1 in Hall.
      assert (dt < dt); [|lia]. apply Hall.
      apply elem_of_app. right. by eapply exit_in_times.
    + rewrite E2 in Hs. simpl in Hs.
      apply StronglySorted_inv in Hs as [_ Hall2].
      rewrite Forall_forall in Hall2.
      assert (dt < dt); [|lia]. apply Hall2.
      rewrite <- E1. by apply entry_in_times.
    + apply (IH Hrest dt). split; [by exists r1|by exists r2].
Qed.

(** ** The entry and exit rules *)

(** In the trade log [run] returns for an instrument, the dated events
    (entries and exits, in log order) are picked in order from the
    ascending calendar, so no date carries two events of the instrument,
    and every exit closes a record whose entry is strictly earlier. *)
Lemma run_log_ordered (σ : Store) (bt : PortfolioBacktest)
    (items : dict ref) (eq : Series) (tr : dict (list Trade)) (t : ticker) :
  dicts σ !! data bt = Some items ->
  NoDup (keys items) ->
  ascending (master_index bt) = true ->
  run σ bt = Some (eq, tr) ->
  t ∈ keys items ->
  exists log,
    dict_get tr t = Some log /\
    times log `sublist_of` master_index bt /\
    StronglySorted Z.lt (times log) /\
    (forall dt, ~ (entry_on log dt /\ exit_on log dt)) /\
    (forall r x, r ∈ log -> exit_time r = Some x -> entry_time r < x).
Proof.
  intros Hitems Hnd Hasc Hrun Ht.
  destruct (run_log_ok σ bt items Hitems Hnd eq tr Hrun t Ht)
    as (log & Hlog & _ & Hsub).
  assert (Hs : StronglySorted Z.lt (times log)).
  { eapply sublist_sorted; [exact Hsub|]. by apply ascending_sorted. }
  exists log. repeat split; try done.
  - by apply sorted_no_entry_and_exit.
  - by apply sorted_entry_before_exit.
Qed.







(** ** Reading the signals of an aligned object *)

Lemma feqb_fin_inv (x : float Qc) (c : Qc) : feqb x (Fin c) = true -> x = Fin c.
Proof.
  destruct x as [a| | |]; try done.
  intros E. apply feqb_fin in E. by subst.
Qed.

Lemma binary_cell (x : float Qc) :
  feqb x f0 || feqb x f1 = true -> x = f0 \/ x = f1.
Proof.
  intros [E|E]%orb_true_iff; apply feqb_fin_inv in E; eauto.
Qed.

Lemma at_elem_of (s : Series) dt v : at_ s dt = Some v -> (dt, v) ∈ s.
Proof.
  induction s as [|[l w] s IH]; simpl; [done|].
  destruct (Z.eqb_spec l dt) as [->|N].
  - intros [= ->]. apply list_elem_of_here.
  - intros H. apply list_elem_of_further. by apply IH.
Qed.

Lemma binary_at (s : Series) dt v :
  binary s = true -> at_ s dt = Some v -> v = f0 \/ v = f1.
Proof.
  intros Hb Hat. apply at_elem_of in Hat.
  unfold binary in Hb. rewrite forallb_forall in Hb.
  apply binary_cell. apply (Hb (dt, v)). by apply list_elem_of_In.
Qed.

Lemma at_shift (s : Series) :
  forall pv j dp dt,
    NoDup (index s) ->
    index s !! j = Some dp ->
    index s !! S j = Some dt ->
    at_ (shift_from pv s) dt = at_ s dp.
Proof.
  induction s as [|[l v] s IH]; intros pv j dp dt Hnd Hj HSj; [done|].
  unfold index in *. simpl in *.
  apply NoDup_cons in Hnd as [Hl Hnd].
  assert (Hdt : l <> dt).
  { intros ->. apply Hl. by eapply list_elem_of_lookup_2. }
  destruct (Z.eqb_spec l dt) as [?|_]; [done|].
  destruct j as [|j]; simpl in *.
  - injection Hj as ->. rewrite Z.eqb_refl.
    destruct s as [|[l' v'] s]; simpl in *; [done|].
    injection HSj as ->. by rewrite Z.eqb_refl.
  - assert (Hdp : l <> dp).
    { intros ->. apply Hl. by eapply list_elem_of_lookup_2. }
    destruct (Z.eqb_spec l dp) as [?|_]; [done|].
    by eapply IH.
Qed.

Lemma aligned_inv σ bt items :
  aligned σ bt = true ->
  dicts σ !! data bt = Some items ->
  ascending (master_index bt) = true /\
  NoDup (keys items) /\
  forall t r, (t, r) ∈ items ->
    exists df s,
      frames σ !! r = Some df /\ deref σ (signals bt) t = Some s /\
      index df = master_index bt /\ index s = master_index bt.
Proof.
  unfold aligned. intros H Hitems. rewrite Hitems in H.
  apply andb_true_iff in H as [Hasc H].
  apply andb_true_iff in H as [Hnd Hall].
  apply bool_decide_eq_true in Hnd.
  split; [done|]. split; [done|].
  intros t r Hin. rewrite forallb_forall in Hall.
  specialize (Hall (t, r)). simpl in Hall.
  destruct (frames σ !! r) as [df|]; [|by discriminate Hall;
                                         apply list_elem_of_In].
  destruct (deref σ (signals bt) t) as [s|]; [|by discriminate Hall;
                                                 apply list_elem_of_In].
  specialize (Hall ltac:(by apply list_elem_of_In)).
  apply andb_true_iff in Hall as [H1 H2].
  apply bool_decide_eq_true in H1, H2. by exists df, s.
Qed.

Lemma binary_signals_inv σ bt items t r :
  binary_signals σ bt = true ->
  dicts σ !! data bt = Some items ->
  (t, r) ∈ items ->
  exists s, deref σ (signals bt) t = Some s /\ binary s = true.
Proof.
  unfold binary_signals. intros H Hitems Hin. rewrite Hitems in H.
  rewrite forallb_forall in H.
  specialize (H (t, r) ltac:(by apply list_elem_of_In)). simpl in H.
  destruct (deref σ (signals bt) t) as [s|]; [|done]. by exists s.
Qed.

Lemma read_inputs_signals σ bt items k dt t r price sig prev :
  aligned σ bt = true ->
  binary_signals σ bt = true ->
  dicts σ !! data bt = Some items ->
  master_index bt !! k = Some dt ->
  (t, r) ∈ items ->
  read_inputs σ bt dt t r = Some (price, sig, prev) ->
  sig_at σ bt t dt = Some sig /\
  prev = prev_signal σ bt t k /\
  (sig = f0 \/ sig = f1) /\ (prev = f0 \/ prev = f1).
Proof.
  intros Hal Hbin Hitems Hk Hin Hread.
  destruct (aligned_inv σ bt items Hal Hitems) as (Hasc & Hnd & Hfr).
  destruct (Hfr t r Hin) as (df & s & Hdf & Hs & _ & Hidx).
  destruct (binary_signals_inv σ bt items t r Hbin Hitems Hin)
    as (s' & Hs' & Hb).
  rewrite Hs in Hs'. injection Hs' as <-.
  assert (Hmnd : NoDup (master_index bt))
    by (by apply sorted_nodup, ascending_sorted).
  unfold read_inputs in Hread. rewrite Hdf, Hs in Hread.
  cbn [mbind option_bind] in Hread.
  destruct (at_ df dt) as [p|]; [|done].
  cbn [mbind option_bind] in Hread.
  destruct (at_ s dt) as [sg|] eqn:Hsig; [|done].
  cbn [mbind option_bind] in Hread.
  assert (Hsig_at : sig_at σ bt t dt = Some sg)
    by (unfold sig_at; by rewrite Hs).
  destruct (master_index bt) as [|first rest] eqn:Hm; [done|].
  destruct k as [|j].
  - injection Hk as ->. rewrite Z.eqb_refl in Hread. simpl in Hread.
    injection Hread as <- <- <-.
    repeat split; eauto using binary_at.
  - assert (Hne : first <> dt).
    { intros ->. by pose proof (NoDup_lookup _ 0%nat (S j) dt Hmnd
                                  eq_refl Hk). }
    apply Z.eqb_neq in Hne. rewrite Z.eqb_sym in Hne.
    rewrite Hne in Hread. simpl in Hread.
    destruct (at_ (shift1 s) dt) as [pv|] eqn:Hprev; [|done].
    simpl in Hread. injection Hread as <- <- <-.
    destruct (lookup_lt_is_Some_2 (first :: rest) j) as [dp Hdp].
    { apply lookup_lt_Some in Hk. lia. }
    assert (Hat : at_ s dp = Some pv).
    { rewrite <- Hprev. symmetry. unfold shift1.
      apply (at_shift s NaN j); by rewrite Hidx. }
    repeat split; eauto using binary_at.
    unfold prev_signal. rewrite Hm, Hdp. simpl. unfold sig_at.
    rewrite Hs. simpl. by rewrite Hat.
Qed.

(** The three ways through [trade_step]. *)
Lemma trade_step_cases bt dt t price sig prev st st' :
  trade_step bt dt t price sig prev st = Some st' ->
  (entry_cond sig prev = true /\
   exists w log,
     dict_get (weights bt) t = Some w /\
     dict_get (trades st) t = Some log /\
     let sh := fdiv (fmul (portfolio_cash st) w) price in
     st' = mkState
             (fsub (portfolio_cash st)
                   (fadd (fmul (fmul sh price) (fadd f1 (slippage bt)))
                         (commission bt)))
             (dict_set (trades st) t
                (log ++ [mkTrade dt (fmul price (fadd f1 (slippage bt))) sh
                                 None None None]))
             (dict_set (positions st) t 1)
             (dict_set (shares st) t sh)) \/
  (entry_cond sig prev = false /\ exit_signal sig prev = true /\
   dict_get (positions st) t = Some 1 /\
   exists sh log log',
     dict_get (shares st) t = Some sh /\
     dict_get (trades st) t = Some log /\
     let px := fmul price (fsub f1 (slippage bt)) in
     let pr := fsub (fmul sh px) (commission bt) in
     close_last log dt px pr = Some log' /\
     st' = mkState (fadd (portfolio_cash st) pr)
                   (dict_set (trades st) t log')
                   (dict_set (positions st) t 0)
                   (dict_set (shares st) t f0)) \/
  (entry_cond sig prev = false /\
   (exit_signal sig prev = false \/
    exists p, dict_get (positions st) t = Some p /\ p <> 1) /\
   st' = st).
Proof.
  unfold trade_step. intros H.
  destruct (entry_cond sig prev).
  - left. split; [done|].
    destruct (dict_get (weights bt) t) as [w|]; [|done].
    cbn [mbind option_bind] in H.
    destruct (dict_get (trades st) t) as [log|]; [|done].
    cbn [mbind option_bind] in H. injection H as <-. by exists w, log.
  - right. destruct (exit_signal sig prev).
    2:{ right. injection H as <-. eauto. }
    destruct (dict_get (positions st) t) as [p|]; [|done].
    cbn [mbind option_bind] in H.
    destruct (Z.eqb_spec p 1) as [E|N]; [subst p|].
    2:{ right. injection H as <-. split; [done|]. split; [|done].
        right. by exists p. }
    left. split; [done|]. split; [done|]. split; [done|].
    destruct (dict_get (shares st) t) as [sh|]; [|done].
    cbn [mbind option_bind] in H.
    destruct (dict_get (trades st) t) as [log|]; [|done].
    cbn [mbind option_bind] in H.
    destruct (close_last _ _ _ _) as [log'|] eqn:C; [|done].
    cbn [mbind option_bind] in H. injection H as <-.
    by exists sh, log, log'.
Qed.

Lemma close_last_length log dt px pr log' :
  close_last log dt px pr = Some log' -> length log' = length log.
Proof.
  unfold close_last. destruct (rev log) as [|r before] eqn:E; [done|].
  intros [= <-]. rewrite length_app, length_rev. simpl.
  rewrite <- (length_rev log), E. simpl. lia.
Qed.

Section PositionInvariant.
Variables (σ : Store) (bt : PortfolioBacktest) (items : dict ref).
Hypothesis Hitems : dicts σ !! data bt = Some items.
Hypothesis Haligned : aligned σ bt = true.
Hypothesis Hbinary : binary_signals σ bt = true.

Lemma position_tracks_frame t k st st' :
  untouched t st st' ->
  position_tracks σ bt t k st -> position_tracks σ bt t k st'.
Proof. intros (_ & Hp & _). unfold position_tracks. by rewrite Hp. Qed.

Lemma position_tracks_init t :
  t ∈ keys items ->
  position_tracks σ bt t 0 (initial_state bt (keys items)).
Proof.
  intros Ht. unfold position_tracks. simpl.
  by rewrite dict_get_map_const.
Qed.

Lemma position_tracks_step t r k dt st st' price sig prev :
  master_index bt !! k = Some dt ->
  (t, r) ∈ items ->
  read_inputs σ bt dt t r = Some (price, sig, prev) ->
  trade_step bt dt t price sig prev st = Some st' ->
  position_tracks σ bt t k st -> position_tracks σ bt t (S k) st'.
Proof using Hitems Haligned Hbinary.
  intros Hk Hin Hread Hstep Hpos.
  destruct (read_inputs_signals σ bt items k dt t r price sig prev
              Haligned Hbinary Hitems Hk Hin Hread)
    as (Hsig & Hprev & Hsb & Hpb).
  unfold position_tracks in *. rewrite <- Hprev in Hpos.
  assert (Hnext : prev_signal σ bt t (S k) = sig).
  { unfold prev_signal. rewrite Hk. simpl. by rewrite Hsig. }
  rewrite Hnext.
  apply trade_step_cases in Hstep
    as [(Hc & w & log & _ & _ & ->)
       |[(Hc & Hx & _ & sh & log & log' & _ & _ & _ & ->)
        |(Hc & Hx & ->)]];
    cbn [positions]; rewrite ?dict_get_set_eq;
    destruct Hsb as [->| ->], Hpb as [->| ->];
    try done; try (by vm_compute in Hc); try (by vm_compute in Hx).
  destruct Hx as [Hx|(p & Hp & Np)]; [by vm_compute in Hx|].
  rewrite Hp in Hpos. injection Hpos as ->. done.
Qed.
End PositionInvariant.

(** C2 (amended): when the inner loop reaches an instrument on a calendar
    date (in a run over an aligned object with 0/1 signals), it has read
    today's signal and yesterday's (0 on the first date); a new trade
    record is opened exactly when today's signal is 1, yesterday's is 0
    and no position is open for the instrument; and then the allocation is
    [weights[t] * cash] at that moment, the share quantity is the
    allocation divided by the price itself (not by the slipped price),
    [shares * price * (1 + slippage) + commission] is taken from the cash,
    and the record holds the date, the slipped price and the shares. *)
Theorem entry_rule (σ : Store) (bt : PortfolioBacktest) (items : dict ref)
    (k : nat) (dt : date) (ts ts' : dict ref) (t : ticker) (r : ref)
    (st st' : State) (pv price sig prev : float Qc) :
  aligned σ bt = true ->
  binary_signals σ bt = true ->
  dicts σ !! data bt = Some items ->
  master_index bt !! k = Some dt ->
  items = ts ++ (t, r) :: ts' ->
  state_before σ bt (take k (master_index bt)) dt ts = Some (st, pv) ->
  read_inputs σ bt dt t r = Some (price, sig, prev) ->
  trade_step bt dt t price sig prev st = Some st' ->
  sig_at σ bt t dt = Some sig /\
  price_at σ bt t dt = Some price /\
  prev = prev_signal σ bt t k /\
  (entered st st' t <->
   sig = f1 /\ prev = f0 /\ dict_get (positions st) t = Some 0) /\
  (entered st st' t ->
   exists w log,
     dict_get (weights bt) t = Some w /\
     dict_get (trades st) t = Some log /\
     let cash_alloc := fmul (portfolio_cash st) w in
     let sh := fdiv cash_alloc price in
     st' = mkState
             (fsub (portfolio_cash st)
                   (fadd (fmul (fmul sh price) (fadd f1 (slippage bt)))
                         (commission bt)))
             (dict_set (trades st) t
                (log ++ [mkTrade dt (fmul price (fadd f1 (slippage bt))) sh
                                 None None None]))
             (dict_set (positions st) t 1)
             (dict_set (shares st) t sh)).
Proof.
  intros Hal Hbin Hitems Hk Hsplit Hbefore Hread Hstep.
  destruct (aligned_inv σ bt items Hal Hitems) as (Hasc & Hnd & _).
  assert (Hin : (t, r) ∈ items).
  { rewrite Hsplit. apply elem_of_app. right. apply list_elem_of_here. }
  assert (Ht : t ∈ keys items).
  { unfold keys. apply list_elem_of_fmap. by exists (t, r). }
  destruct (read_inputs_signals σ bt items k dt t r price sig prev
              Hal Hbin Hitems Hk Hin Hread)
    as (Hsig & Hprev & Hsb & Hpb).
  pose proof (read_inputs_price _ _ _ _ _ _ _ _ _ Hitems Hnd Hin Hread)
    as Hprice.
  assert (Hpos : dict_get (positions st) t
                 = Some (if feqb prev f1 then 1 else 0)).
  { pose proof (state_before_inv σ bt items Hitems Hnd
                  (position_tracks σ bt)
                  (position_tracks_frame σ bt)
                  (position_tracks_init σ bt items)
                  (position_tracks_step σ bt items Hitems Hal Hbin)
                  (take k (master_index bt)) dt
                  (drop (S k) (master_index bt)) ts ((t, r) :: ts') st pv
                  (eq_sym (take_drop_middle _ _ _ Hk)) Hsplit Hbefore t Ht)
      as HQ.
    rewrite bool_decide_eq_false_2 in HQ.
    - rewrite length_take_le in HQ
        by (apply lookup_lt_Some in Hk; lia).
      unfold position_tracks in HQ. by rewrite Hprev.
    - rewrite Hsplit in Hnd. unfold keys in Hnd. rewrite map_app in Hnd.
      apply NoDup_app in Hnd as (_ & Hd & _).
      intros Hts. apply (Hd t Hts). simpl. apply list_elem_of_here. }
  split; [done|]. split; [done|]. split; [done|].
  assert (Hgrow : forall log (x : Trade), log <> log ++ [x]).
  { intros log x E. apply (f_equal length) in E.
    rewrite length_app in E. simpl in E. lia. }
  apply trade_step_cases in Hstep
    as [(Hc & w & log & Hw & Hlog & ->)
       |[(Hc & Hx & Hp1 & sh & log & log' & Hsh & Hlog & Hcl & ->)
        |(Hc & Hx & ->)]].
  - apply andb_true_iff in Hc as [H1 H0].
    apply feqb_fin_inv in H1, H0. subst sig. rewrite H0 in *.
    split.
    + split; [intros _; by repeat split|]. intros _.
      exists log. eexists. split; [done|]. cbn [trades].
      by rewrite dict_get_set_eq.
    + intros _. by exists w, log.
  - assert (Hno : ~ entered st
                     (mkState
                        (fadd (portfolio_cash st)
                           (fsub (fmul sh (fmul price
                                             (fsub f1 (slippage bt))))
                                 (commission bt)))
                        (dict_set (trades st) t log')
                        (dict_set (positions st) t 0)
                        (dict_set (shares st) t f0)) t).
    { intros (log0 & x & H0 & H1). cbn [trades] in H1.
      rewrite dict_get_set_eq in H1. rewrite Hlog in H0.
      injection H0 as <-. injection H1 as ->.
      apply close_last_length in Hcl.
      rewrite length_app in Hcl. simpl in Hcl. lia. }
    split; [|done]. split; [done|].
    intros (-> & -> & _). by vm_compute in Hc.
  - assert (Hno : ~ entered st st t).
    { intros (log0 & x & H0 & H1). rewrite H0 in H1.
      injection H1 as E. by apply Hgrow in E. }
    split; [|done]. split; [done|].
    intros (-> & -> & _). by vm_compute in Hc.
Qed.

(** Witness of [entry_rule]: the entry on date 1 of the five-date
    scenario. *)
Lemma entry_rule_witness :
  exists σ bt st st' pv,
    init Examples.scenario_store 0%nat 1%nat (Some [("A"%string, qz 1)])
         (qz 1000) (qz 0) (qz 0) = Some (σ, bt) /\
    state_before σ bt [0] 1 [] = Some (st, pv) /\
    trade_step bt 1 "A" (qz 105) f1 f0 st = Some st' /\
    sig_at σ bt "A" 1 = Some f1 /\
    price_at σ bt "A" 1 = Some (qz 105) /\
    f0 = prev_signal σ bt "A" 1 /\
    (entered st st' "A" <->
     (f1 : float Qc) = f1 /\ (f0 : float Qc) = f0 /\
     dict_get (positions st) "A" = Some 0) /\
    (entered st st' "A" ->
     exists w log,
       dict_get (weights bt) "A" = Some w /\
       dict_get (trades st) "A" = Some log /\
       st' = mkState
               (fsub (portfolio_cash st)
                     (fadd (fmul (fmul (fdiv (fmul (portfolio_cash st) w)
                                             (qz 105))
                                       (qz 105))
                                 (fadd f1 (slippage bt)))
                           (commission bt)))
               (dict_set (trades st) "A"
                  (log ++ [mkTrade 1 (fmul (qz 105) (fadd f1 (slippage bt)))
                                   (fdiv (fmul (portfolio_cash st) w)
                                         (qz 105))
                                   None None None]))
               (dict_set (positions st) "A" 1)
               (dict_set (shares st) "A"
                  (fdiv (fmul (portfolio_cash st) w) (qz 105)))).
Proof.
  destruct (init Examples.scenario_store 0%nat 1%nat
              (Some [("A"%string, qz 1)]) (qz 1000) (qz 0) (qz 0))
    as [[σ bt]|] eqn:Hinit; [|by vm_compute in Hinit].
  assert (Hσ : exists σ0 bt0,
             Some (σ, bt) = Some (σ0, bt0) /\
             aligned σ0 bt0 = true /\ binary_signals σ0 bt0 = true /\
             dicts σ0 !! data bt0 = Some [("A"%string, 2%nat)] /\
             master_index bt0 !! 1%nat = Some 1 /\
             take 1 (master_index bt0) = [0] /\
             read_inputs σ0 bt0 1 "A" 2%nat = Some (qz 105, f1, f0) /\
             is_Some (state_before σ0 bt0 [0] 1 [])).
  { rewrite <- Hinit. vm_compute. eexists _, _.
    repeat split; try reflexivity. eexists. reflexivity. }
  destruct Hσ as (σ0 & bt0 & [= <- <-] & Hal & Hbin & Hitems & Hk & Htake
                  & Hread & [[st pv] Hbefore]).
  destruct (trade_step bt 1 "A" (qz 105) f1 f0 st) as [st'|] eqn:Hstep.
  2:{ exfalso. vm_compute in Hinit. injection Hinit as <- <-.
      vm_compute in Hbefore. injection Hbefore as <- <-.
      by vm_compute in Hstep. }
  exists σ, bt, st, st', pv.
  split; [done|]. split; [done|]. split; [done|].
  rewrite <- Htake in Hbefore.
  pose proof (entry_rule σ bt [("A"%string, 2%nat)] 1 1 [] [] "A" 2 st st'
                pv (qz 105) f1 f0 Hal Hbin Hitems Hk eq_refl Hbefore Hread
                Hstep) as H.
  cbv zeta in H. exact H.
Defined.

(** C2 as stated fails: with a slippage of one tenth the entry of the
    five-date scenario buys 1000/105 shares, the allocation divided by
    the price, and not 1000/(105 * 1.1). *)
Lemma entry_shares_at_plain_price :
  exists eq r,
    Examples.slippage_run = Some (eq, [("A"%string, [r])]) /\
    entry_time r = 1 /\
    entry_price r = fmul (qz 105) (fadd f1 (qfrac 1 10)) /\
    trade_shares r = fdiv (fmul (qz 1000) (qz 1)) (qz 105) /\
    trade_shares r
    <> fdiv (fmul (qz 1000) (qz 1)) (fmul (qz 105) (fadd f1 (qfrac 1 10))).
Proof.
  destruct Examples.slippage_run as [[eq tr]|] eqn:Hrun;
    [|by vm_compute in Hrun].
  vm_compute in Hrun. injection Hrun as <- <-.
  eexists _, _. split; [reflexivity|].
  cbn [entry_time entry_price trade_shares].
  split; [reflexivity|]. split; [qc_equal|]. split; [qc_equal|].
  intros E.
  assert (F : feqb
                (fdiv (fmul (qz 1000) (qz 1))
                   (fmul (qz 105) (fadd f1 (qfrac 1 10))))
                (fdiv (fmul (qz 1000) (qz 1))
                   (fmul (qz 105) (fadd f1 (qfrac 1 10)))) = true)
    by (by vm_compute).
  rewrite <- E in F at 1. by vm_compute in F.
Qed.

(** Before the [k]-th date of an ascending calendar come only earlier
    dates. *)
Lemma sorted_before (l : list date) :
  StronglySorted Z.lt l ->
  forall k dt x, l !! k = Some dt -> x ∈ take k l -> x < dt.
Proof.
  induction 1 as [|a l Hs IH Hall]; intros k dt x Hk Hx; [done|].
  destruct k as [|k]; [by apply elem_of_nil in Hx|].
  cbn [take] in Hx. cbn [lookup list_lookup] in Hk.
  apply elem_of_cons in Hx as [->|Hx].
  - rewrite Forall_forall in Hall. apply Hall.
    by apply list_elem_of_lookup_2 in Hk.
  - by apply (IH k).
Qed.

(** C4: when the inner loop reaches an instrument on a calendar date (in
    a run over an aligned object with 0/1 signals), the round does one
    of three things and never two of them: nothing, an entry, or an
    exit.  An entry happens only while the position is flat.  An exit
    happens only while the position is open: it closes the last record
    of the log, which was still open and was entered on a strictly
    earlier date of the calendar. *)
Theorem one_event_per_date (σ : Store) (bt : PortfolioBacktest)
    (items : dict ref) (k : nat) (dt : date) (ts ts' : dict ref)
    (t : ticker) (r : ref) (st st' : State)
    (pv price sig prev : float Qc) :
  aligned σ bt = true ->
  binary_signals σ bt = true ->
  dicts σ !! data bt = Some items ->
  master_index bt !! k = Some dt ->
  items = ts ++ (t, r) :: ts' ->
  state_before σ bt (take k (master_index bt)) dt ts = Some (st, pv) ->
  read_inputs σ bt dt t r = Some (price, sig, prev) ->
  trade_step bt dt t price sig prev st = Some st' ->
  exists log,
    dict_get (trades st) t = Some log /\
    (st' = st \/ entry_event t dt st st' log
     \/ exit_event bt k t dt st st' log) /\
    ~ (entry_event t dt st st' log /\ exit_event bt k t dt st st' log) /\
    (entry_event t dt st st' log -> st' <> st) /\
    (exit_event bt k t dt st st' log -> st' <> st).
Proof.
  intros Hal Hbin Hitems Hk Hsplit Hbefore Hread Hstep.
  destruct (aligned_inv σ bt items Hal Hitems) as (Hasc & Hnd & _).
  assert (Hin : (t, r) ∈ items).
  { rewrite Hsplit. apply elem_of_app. right. apply list_elem_of_here. }
  assert (Ht : t ∈ keys items).
  { unfold keys. apply list_elem_of_fmap. by exists (t, r). }
  assert (Hnot : t ∉ keys ts).
  { rewrite Hsplit in Hnd. unfold keys in Hnd. rewrite map_app in Hnd.
    apply NoDup_app in Hnd as (_ & Hd & _).
    intros Hts. apply (Hd t Hts). simpl. apply list_elem_of_here. }
  assert (Hlen : length (take k (master_index bt)) = k).
  { rewrite length_take_le; [done|]. apply lookup_lt_Some in Hk. lia. }
  destruct (read_inputs_signals σ bt items k dt t r price sig prev
              Hal Hbin Hitems Hk Hin Hread)
    as (Hsig & Hprev & Hsb & Hpb).
  assert (Hpos : dict_get (positions st) t
                 = Some (if feqb prev f1 then 1 else 0)).
  { pose proof (state_before_inv σ bt items Hitems Hnd
                  (position_tracks σ bt)
                  (position_tracks_frame σ bt)
                  (position_tracks_init σ bt items)
                  (position_tracks_step σ bt items Hitems Hal Hbin)
                  (take k (master_index bt)) dt
                  (drop (S k) (master_index bt)) ts ((t, r) :: ts') st pv
                  (eq_sym (take_drop_middle _ _ _ Hk)) Hsplit Hbefore t Ht)
      as HQ.
    rewrite bool_decide_eq_false_2, Hlen in HQ by done.
    unfold position_tracks in HQ. by rewrite Hprev. }
  assert (Hok : log_ok σ bt t k st).
  { pose proof (state_before_inv σ bt items Hitems Hnd
                  (log_ok σ bt)
                  (log_ok_frame σ bt)
                  (log_ok_init σ bt items)
                  (log_ok_step σ bt items Hitems Hnd)
                  (take k (master_index bt)) dt
                  (drop (S k) (master_index bt)) ts ((t, r) :: ts') st pv
                  (eq_sym (take_drop_middle _ _ _ Hk)) Hsplit Hbefore t Ht)
      as HQ.
    by rewrite bool_decide_eq_false_2, Hlen in HQ by done. }
  destruct Hok as (p & sh0 & log & Hp & Hsh0 & Hlog & Hopen & _ & Hsub).
  exists log. split; [done|].
  assert (Hexcl : ~ (entry_event t dt st st' log
                     /\ exit_event bt k t dt st st' log)).
  { intros [[H0 _] [H1 _]]. rewrite H0 in H1. done. }
  assert (Hgrow : forall (l : list Trade) x, l ++ [x] <> l).
  { intros l x E. apply (f_equal length) in E.
    rewrite length_app in E. simpl in E. lia. }
  assert (Hentry : entry_event t dt st st' log -> st' <> st).
  { intros He E. subst st'. destruct He as (_ & x & Hx & _).
    rewrite Hlog in Hx. injection Hx as E. symmetry in E.
    by apply Hgrow in E. }
  assert (Hexit : exit_event bt k t dt st st' log -> st' <> st).
  { intros He E. subst st'.
    destruct He as (H1 & b & x & px & pr & _ & _ & _ & _ & _ & H0).
    rewrite H1 in H0. done. }
  split; [|done].
  apply trade_step_cases in Hstep
    as [(Hc & w & log0 & Hw & Hlog0 & ->)
       |[(Hc & Hx & Hp1 & sh & log0 & log' & Hsh & Hlog0 & Hcl & ->)
        |(Hc & Hx & ->)]].
  - right. left.
    apply andb_true_iff in Hc as [H1 H0].
    apply feqb_fin_inv in H0. rewrite H0 in Hpos.
    rewrite Hlog in Hlog0. injection Hlog0 as <-.
    split; [exact Hpos|].
    eexists. cbn [trades positions].
    rewrite !dict_get_set_eq. repeat split; reflexivity.
  - right. right.
    rewrite Hlog in Hlog0. injection Hlog0 as <-.
    rewrite Hp in Hp1. injection Hp1 as ->.
    destruct (Hopen eq_refl) as (before & x & -> & Hxopen & _).
    rewrite close_last_snoc in Hcl. injection Hcl as <-.
    split; [exact Hp|].
    exists before, x. eexists _, _.
    assert (Hx_in : entry_time x ∈ take k (master_index bt)).
    { eapply elem_of_sublist; [|exact Hsub].
      apply (entry_in_times _ x).
      apply elem_of_app. right. apply list_elem_of_here. }
    split; [done|]. split; [done|]. split.
    { apply (sorted_before (master_index bt)
               (ascending_sorted _ Hasc) k dt); done. }
    split; [done|]. cbn [trades positions].
    rewrite !dict_get_set_eq. split; reflexivity.
  - by left.
Qed.

(** Witness of [one_event_per_date]: the exit on date 3 of the five-date
    scenario. *)
Lemma one_event_per_date_witness :
  exists σ bt st st' pv,
    init Examples.scenario_store 0%nat 1%nat (Some [("A"%string, qz 1)])
         (qz 1000) (qz 0) (qz 0) = Some (σ, bt) /\
    state_before σ bt [0; 1; 2] 3 [] = Some (st, pv) /\
    trade_step bt 3 "A" (qz 110) f0 f1 st = Some st' /\
    exists log,
      dict_get (trades st) "A" = Some log /\
      (st' = st \/ entry_event "A" 3 st st' log
       \/ exit_event bt 3 "A" 3 st st' log) /\
      ~ (entry_event "A" 3 st st' log /\ exit_event bt 3 "A" 3 st st' log) /\
      (entry_event "A" 3 st st' log -> st' <> st) /\
      (exit_event bt 3 "A" 3 st st' log -> st' <> st).
Proof.
  destruct (init Examples.scenario_store 0%nat 1%nat
              (Some [("A"%string, qz 1)]) (qz 1000) (qz 0) (qz 0))
    as [[σ bt]|] eqn:Hinit; [|by vm_compute in Hinit].
  assert (Hσ : exists σ0 bt0,
             Some (σ, bt) = Some (σ0, bt0) /\
             aligned σ0 bt0 = true /\ binary_signals σ0 bt0 = true /\
             dicts σ0 !! data bt0 = Some [("A"%string, 2%nat)] /\
             master_index bt0 !! 3%nat = Some 3 /\
             take 3 (master_index bt0) = [0; 1; 2] /\
             read_inputs σ0 bt0 3 "A" 2%nat = Some (qz 110, f0, f1) /\
             is_Some (state_before σ0 bt0 [0; 1; 2] 3 [])).
  { rewrite <- Hinit. vm_compute. eexists _, _.
    repeat split; try reflexivity. eexists. reflexivity. }
  destruct Hσ as (σ0 & bt0 & [= <- <-] & Hal & Hbin & Hitems & Hk & Htake
                  & Hread & [[st pv] Hbefore]).
  destruct (trade_step bt 3 "A" (qz 110) f0 f1 st) as [st'|] eqn:Hstep.
  2:{ exfalso. vm_compute in Hinit. injection Hinit as <- <-.
      vm_compute in Hbefore. injection Hbefore as <- <-.
      by vm_compute in Hstep. }
  exists σ, bt, st, st', pv.
  split; [done|]. split; [done|]. split; [done|].
  rewrite <- Htake in Hbefore.
  exact (one_event_per_date σ bt [("A"%string, 2%nat)] 3 3 [] [] "A" 2
           st st' pv (qz 110) f0 f1 Hal Hbin Hitems Hk eq_refl Hbefore
           Hread Hstep).
Defined.

(** ** Metrics *)

Section MetricsFacts.
Import Metrics.
Open Scope R_scope.

Lemma fdiv_fin_R (x y : R) : y <> 0 -> fdiv (Fin x) (Fin y) = Fin (x / y).
Proof.
  intros N. unfold fdiv. simpl.
  destruct (Rcompare_spec y 0); [done|done|done].
Qed.

Lemma fdiv_zero_zero : fdiv (Fin 0) (Fin 0) = (NaN : float R).
Proof.
  unfold fdiv, inf_signed. simpl.
  destruct (Rcompare_spec 0 0); try lra. done.
Qed.

Lemma changes_daily_return (l : list (float R)) :
  forall prev,
    changes prev l
    = map (fun i => daily_return (prev :: l) (S i)) (seq 0 (length l)).
Proof.
  induction l as [|x l IH]; intros prev; [done|].
  cbn [changes length seq map]. f_equal.
  rewrite IH, <- seq_shift, map_map. done.
Qed.

Lemma pct_change_daily_return (l : list (float R)) :
  pct_change l = map (daily_return l) (seq 0 (length l)).
Proof.
  destruct l as [|x l]; [done|].
  cbn [pct_change length seq map]. f_equal.
  by rewrite changes_daily_return, <- seq_shift, map_map.
Qed.

Lemma dropna_fin (xs : list R) : dropna (map Fin xs) = map Fin xs.
Proof.
  unfold dropna. induction xs as [|x xs IH]; [done|].
  cbn [map]. rewrite filter_cons_True by done. by rewrite IH.
Qed.

Lemma fold_fadd_fin (xs : list R) :
  forall a, fold_left fadd (map Fin xs) (Fin a) = Fin (fold_left Rplus xs a).
Proof. induction xs as [|x xs IH]; intros a; [done|]. apply IH. Qed.

Lemma raw_sum_fin (xs : list R) : raw_sum (map Fin xs) = Fin (rsum xs).
Proof. apply fold_fadd_fin. Qed.

Lemma fsum_fin (xs : list R) : fsum (map Fin xs) = Fin (rsum xs).
Proof. unfold fsum. rewrite dropna_fin. apply raw_sum_fin. Qed.

Lemma fold_Rplus_nonneg (xs : list R) :
  Forall (fun x => 0 <= x) xs ->
  forall a, 0 <= a -> 0 <= fold_left Rplus xs a.
Proof.
  induction 1 as [|x xs Hx _ IH]; intros a Ha; [done|].
  simpl. apply IH. lra.
Qed.

(** The standard deviation of at least two finite cells. *)
Lemma std_fin (xs : list R) :
  (2 <= length xs)%nat -> std (map Fin xs) = Fin (sqrt (rvar xs)).
Proof.
  intros Hn. unfold std. rewrite dropna_fin, length_map.
  destruct (Nat.leb_spec (length xs) 1) as [?|_]; [lia|].
  assert (Hn0 : INR (length xs) <> 0) by (apply not_0_INR; lia).
  assert (Hn1 : INR (length xs) + - 1 <> 0).
  { assert (2 <= INR (length xs)); [|lra].
    change 2 with (INR 2). by apply le_INR. }
  unfold mean. rewrite dropna_fin, fsum_fin, length_map.
  unfold rnat. rewrite (fdiv_fin_R _ _ Hn0).
  rewrite map_map. cbn [fsub fneg fadd fmul].
  rewrite <- (map_map (fun x => (x + - (rsum xs / INR (length xs)))
                                * (x + - (rsum xs / INR (length xs))))
                      Fin).
  rewrite raw_sum_fin. unfold f1. cbn [c1 R_carrier cadd copp].
  rewrite (fdiv_fin_R _ _ Hn1).
  unfold fsqrt. fold (rmean xs).
  change (rsum _ / _) with (rvar xs).
  destruct (Rlt_dec (rvar xs) 0) as [Hneg|_]; [|done].
  exfalso. unfold rvar in Hneg.
  assert (0 <= rsum (map (fun x => (x - rmean xs) * (x - rmean xs)) xs)).
  { apply fold_Rplus_nonneg; [|lra].
    apply Forall_forall. intros y [x [-> _]]%list_elem_of_fmap.
    cbv beta. apply Rle_0_sqr. }
  assert (0 < INR (length xs) - 1).
  { assert (2 <= INR (length xs)); [|lra].
    change 2 with (INR 2). by apply le_INR. }
  assert (0 <= rsum (map (fun x => (x - rmean xs) * (x - rmean xs)) xs)
               / (INR (length xs) - 1)); [|lra].
  apply Rmult_le_pos; [done|]. left. by apply Rinv_0_lt_compat.
Qed.

(** The structure of [ann_vol]: one cell per observation goes into the
    deviation, the first of them filled with 0. *)
Lemma ann_vol_cells (c : Curve) :
  ann_vol c = fmul (std (zero_filled_returns (cells c))) (Fin (sqrt 252)).
Proof.
  unfold ann_vol, returns, zero_filled_returns, sqrt252.
  by rewrite pct_change_daily_return, map_map.
Qed.







(** *** Degenerate statistics *)

Lemma fgtb_nonpos (x : R) : x <= 0 -> fgtb (Fin x) f0 = false.
Proof.
  intros Hx. unfold fgtb, fltb, f0. simpl.
  destruct (Rcompare_spec 0 x); try done. lra.
Qed.

Lemma years_of_one_day (d : Z) : IZR (d - d) / 365.25 = 0.
Proof. rewrite Z.sub_diag. unfold Rdiv. apply Rmult_0_l. Qed.

(** C8 (the code departs from it): on a curve of a single observation
    the maximum drawdown is zero, the condition under which the Calmar
    ratio is to be the not-a-number sentinel; but [cagr] divides 1 by
    the zero years the curve spans before the guard on the drawdown is
    reached, and [calmar_ratio] raises. *)
Theorem calmar_single_observation_raises :
  (forall fpow d e, calmar_ratio fpow [(d, e)] = None) /\
  max_drawdown (cells Examples.single_observation) = Fin 0.
Proof.
  split.
  - intros fpow d e. unfold calmar_ratio, cagr. simpl.
    destruct (Req_dec_T (IZR (d - d) / 365.25) 0) as [_|N]; [done|].
    exfalso. apply N, years_of_one_day.
  - unfold max_drawdown, drawdown, cummax, Examples.single_observation.
    simpl. unfold fltb, fdiv. simpl.
    destruct (Rcompare_spec 1000 0); try lra.
    unfold series_max. simpl. f_equal. lra.
Qed.

(** What does hold of the four ratios: each is the sentinel under its
    degeneracy condition, provided [cagr] returns. *)
Lemma degenerate_statistics fpow (c : Curve) :
  (forall ar, ann_return fpow c = Some ar ->
              ann_vol c = Fin 0 -> sharpe fpow c = Some NaN) /\
  (forall rf,
      filter (fun r => fltb r f0 = true) (dropna (pct_change (cells c)))
      = [] ->
      sortino_ratio c rf = NaN) /\
  (forall g, cagr fpow c = Some g ->
             max_drawdown (cells c) = Fin 0 ->
             calmar_ratio fpow c = Some NaN) /\
  (forall target,
      filter (fun r => fltb r target = true)
             (dropna (pct_change (cells c))) = [] ->
      omega_ratio c target = NaN).
Proof.
  repeat split.
  - intros ar Har Hvol. unfold sharpe. rewrite Har, Hvol. simpl.
    by rewrite fgtb_nonpos by lra.
  - intros rf Hnone. unfold sortino_ratio. rewrite Hnone.
    change (std []) with (NaN : float R). simpl.
    by destruct (fsub _ _).
  - intros g Hg Hdd. unfold calmar_ratio. rewrite Hg, Hdd. simpl.
    by rewrite fgtb_nonpos by lra.
  - intros target Hnone. unfold omega_ratio. rewrite Hnone.
    unfold fsum, dropna, fneb, feqb. simpl.
    destruct (Rcompare_spec (- 0) 0); try done; lra.
Qed.

Lemma rsum_zero (xs : list R) : Forall (fun x => x = 0) xs -> rsum xs = 0.
Proof.
  unfold rsum. assert (G : forall a, a = 0 ->
               Forall (fun x => x = 0) xs -> fold_left Rplus xs a = 0).
  { induction xs as [|x xs IH]; intros a Ha Hall; [done|].
    apply Forall_cons in Hall as [-> Hall]. simpl. apply IH; [lra|done]. }
  by apply G.
Qed.

Lemma rvar_zero (xs : list R) : Forall (fun x => x = 0) xs -> rvar xs = 0.
Proof.
  intros Hall. unfold rvar, rmean. rewrite (rsum_zero xs Hall).
  rewrite rsum_zero; [unfold Rdiv; apply Rmult_0_l|].
  apply Forall_forall. intros y [x [-> Hx]]%list_elem_of_fmap.
  rewrite Forall_forall in Hall. rewrite (Hall x Hx).
  unfold Rdiv. rewrite Rmult_0_l. ring.
Qed.

(** The return between two equal observations, filled: always 0. *)
Lemma constant_return (e : float R) :
  exists z, fillna f0 (fsub (fdiv e e) f1) = Fin z /\ z = 0.
Proof.
  destruct e as [v| | |]; try (by exists 0).
  destruct (Req_dec_T v 0) as [->|N].
  - rewrite fdiv_zero_zero. by exists 0.
  - rewrite (fdiv_fin_R _ _ N). exists (v / v + - 1).
    split; [done|]. by field.
Qed.

Lemma constant_changes (e : float R) (n : nat) :
  exists zs,
    map (fillna f0) (changes e (replicate n e)) = map Fin zs /\
    length zs = n /\ Forall (fun x => x = 0) zs.
Proof.
  destruct (constant_return e) as (z & Hz & Hz0).
  induction n as [|n (zs & Hzs & Hlen & Hall)].
  - by exists [].
  - exists (z :: zs). cbn [replicate changes map].
    rewrite Hz, Hzs. repeat split; [simpl; lia|]. by constructor.
Qed.

(** X1: the Sharpe ratio [compute_metrics] reports for a constant
    equity curve, whatever its value and its dates, is not a number:
    the zero-filled returns are all 0, so the volatility is not above
    0. *)
Lemma sharpe_constant_curve fpow (e : float R) (ds : list date) :
  ds <> [] ->
  sharpe fpow (map (fun d => (d, e)) ds) = Some NaN.
Proof.
  intros Hne. set (c := map (fun d => (d, e)) ds).
  assert (Hcells : cells c = replicate (length ds) e).
  { unfold cells, c. rewrite map_map. simpl.
    clear. induction ds; simpl; congruence. }
  assert (Hvol : fgtb (ann_vol c) f0 = false).
  { unfold ann_vol, returns. rewrite Hcells.
    destruct ds as [|d ds]; [done|]. cbn [length replicate pct_change map].
    destruct (constant_changes e (length ds)) as (zs & -> & Hlen & Hall).
    change (fillna f0 NaN :: map Fin zs) with (map Fin (0 :: zs)).
    destruct zs as [|z zs].
    - done.
    - rewrite std_fin by (simpl; lia).
      rewrite rvar_zero by (by constructor).
      rewrite sqrt_0. unfold sqrt252. simpl.
      apply fgtb_nonpos. lra. }
  unfold sharpe. rewrite Hvol.
  assert (Har : is_Some (ann_return fpow c)).
  { unfold ann_return, total_return. rewrite Hcells.
    destruct ds as [|d ds]; [done|]. cbn [length replicate head].
    destruct (last (e :: replicate (length ds) e)) eqn:L; [by eexists|].
    by apply last_None in L. }
  destruct Har as [ar ->]. done.
Qed.

(** Witness of [sharpe_constant_curve]: three days at 100. *)
Lemma sharpe_constant_curve_witness :
  sharpe (fun a _ => a) (map (fun d => (d, Fin 100)) [0; 1; 2]%Z)
  = Some NaN.
Proof.
  apply (sharpe_constant_curve (fun a _ => a) (Fin 100) [0; 1; 2]%Z).
  discriminate.
Defined.
End MetricsFacts.

(** ** Undefined prices *)

Lemma fadd_nan_r (a : float Qc) : fadd a NaN = NaN.
Proof. by destruct a. Qed.

Lemma fadd_nan_l (a : float Qc) : fadd NaN a = NaN.
Proof. by destruct a. Qed.

Lemma fmul_nan_r (a : float Qc) : fmul a NaN = NaN.
Proof. by destruct a. Qed.

Lemma index_set_loc (s : Series) dt v : index (set_loc s dt v) = index s.
Proof.
  unfold index, set_loc. rewrite map_map. apply map_ext.
  intros [l w]. simpl. by destruct (Z.eqb l dt).
Qed.

Lemma at_set_loc_eq (s : Series) dt v :
  dt ∈ index s -> at_ (set_loc s dt v) dt = Some v.
Proof.
  induction s as [|[l w] s IH]; simpl.
  - by intros ?%elem_of_nil.
  - intros Hin. destruct (Z.eqb_spec l dt) as [->|N]; simpl.
    + by rewrite Z.eqb_refl.
    + apply Z.eqb_neq in N as N'. rewrite N'. apply IH.
      apply elem_of_cons in Hin as [?|?]; [congruence|done].
Qed.

Lemma at_set_loc_ne (s : Series) dt dt' v :
  dt <> dt' -> at_ (set_loc s dt' v) dt = at_ s dt.
Proof.
  intros N. induction s as [|[l w] s IH]; simpl; [done|].
  destruct (Z.eqb_spec l dt') as [->|N']; simpl.
  - apply not_eq_sym, Z.eqb_neq in N as ->. apply IH.
  - by rewrite IH.
Qed.

Lemma fold_value_nan σ bt dt ts :
  forall st st' pv',
    foldM (instrument_step σ bt dt) ts (st, NaN) = Some (st', pv') ->
    pv' = NaN.
Proof.
  induction ts as [|[t r] ts IH]; intros st st' pv' H; cbn [foldM] in H.
  - by injection H as _ <-.
  - destruct (instrument_step σ bt dt (st, NaN) (t, r)) as [[st1 pv1]|] eqn:E;
      [|done].
    apply instrument_step_inv in E as (price & sig & prev & sh & _ & _ & _ & ->).
    cbn [mbind option_bind] in H. rewrite fadd_nan_l in H. by eapply IH.
Qed.

Lemma fold_value_nan_price σ bt items dt t r :
  dicts σ !! data bt = Some items ->
  NoDup (keys items) ->
  price_at σ bt t dt = Some NaN ->
  forall ts st pv st' pv',
    (forall x, x ∈ ts -> x ∈ items) ->
    (t, r) ∈ ts ->
    foldM (instrument_step σ bt dt) ts (st, pv) = Some (st', pv') ->
    pv' = NaN.
Proof.
  intros Hitems Hnd Hnan ts.
  induction ts as [|[t1 r1] ts IH]; intros st pv st' pv' Hsub Hin H.
  - by apply elem_of_nil in Hin.
  - cbn [foldM] in H.
    destruct (instrument_step σ bt dt (st, pv) (t1, r1))
      as [[st1 pv1]|] eqn:E; [|done].
    cbn [mbind option_bind] in H.
    apply elem_of_cons in Hin as [[= <- <-]|Hin].
    + apply instrument_step_inv in E
        as (price & sig & prev & sh & Hread & _ & _ & ->).
      assert (Hp : price_at σ bt t dt = Some price).
      { eapply read_inputs_price; eauto. apply Hsub, list_elem_of_here. }
      rewrite Hnan in Hp. injection Hp as <-.
      rewrite fmul_nan_r, fadd_nan_r in H. by eapply fold_value_nan.
    + eapply IH; eauto. intros x Hx. by apply Hsub, list_elem_of_further.
Qed.

Lemma dates_keep_equity σ bt ds :
  forall st eq st' eq',
    foldM (date_step σ bt) ds (st, eq) = Some (st', eq') ->
    index eq' = index eq /\
    forall dt, dt ∉ ds -> at_ eq' dt = at_ eq dt.
Proof.
  induction ds as [|d ds IH]; intros st eq st' eq' H; cbn [foldM] in H.
  - by injection H as <- <-.
  - destruct (date_step σ bt (st, eq) d) as [[st1 eq1]|] eqn:E; [|done].
    cbn [mbind option_bind] in H. destruct (IH _ _ _ _ H) as [Hidx Hat].
    unfold date_step in E.
    destruct (dicts σ !! data bt) as [items|]; [|done]. simpl in E.
    destruct (foldM _ items _) as [[st2 pv]|]; [|done]. simpl in E.
    injection E as <- <-. split.
    + by rewrite Hidx, index_set_loc.
    + intros dt Hdt. apply not_elem_of_cons in Hdt as [N Hdt].
      rewrite (Hat dt Hdt). by apply at_set_loc_ne.
Qed.

(** X2: whenever an instrument of the run has an undefined price on a
    calendar date, the equity recorded for that date is NaN, whatever
    the cash and the other instruments are worth. *)
Lemma undefined_price_poisons_equity σ bt items eq tr k dt t r :
  dicts σ !! data bt = Some items ->
  NoDup (keys items) ->
  NoDup (master_index bt) ->
  run σ bt = Some (eq, tr) ->
  master_index bt !! k = Some dt ->
  (t, r) ∈ items ->
  price_at σ bt t dt = Some NaN ->
  at_ eq dt = Some NaN.
Proof.
  intros Hitems Hnd Hmnd Hrun Hk Hin Hnan.
  unfold run in Hrun. rewrite Hitems in Hrun. simpl in Hrun.
  destruct (foldM _ _ _) as [[st eq1]|] eqn:F; [|done].
  simpl in Hrun. injection Hrun as <- <-.
  rewrite <- (take_drop_middle _ _ _ Hk) in F, Hmnd.
  rewrite foldM_app in F.
  destruct (foldM _ (take k _) _) as [[st0 eq0]|] eqn:F0; [|done].
  cbn [mbind option_bind foldM] in F.
  destruct (date_step σ bt (st0, eq0) dt) as [[st1 eq2]|] eqn:E; [|done].
  cbn [mbind option_bind] in F.
  destruct (dates_keep_equity _ _ _ _ _ _ _ F0) as [Hidx0 _].
  destruct (dates_keep_equity _ _ _ _ _ _ _ F) as [_ Hat].
  apply NoDup_app in Hmnd as (_ & _ & Hmnd).
  apply NoDup_cons in Hmnd as [Hfresh _].
  rewrite (Hat dt Hfresh).
  unfold date_step in E. rewrite Hitems in E. simpl in E.
  destruct (foldM _ items _) as [[st2 pv]|] eqn:G; [|done]. simpl in E.
  injection E as <- <-.
  rewrite (fold_value_nan_price σ bt items dt t r Hitems Hnd Hnan
             items st0 f0 st2 pv (fun x H => H) Hin G).
  rewrite fadd_nan_r. apply at_set_loc_eq.
  rewrite Hidx0. unfold equity0, index. rewrite map_map. simpl.
  rewrite map_id. apply elem_of_app. right. apply list_elem_of_here.
Qed.

(** ** [run] returns *)

Lemma at_is_Some (s : Series) dt : dt ∈ index s -> is_Some (at_ s dt).
Proof.
  induction s as [|[l v] s IH]; simpl.
  - by intros ?%elem_of_nil.
  - intros Hin. destruct (Z.eqb_spec l dt) as [->|N]; [by eexists|].
    apply IH. apply elem_of_cons in Hin as [?|?]; [congruence|done].
Qed.

Lemma index_shift_from (s : Series) : forall pv, index (shift_from pv s) = index s.
Proof.
  induction s as [|[l v] s IH]; intros pv; [done|].
  unfold index in *. simpl. by rewrite IH.
Qed.

Lemma read_inputs_total σ bt items dt t r :
  aligned σ bt = true ->
  dicts σ !! data bt = Some items ->
  (t, r) ∈ items ->
  dt ∈ master_index bt ->
  is_Some (read_inputs σ bt dt t r).
Proof.
  intros Hal Hitems Hin Hdt.
  destruct (aligned_inv σ bt items Hal Hitems) as (_ & _ & Hfr).
  destruct (Hfr t r Hin) as (df & s & Hdf & Hs & Hidf & Hids).
  unfold read_inputs. rewrite Hdf, Hs. cbn [mbind option_bind].
  destruct (at_is_Some df dt) as [price ->]; [by rewrite Hidf|].
  cbn [mbind option_bind].
  destruct (at_is_Some s dt) as [sig ->]; [by rewrite Hids|].
  cbn [mbind option_bind].
  destruct (master_index bt) as [|first rest] eqn:Hm.
  - by apply elem_of_nil in Hdt.
  - destruct (negb (Z.eqb dt first)); [|by eexists].
    destruct (at_is_Some (shift1 s) dt) as [prev ->]; [|by eexists].
    unfold shift1. by rewrite index_shift_from, Hids.
Qed.

Lemma trade_step_total σ bt dt t k price sig prev st :
  log_ok σ bt t k st ->
  is_Some (dict_get (weights bt) t) ->
  is_Some (trade_step bt dt t price sig prev st).
Proof.
  intros (p & sh & log & Hp & Hsh & Hlog & Hopen & _) [w Hw].
  unfold trade_step.
  destruct (entry_cond sig prev).
  - rewrite Hw, Hlog. by eexists.
  - destruct (exit_signal sig prev); [|by eexists].
    rewrite Hp. cbn [mbind option_bind].
    destruct (Z.eqb_spec p 1) as [E|N]; [|by eexists].
    destruct (Hopen E) as (before & r0 & -> & _ & _).
    rewrite Hsh, Hlog. cbn [mbind option_bind].
    rewrite close_last_snoc. by eexists.
Qed.

Section Totality.
Variables (σ : Store) (bt : PortfolioBacktest) (items : dict ref).
Hypothesis Hitems : dicts σ !! data bt = Some items.
Hypothesis Haligned : aligned σ bt = true.
Hypothesis Hweights :
  forall t, t ∈ keys items -> is_Some (dict_get (weights bt) t).

Lemma within_date_total k dt st0 :
  master_index bt !! k = Some dt ->
  (forall t, t ∈ keys items -> log_ok σ bt t k st0) ->
  forall ts ts',
    items = ts ++ ts' ->
    is_Some (foldM (instrument_step σ bt dt) ts (st0, f0)).
Proof using All.
  intros Hk H0.
  destruct (aligned_inv σ bt items Haligned Hitems) as (_ & Hnd & _).
  induction ts as [|[t1 r1] ts IH] using rev_ind; intros ts' Hsplit.
  - by eexists.
  - rewrite <- app_assoc in Hsplit.
    destruct (IH _ Hsplit) as [[st1 pv1] Hfold].
    rewrite foldM_app, Hfold. cbn [mbind option_bind foldM].
    assert (Hin : (t1, r1) ∈ items).
    { rewrite Hsplit. apply elem_of_app. right. apply list_elem_of_here. }
    assert (Ht : t1 ∈ keys items).
    { unfold keys. apply list_elem_of_fmap. by exists (t1, r1). }
    pose proof (within_date σ bt items Hnd (log_ok σ bt)
                  (log_ok_frame σ bt)
                  (log_ok_step σ bt items Hitems Hnd)
                  k dt st0 Hk H0 ts _ st1 pv1 Hsplit Hfold t1 Ht) as Hok.
    rewrite bool_decide_eq_false_2 in Hok.
    2:{ rewrite Hsplit in Hnd. unfold keys in Hnd. rewrite map_app in Hnd.
        apply NoDup_app in Hnd as (_ & Hd & _).
        intros Hts. apply (Hd t1 Hts). simpl. apply list_elem_of_here. }
    destruct (read_inputs_total σ bt items dt t1 r1 Haligned Hitems Hin)
      as [[[price sig] prev] Hread]; [by eapply list_elem_of_lookup_2|].
    destruct (trade_step_total σ bt dt t1 k price sig prev st1 Hok
                (Hweights t1 Ht)) as [st2 Hstep].
    pose proof (log_ok_step σ bt items Hitems Hnd t1 r1 k dt st1 st2
                  price sig prev Hk Hin Hread Hstep Hok)
      as (_ & sh & _ & _ & Hsh & _).
    unfold instrument_step. rewrite Hread. cbn [mbind option_bind].
    rewrite Hstep. cbn [mbind option_bind]. rewrite Hsh. by eexists.
Qed.

Lemma after_dates_total ds rest :
  master_index bt = ds ++ rest -> is_Some (after_dates σ bt ds).
Proof using All.
  destruct (aligned_inv σ bt items Haligned Hitems) as (_ & Hnd & _).
  revert rest. induction ds as [|dt ds IH] using rev_ind; intros rest Hm.
  - unfold after_dates. rewrite Hitems. by eexists.
  - rewrite <- app_assoc in Hm.
    destruct (IH _ Hm) as [[st1 eq1] Hfold].
    pose proof (after_dates_inv σ bt items Hitems Hnd (log_ok σ bt)
                  (log_ok_frame σ bt) (log_ok_init σ bt items)
                  (log_ok_step σ bt items Hitems Hnd)
                  ds _ st1 eq1 Hm Hfold) as Hok.
    assert (Hk : master_index bt !! length ds = Some dt).
    { rewrite Hm. by apply list_lookup_middle. }
    destruct (within_date_total (length ds) dt st1 Hk Hok items []
                (eq_sym (app_nil_r items))) as [[st2 pv] Hstep].
    unfold after_dates in *. rewrite Hitems in *.
    cbn [mbind option_bind] in *.
    rewrite foldM_app, Hfold. cbn [mbind option_bind foldM].
    unfold date_step. rewrite Hitems. cbn [mbind option_bind].
    rewrite Hstep. by eexists.
Qed.

(** On an aligned object whose weights cover its instruments, [run]
    raises nothing: it returns an equity curve and the trade logs. *)
Lemma run_total : is_Some (run σ bt).
Proof using All.
  destruct (after_dates_total (master_index bt) [])
    as [[st eq] H]; [by rewrite app_nil_r|].
  unfold after_dates in H. rewrite Hitems in H. cbn [mbind option_bind] in H.
  unfold run. rewrite Hitems. cbn [mbind option_bind].
  unfold equity0 in H. rewrite H. by eexists.
Qed.
End Totality.

(** ** The object [__init__] builds *)

Lemma ascending_cons (x : date) (l : list date) :
  ascending (x :: l) = true <->
  (match l with [] => True | y :: _ => x < y end) /\ ascending l = true.
Proof.
  destruct l as [|y l]; simpl.
  - tauto.
  - rewrite andb_true_iff, Z.ltb_lt. tauto.
Qed.

Lemma insert_date_head (d x : date) (l : list date) :
  match insert_date d (x :: l) with
  | [] => False
  | y :: _ => y = d \/ y = x
  end.
Proof.
  simpl. destruct (Z.ltb d x); [by left|].
  destruct (Z.eqb d x); by right.
Qed.

Lemma insert_date_ascending (d : date) (l : list date) :
  ascending l = true -> ascending (insert_date d l) = true.
Proof.
  induction l as [|x l IH]; [done|].
  intros Hx. apply ascending_cons in Hx as [Hhead Hl].
  cbn [insert_date].
  destruct (Z.ltb_spec d x) as [Hlt|Hge].
  - apply ascending_cons. split; [done|].
    apply ascending_cons. by split.
  - destruct (Z.eqb_spec d x) as [->|N].
    + apply ascending_cons. by split.
    + apply ascending_cons. split; [|by apply IH].
      destruct l as [|y l]; simpl.
      * lia.
      * pose proof (insert_date_head d y l) as Hh. simpl in Hh.
        destruct (Z.ltb d y); [lia|].
        destruct (Z.eqb d y); lia.
Qed.

Lemma sorted_union_ascending (idxs : list (list date)) :
  ascending (sorted_union idxs) = true.
Proof.
  unfold sorted_union.
  assert (G : forall acc, ascending acc = true ->
            ascending
              (fold_left (fun acc idx =>
                            fold_left (fun a d => insert_date d a) idx acc)
                         idxs acc) = true).
  { induction idxs as [|idx idxs IH]; intros acc Hacc; [done|].
    simpl. apply IH. clear IH. revert acc Hacc.
    induction idx as [|d idx IHi]; intros acc Hacc; [done|].
    simpl. apply IHi. by apply insert_date_ascending. }
  by apply G.
Qed.

Lemma index_reindex_ffill (master : list date) (s : Series) :
  index (reindex_ffill master s) = master.
Proof.
  unfold index, reindex_ffill. rewrite map_map. simpl. apply map_id.
Qed.

Lemma index_fillna_series (v : float Qc) (s : Series) :
  index (fillna_series v s) = index s.
Proof. unfold index, fillna_series. by rewrite map_map. Qed.

Lemma align_one_inv data_dict signals_dict master σ t σ' :
  align_one data_dict signals_dict master σ t = Some σ' ->
  exists d df sd s,
    dicts σ !! data_dict = Some d /\
    (exists r, dict_get d t = Some r /\ frames σ !! r = Some df) /\
    <[data_dict := dict_set d t (length (frames σ))]> (dicts σ) !! signals_dict
    = Some sd /\
    (exists o, dict_get sd t = Some o /\
               (frames σ ++ [reindex_ffill master df]) !! o = Some s) /\
    frames σ' = (frames σ ++ [reindex_ffill master df])
                ++ [fillna_series f0 (reindex_ffill master s)] /\
    dicts σ' = <[signals_dict := dict_set sd t (S (length (frames σ)))]>
                 (<[data_dict := dict_set d t (length (frames σ))]> (dicts σ)).
Proof.
  unfold align_one. intros H.
  destruct (deref σ data_dict t) as [df|] eqn:Hdf; [|done].
  cbn [mbind option_bind] in H.
  destruct (negb (ascending (index df))); [done|].
  unfold deref in Hdf.
  destruct (dicts σ !! data_dict) as [d|] eqn:Hd; [|done].
  cbn [mbind option_bind] in Hdf.
  destruct (dict_get d t) as [r|] eqn:Hr; [|done].
  cbn [mbind option_bind] in Hdf.
  unfold alloc_frame, dict_store in H. cbn [frames dicts] in H.
  rewrite Hd in H. cbn [frames dicts] in H.
  destruct (deref _ signals_dict t) as [s|] eqn:Hs; [|done].
  cbn [mbind option_bind] in H.
  destruct (negb (ascending (index s))); [done|].
  unfold deref in Hs. cbn [frames dicts] in Hs.
  destruct (_ !! signals_dict) as [sd|] eqn:Hsd; [|done].
  cbn [frames dicts] in H. injection H as <-.
  cbn [mbind option_bind] in Hs.
  destruct (dict_get sd t) as [o|] eqn:Ho; [|done].
  cbn [mbind option_bind] in Hs.
  exists d, df, sd, s. cbn [frames dicts].
  rewrite length_app. simpl. rewrite Nat.add_1_r.
  repeat split; eauto.
Qed.

Lemma align_one_step data_dict signals_dict master ks done σ t σ' :
  data_dict <> signals_dict ->
  align_one data_dict signals_dict master σ t = Some σ' ->
  aligned_for σ data_dict signals_dict master ks done ->
  aligned_for σ' data_dict signals_dict master ks (t :: done).
Proof.
  intros Hne Hal (d & Hd & Hks & Hdone).
  apply align_one_inv in Hal
    as (d' & df & sd & s & Hd' & (r & Hr & Hdf) & Hsd & _ & Hfr & Hdi).
  rewrite Hd in Hd'. injection Hd' as <-.
  assert (Hlt : (data_dict < length (dicts σ))%nat)
    by (by eapply lookup_lt_Some).
  assert (Hsd0 : dicts σ !! signals_dict = Some sd).
  { by rewrite list_lookup_insert_ne in Hsd. }
  assert (Hlts : (signals_dict < length (dicts σ))%nat)
    by (by eapply lookup_lt_Some).
  assert (Hdata' : dicts σ' !! data_dict
                   = Some (dict_set d t (length (frames σ)))).
  { rewrite Hdi. rewrite list_lookup_insert_ne by done.
    by rewrite list_lookup_insert_eq. }
  assert (Hsig' : dicts σ' !! signals_dict
                  = Some (dict_set sd t (S (length (frames σ))))).
  { rewrite Hdi. rewrite list_lookup_insert_eq; [done|].
    by rewrite length_insert. }
  assert (Hold : forall i f, frames σ !! i = Some f -> frames σ' !! i = Some f).
  { intros i f Hi. rewrite Hfr, <- app_assoc.
    by apply lookup_app_l_Some. }
  exists (dict_set d t (length (frames σ))).
  split; [done|]. split; [by rewrite (keys_dict_set d t _ r)|].
  intros t0 Ht0. destruct (decide (t0 = t)) as [->|N].
  - exists (length (frames σ)), (reindex_ffill master df),
           (fillna_series f0 (reindex_ffill master s)).
    split; [by rewrite dict_get_set_eq|].
    split; [rewrite Hfr, <- app_assoc; by apply list_lookup_middle|].
    split; [apply index_reindex_ffill|].
    split.
    + unfold deref. rewrite Hsig'. cbn [mbind option_bind].
      rewrite dict_get_set_eq. cbn [mbind option_bind].
      rewrite Hfr. apply list_lookup_middle.
      rewrite length_app. simpl. lia.
    + by rewrite index_fillna_series, index_reindex_ffill.
  - apply elem_of_cons in Ht0 as [?|Ht0]; [done|].
    destruct (Hdone t0 Ht0) as (r0 & df0 & s0 & Hr0 & Hdf0 & Hi0 & Hs0 & Hj0).
    exists r0, df0, s0.
    split; [by rewrite dict_get_set_ne|].
    split; [by apply Hold|]. split; [done|]. split; [|done].
    unfold deref in *. rewrite Hsd0 in Hs0. rewrite Hsig'.
    cbn [mbind option_bind] in *. rewrite dict_get_set_ne by done.
    destruct (dict_get sd t0) as [o|]; [|done].
    cbn [mbind option_bind] in *. by apply Hold.
Qed.

Lemma align_all data_dict signals_dict master ks :
  data_dict <> signals_dict ->
  forall l done σ σ',
    foldM (align_one data_dict signals_dict master) l σ = Some σ' ->
    aligned_for σ data_dict signals_dict master ks done ->
    aligned_for σ' data_dict signals_dict master ks (rev l ++ done).
Proof.
  intros Hne l. induction l as [|t l IH]; intros done σ σ' H Hinv.
  - by injection H as <-.
  - cbn [foldM] in H.
    destruct (align_one _ _ _ σ t) as [σ1|] eqn:E; [|done].
    cbn [mbind option_bind] in H.
    simpl. rewrite <- app_assoc. simpl.
    eapply IH; [done|]. by eapply align_one_step.
Qed.

(** [__init__] leaves an aligned object, with weights for every
    instrument when none are given. *)
Lemma init_aligned σ0 data_dict signals_dict w ic sl co σ bt d0 :
  data_dict <> signals_dict ->
  dicts σ0 !! data_dict = Some d0 ->
  NoDup (keys d0) ->
  init σ0 data_dict signals_dict w ic sl co = Some (σ, bt) ->
  aligned σ bt = true /\
  (w = None ->
   forall items t, dicts σ !! data bt = Some items ->
                   t ∈ keys items -> is_Some (dict_get (weights bt) t)).
Proof.
  intros Hne Hd0 Hnd Hinit. unfold init in Hinit. rewrite Hd0 in Hinit.
  cbn [mbind option_bind] in Hinit.
  destruct (mapM _ d0) as [idxs|]; [|done].
  cbn [mbind option_bind] in Hinit.
  destruct (foldM _ (keys d0) σ0) as [σ'|] eqn:F; [|done].
  cbn [mbind option_bind] in Hinit. injection Hinit as <- <-.
  pose proof (align_all data_dict signals_dict (sorted_union idxs) (keys d0)
                Hne (keys d0) [] σ0 σ' F) as Hall.
  destruct Hall as (d & Hd & Hks & Hdone).
  { exists d0. repeat split; [done|]. by intros t ?%elem_of_nil. }
  split.
  - unfold aligned. cbn [master_index data signals].
    rewrite sorted_union_ascending, Hd. cbn [andb].
    rewrite bool_decide_eq_true_2 by (by rewrite Hks). cbn [andb].
    apply forallb_forall. intros [t r] Hin%list_elem_of_In. simpl.
    assert (Ht : t ∈ rev (keys d0) ++ []).
    { rewrite app_nil_r, <- Hks. apply list_elem_of_In, in_rev.
      rewrite rev_involutive. apply list_elem_of_In.
      unfold keys. apply list_elem_of_fmap. by exists (t, r). }
    destruct (Hdone t Ht) as (r' & df & s & Hr & Hdf & Hidf & Hs & Hids).
    rewrite (dict_get_elem_of d t r) in Hr by (by rewrite ?Hks).
    injection Hr as <-. rewrite Hdf, Hs.
    by rewrite !bool_decide_eq_true_2.
  - intros -> items t Hitems Ht. cbn [data weights] in *.
    rewrite Hd in Hitems. injection Hitems as <-.
    rewrite Hks in Ht. exists (equal_weight (length d0)).
    clear -Ht. induction (keys d0) as [|k ks IH]; simpl.
    + by apply elem_of_nil in Ht.
    + apply elem_of_cons in Ht as [->|Ht].
      * by rewrite String.eqb_refl.
      * destruct (String.eqb k t); [done|by apply IH].
Qed.

(** A simulator built by [__init__] with default weights from two
    different dictionaries always runs to completion. *)
Lemma init_run_total σ0 data_dict signals_dict ic sl co σ bt d0 :
  data_dict <> signals_dict ->
  dicts σ0 !! data_dict = Some d0 ->
  NoDup (keys d0) ->
  init σ0 data_dict signals_dict None ic sl co = Some (σ, bt) ->
  is_Some (run σ bt).
Proof.
  intros Hne Hd0 Hnd Hinit.
  destruct (init_aligned _ _ _ _ _ _ _ _ _ _ Hne Hd0 Hnd Hinit) as [Hal Hw].
  destruct (dicts σ !! data bt) as [items|] eqn:Hitems.
  - apply (run_total σ bt items Hitems Hal). intros t Ht. by eapply Hw.
  - unfold aligned in Hal. rewrite Hitems in Hal.
    by rewrite andb_false_r in Hal.
Qed.

(** *** Signals after the alignment *)

Lemma asof_cases (s : Series) (d : date) :
  asof s d = NaN \/ exists c, c ∈ s /\ asof s d = c.2.
Proof.
  unfold asof.
  assert (G : forall acc,
            (acc = NaN \/ exists c, c ∈ s /\ acc = c.2) ->
            forall l, (forall c, c ∈ l -> c ∈ s) ->
            let r := fold_left
                       (fun acc c => if Z.leb c.1 d then c.2 else acc) l acc in
            r = NaN \/ exists c, c ∈ s /\ r = c.2).
  { intros acc Hacc l. revert acc Hacc.
    induction l as [|c l IH]; intros acc Hacc Hsub; [done|].
    simpl. apply IH.
    - destruct (Z.leb c.1 d); [|done].
      right. exists c. split; [|done]. apply Hsub, list_elem_of_here.
    - intros c' Hc'. by apply Hsub, list_elem_of_further. }
  apply (G NaN); [by left|done].
Qed.

Lemma binary_aligned_signal (master : list date) (s : Series) :
  ternary s = true ->
  binary (fillna_series f0 (reindex_ffill master s)) = true.
Proof.
  intros Ht. unfold binary, fillna_series, reindex_ffill.
  apply forallb_forall. intros c Hc%list_elem_of_In.
  apply list_elem_of_fmap in Hc as (c1 & -> & Hc1).
  apply list_elem_of_fmap in Hc1 as (d & -> & _). simpl.
  destruct (asof_cases s d) as [->|(c & Hc & ->)]; [done|].
  unfold ternary in Ht. rewrite forallb_forall in Ht.
  specialize (Ht c ltac:(by apply list_elem_of_In)).
  apply orb_true_iff in Ht as [Ht|Ht].
  - apply orb_true_iff in Ht as [Ht|Ht].
    + by destruct (c.2).
    + apply feqb_fin_inv in Ht. by rewrite Ht.
  - apply feqb_fin_inv in Ht. by rewrite Ht.
Qed.

Lemma binary_ternary (s : Series) : binary s = true -> ternary s = true.
Proof.
  unfold binary, ternary. rewrite !forallb_forall.
  intros H c Hc. specialize (H c Hc).
  apply orb_true_iff in H as [H|H]; rewrite H; by rewrite ?orb_true_r.
Qed.

Lemma align_one_signals data_dict signals_dict master ks done σ t σ' :
  data_dict <> signals_dict ->
  align_one data_dict signals_dict master σ t = Some σ' ->
  signals_ok σ signals_dict ks done ->
  signals_ok σ' signals_dict ks (t :: done).
Proof.
  intros Hne Hal Hok.
  apply align_one_inv in Hal
    as (d & df & sd & s & Hd & _ & Hsd & (o & Ho & Hs) & Hfr & Hdi).
  assert (Hsd0 : dicts σ !! signals_dict = Some sd).
  { by rewrite list_lookup_insert_ne in Hsd. }
  assert (Hlts : (signals_dict < length (dicts σ))%nat)
    by (by eapply lookup_lt_Some).
  assert (Hsig' : dicts σ' !! signals_dict
                  = Some (dict_set sd t (S (length (frames σ))))).
  { rewrite Hdi. rewrite list_lookup_insert_eq; [done|].
    by rewrite length_insert. }
  assert (Hold : forall i f, frames σ !! i = Some f -> frames σ' !! i = Some f).
  { intros i f Hi. rewrite Hfr, <- app_assoc. by apply lookup_app_l_Some. }
  intros t0 Ht0. destruct (Hok t0 Ht0) as (s0 & Hs0 & Hter & Hbin).
  unfold deref in Hs0. rewrite Hsd0 in Hs0. cbn [mbind option_bind] in Hs0.
  destruct (decide (t0 = t)) as [->|N].
  - rewrite Ho in Hs0. cbn [mbind option_bind] in Hs0.
    assert (s = s0) as ->.
    { apply (lookup_app_l_Some _ [reindex_ffill master df]) in Hs0.
      rewrite Hs0 in Hs. by injection Hs. }
    exists (fillna_series f0 (reindex_ffill master s0)).
    assert (B : binary (fillna_series f0 (reindex_ffill master s0)) = true)
      by (by apply binary_aligned_signal).
    split; [|split; [by apply binary_ternary|done]].
    unfold deref. rewrite Hsig'. cbn [mbind option_bind].
    rewrite dict_get_set_eq. cbn [mbind option_bind].
    rewrite Hfr. apply list_lookup_middle. rewrite length_app. simpl. lia.
  - exists s0. split; [|split; [done|]].
    + unfold deref. rewrite Hsig'. cbn [mbind option_bind].
      rewrite dict_get_set_ne by done.
      destruct (dict_get sd t0) as [o0|]; [|done].
      cbn [mbind option_bind] in *. by apply Hold.
    + intros [?|Hin]%elem_of_cons; [done|by apply Hbin].
Qed.

Lemma align_all_signals data_dict signals_dict master ks :
  data_dict <> signals_dict ->
  forall l done σ σ',
    foldM (align_one data_dict signals_dict master) l σ = Some σ' ->
    signals_ok σ signals_dict ks done ->
    signals_ok σ' signals_dict ks (rev l ++ done).
Proof.
  intros Hne l. induction l as [|t l IH]; intros done σ σ' H Hinv.
  - by injection H as <-.
  - cbn [foldM] in H.
    destruct (align_one _ _ _ σ t) as [σ1|] eqn:E; [|done].
    cbn [mbind option_bind] in H.
    simpl. rewrite <- app_assoc. simpl.
    eapply IH; [done|]. by eapply align_one_signals.
Qed.

(** [__init__] turns signal series of 0, 1 and missing cells into series
    of 0 and 1. *)
Lemma init_binary σ0 data_dict signals_dict w ic sl co σ bt d0 :
  data_dict <> signals_dict ->
  dicts σ0 !! data_dict = Some d0 ->
  NoDup (keys d0) ->
  (forall t, t ∈ keys d0 ->
     exists s, deref σ0 signals_dict t = Some s /\ ternary s = true) ->
  init σ0 data_dict signals_dict w ic sl co = Some (σ, bt) ->
  binary_signals σ bt = true.
Proof.
  intros Hne Hd0 Hnd Hsig Hinit. unfold init in Hinit. rewrite Hd0 in Hinit.
  cbn [mbind option_bind] in Hinit.
  destruct (mapM _ d0) as [idxs|]; [|done].
  cbn [mbind option_bind] in Hinit.
  destruct (foldM _ (keys d0) σ0) as [σ'|] eqn:F; [|done].
  cbn [mbind option_bind] in Hinit. injection Hinit as <- <-.
  destruct (align_all data_dict signals_dict (sorted_union idxs) (keys d0)
              Hne (keys d0) [] σ0 σ' F) as (d & Hd & Hks & _).
  { exists d0. repeat split; [done|]. by intros t ?%elem_of_nil. }
  pose proof (align_all_signals data_dict signals_dict (sorted_union idxs)
                (keys d0) Hne (keys d0) [] σ0 σ' F) as Hok.
  unfold binary_signals. cbn [data signals]. rewrite Hd.
  apply forallb_forall. intros [t r] Hin%list_elem_of_In. simpl.
  assert (Ht : t ∈ keys d0).
  { rewrite <- Hks. unfold keys. apply list_elem_of_fmap. by exists (t, r). }
  assert (H0 : signals_ok σ0 signals_dict (keys d0) []).
  { intros t1 Ht1. destruct (Hsig t1 Ht1) as (s1 & ? & ?).
    exists s1. split; [done|]. split; [done|]. by intros ?%elem_of_nil. }
  destruct (Hok H0 t Ht) as (s & -> & _ & Hb).
  apply Hb. rewrite app_nil_r. apply list_elem_of_In, in_rev.
  rewrite rev_involutive. by apply list_elem_of_In.
Qed.

(** * Further properties of the code *)

(** ** The shape of the trade logs *)

Section ShapeInvariant.
Variables (σ : Store) (bt : PortfolioBacktest) (items : dict ref).
Hypothesis Hitems : dicts σ !! data bt = Some items.
Hypothesis Haligned : aligned σ bt = true.
Hypothesis Hbinary : binary_signals σ bt = true.

Lemma shape_ok_frame t k st st' :
  untouched t st st' -> shape_ok σ bt t k st -> shape_ok σ bt t k st'.
Proof.
  intros Hu [Hpos (log & Hlog & Hsh)]. split.
  - by eapply position_tracks_frame.
  - destruct Hu as (Ht & _ & _). exists log. by rewrite Ht.
Qed.

Lemma shape_ok_init t :
  t ∈ keys items -> shape_ok σ bt t 0 (initial_state bt (keys items)).
Proof.
  intros Ht. split; [by apply position_tracks_init|].
  exists []. simpl. rewrite dict_get_map_const by done.
  split; [done|]. unfold log_shape. simpl.
  change (feqb f0 f1) with false. constructor.
Qed.

Lemma shape_ok_step t r k dt st st' price sig prev :
  master_index bt !! k = Some dt ->
  (t, r) ∈ items ->
  read_inputs σ bt dt t r = Some (price, sig, prev) ->
  trade_step bt dt t price sig prev st = Some st' ->
  shape_ok σ bt t k st -> shape_ok σ bt t (S k) st'.
Proof using Hitems Haligned Hbinary.
  intros Hk Hin Hread Hstep [Hpos (log & Hlog & Hsh)].
  split; [by eapply position_tracks_step|].
  destruct (read_inputs_signals σ bt items k dt t r price sig prev
              Haligned Hbinary Hitems Hk Hin Hread)
    as (Hsig & Hprev & Hsb & Hpb).
  assert (Hnext : prev_signal σ bt t (S k) = sig).
  { unfold prev_signal. rewrite Hk. simpl. by rewrite Hsig. }
  rewrite Hnext. unfold position_tracks in Hpos.
  rewrite <- Hprev in Hpos, Hsh. unfold log_shape in *.
  apply trade_step_cases in Hstep
    as [(Hc & w & log0 & _ & Hlog0 & ->)
       |[(Hc & Hx & _ & sh & log0 & log' & _ & Hlog0 & Hcl & ->)
        |(Hc & Hx & ->)]];
    cbn [trades]; rewrite ?dict_get_set_eq;
    destruct Hsb as [->| ->], Hpb as [->| ->];
    try (by vm_compute in Hc); try (by vm_compute in Hx).
  - rewrite Hlog in Hlog0. injection Hlog0 as <-.
    change (feqb f0 f1) with false in Hsh. change (feqb f1 f1) with true.
    eexists. split; [done|]. by eexists log, _.
  - rewrite Hlog in Hlog0. injection Hlog0 as <-.
    change (feqb f1 f1) with true in Hsh. change (feqb f0 f1) with false.
    destruct Hsh as (before & r0 & -> & Hbefore & Hopen).
    rewrite close_last_snoc in Hcl. injection Hcl as <-.
    eexists. split; [done|].
    apply Forall_app. split; [done|]. by apply Forall_singleton.
  - by exists log.
  - destruct Hx as [Hx|(p & Hp & Np)]; [by vm_compute in Hx|].
    rewrite Hp in Hpos. by injection Hpos as ->.
  - by exists log.
Qed.
End ShapeInvariant.

(** The object of the five-date scenario, for the witnesses below. *)
Lemma scenario_object :
  exists σ bt eq tr,
    init Examples.scenario_store 0%nat 1%nat (Some [("A"%string, qz 1)])
         (qz 1000) (qz 0) (qz 0) = Some (σ, bt) /\
    aligned σ bt = true /\ binary_signals σ bt = true /\
    dicts σ !! data bt = Some [("A"%string, 2%nat)] /\
    master_index bt = [0; 1; 2; 3; 4] /\
    run σ bt = Some (eq, tr).
Proof.
  destruct (init Examples.scenario_store 0%nat 1%nat
              (Some [("A"%string, qz 1)]) (qz 1000) (qz 0) (qz 0))
    as [[σ bt]|] eqn:Hinit; [|by vm_compute in Hinit].
  vm_compute in Hinit. injection Hinit as <- <-.
  eexists _, _, _, _. split; [reflexivity|].
  repeat split; reflexivity.
Qed.

(** X3: in the logs [run] returns over an aligned object with 0/1
    signals, every trade record but the last is closed, and the last one
    is open exactly when the instrument's signal on the final calendar
    date is 1: a position open at the end stays open, with no exit
    fields. *)
Theorem open_trade_is_last (σ : Store) (bt : PortfolioBacktest)
    (items : dict ref) (eq : Series) (tr : dict (list Trade)) (t : ticker) :
  aligned σ bt = true ->
  binary_signals σ bt = true ->
  dicts σ !! data bt = Some items ->
  run σ bt = Some (eq, tr) ->
  t ∈ keys items ->
  let final := prev_signal σ bt t (length (master_index bt)) in
  exists log,
    dict_get tr t = Some log /\
    (final = f1 ->
     exists before r,
       log = before ++ [r] /\ Forall is_closed before /\
       exit_time r = None /\ exit_price r = None /\ proceeds r = None) /\
    (final <> f1 -> Forall is_closed log).
Proof.
  intros Hal Hbin Hitems Hrun Ht final.
  destruct (aligned_inv σ bt items Hal Hitems) as (_ & Hnd & _).
  destruct (run_inv σ bt items Hitems Hnd (shape_ok σ bt)
              (shape_ok_frame σ bt) (shape_ok_init σ bt items)
              (shape_ok_step σ bt items Hitems Hal Hbin) eq tr Hrun)
    as (st & _ & -> & HQ).
  destruct (HQ t Ht) as [_ (log & Hlog & Hsh)].
  destruct (run_log_ok σ bt items Hitems Hnd eq (trades st) Hrun t Ht)
    as (log' & Hlog' & Hall & _).
  rewrite Hlog in Hlog'. injection Hlog' as <-.
  exists log. split; [done|]. fold final in Hsh. unfold log_shape in Hsh.
  split.
  - intros E. rewrite E in Hsh. change (feqb f1 f1) with true in Hsh.
    destruct Hsh as (before & r & -> & Hbefore & Hopen).
    apply Forall_app in Hall as [_ Hr].
    rewrite Forall_singleton in Hr.
    unfold closed_ok in Hr. rewrite Hopen in Hr. destruct Hr as [Hpx Hpr].
    by exists before, r.
  - intros N. destruct (feqb final f1) eqn:E; [|done].
    by apply feqb_fin_inv in E.
Qed.

(** Witness of [open_trade_is_last]: the five-date scenario, whose final
    signal is 0. *)
Lemma open_trade_is_last_witness :
  exists σ bt tr log,
    dict_get tr "A" = Some log /\
    (prev_signal σ bt "A" (length (master_index bt)) = f1 ->
     exists before r,
       log = before ++ [r] /\ Forall is_closed before /\
       exit_time r = None /\ exit_price r = None /\ proceeds r = None) /\
    (prev_signal σ bt "A" (length (master_index bt)) <> f1 ->
     Forall is_closed log).
Proof.
  destruct scenario_object
    as (σ & bt & eq & tr & _ & Hal & Hbin & Hitems & _ & Hrun).
  destruct (open_trade_is_last σ bt _ eq tr "A" Hal Hbin Hitems Hrun
              (list_elem_of_here _ _)) as (log & H).
  by exists σ, bt, tr, log.
Defined.

(** ** The trade report *)

Lemma run_log_shape σ bt items eq tr t :
  aligned σ bt = true ->
  binary_signals σ bt = true ->
  dicts σ !! data bt = Some items ->
  run σ bt = Some (eq, tr) ->
  t ∈ keys items ->
  exists log,
    dict_get tr t = Some log /\
    Forall (closed_ok σ bt t) log /\
    log_shape (prev_signal σ bt t (length (master_index bt))) log.
Proof.
  intros Hal Hbin Hitems Hrun Ht.
  destruct (aligned_inv σ bt items Hal Hitems) as (_ & Hnd & _).
  destruct (run_inv σ bt items Hitems Hnd (shape_ok σ bt)
              (shape_ok_frame σ bt) (shape_ok_init σ bt items)
              (shape_ok_step σ bt items Hitems Hal Hbin) eq tr Hrun)
    as (st & _ & -> & HQ).
  destruct (HQ t Ht) as [_ (log & Hlog & Hsh)].
  destruct (run_log_ok σ bt items Hitems Hnd eq (trades st) Hrun t Ht)
    as (log' & Hlog' & Hall & _).
  rewrite Hlog in Hlog'. injection Hlog' as <-. by exists log.
Qed.

Lemma closed_has_fields σ bt t r :
  closed_ok σ bt t r -> is_closed r ->
  has_proceeds r = true /\ has_exit_time r = true.
Proof.
  unfold closed_ok, is_closed, has_proceeds, has_exit_time.
  destruct (exit_time r); [|done].
  intros (price & _ & _ & ->) _. done.
Qed.

Lemma open_has_no_fields σ bt t r :
  closed_ok σ bt t r -> exit_time r = None -> has_proceeds r = false.
Proof.
  unfold closed_ok, has_proceeds. intros H E. rewrite E in H.
  by destruct H as [_ ->].
Qed.

(** X4: the report of an instrument raises exactly when its log is a
    single trade that is still open: no record then holds the key
    ['proceeds'], and the frame built from the log has no such column.
    With no trade the report is skipped, and with a closed trade in the
    log it is produced. *)
Theorem report_raises_on_lone_open_trade (σ : Store)
    (bt : PortfolioBacktest) (items : dict ref) (eq : Series)
    (tr : dict (list Trade)) (t : ticker) :
  aligned σ bt = true ->
  binary_signals σ bt = true ->
  dicts σ !! data bt = Some items ->
  run σ bt = Some (eq, tr) ->
  t ∈ keys items ->
  exists log,
    dict_get tr t = Some log /\
    (trade_report log = None <-> exists r, log = [r] /\ exit_time r = None) /\
    (trade_report log = Some None <-> log = []).
Proof.
  intros Hal Hbin Hitems Hrun Ht.
  destruct (run_log_shape σ bt items eq tr t Hal Hbin Hitems Hrun Ht)
    as (log & Hlog & Hall & Hsh).
  exists log. split; [done|].
  assert (Hfirst : forall r0 rest,
             closed_ok σ bt t r0 -> is_closed r0 ->
             exists rep, trade_report (r0 :: rest) = Some (Some rep)).
  { intros r0 rest Hc Hcl.
    destruct (closed_has_fields σ bt t r0 Hc Hcl) as [Hp Hx].
    unfold trade_report, pnl_column, holding_days. cbn [existsb].
    rewrite Hp, Hx. cbn [orb mbind option_bind]. by eexists. }
  unfold log_shape in Hsh.
  destruct (feqb _ f1).
  - destruct Hsh as (before & r & -> & Hbefore & Hopen).
    apply Forall_app in Hall as [Hcb Hr]. rewrite Forall_singleton in Hr.
    destruct before as [|r0 before].
    + pose proof (open_has_no_fields σ bt t r Hr Hopen) as Hp.
      simpl. unfold trade_report, pnl_column. cbn [existsb]. rewrite Hp.
      simpl. split; [|done]. split; [by exists r|done].
    + apply Forall_cons in Hcb as [Hc0 _], Hbefore as [Hcl0 _].
      destruct (Hfirst r0 (before ++ [r]) Hc0 Hcl0) as (rep & Hrep).
      change ((r0 :: before) ++ [r]) with (r0 :: before ++ [r]).
      rewrite Hrep. split; split; try done.
      intros (r1 & E & _). apply (f_equal length) in E.
      simpl in E. rewrite length_app in E. simpl in E. lia.
  - destruct log as [|r0 log].
    + simpl. split; [|done]. split; [done|]. by intros (r & E & _).
    + apply Forall_cons in Hall as [Hc0 _], Hsh as [Hcl0 _].
      destruct (Hfirst r0 log Hc0 Hcl0) as (rep & Hrep). rewrite Hrep.
      split; split; try done.
      intros (r1 & [= -> ->] & E). exfalso. by apply Hcl0.
Qed.

(** Witness of [report_raises_on_lone_open_trade]: the five-date
    scenario, whose single trade is closed. *)
Lemma report_raises_on_lone_open_trade_witness :
  exists tr log,
    dict_get tr "A" = Some log /\
    (trade_report log = None <-> exists r, log = [r] /\ exit_time r = None) /\
    (trade_report log = Some None <-> log = []).
Proof.
  destruct scenario_object
    as (σ & bt & eq & tr & _ & Hal & Hbin & Hitems & _ & Hrun).
  destruct (report_raises_on_lone_open_trade σ bt _ eq tr "A" Hal Hbin
              Hitems Hrun (list_elem_of_here _ _)) as (log & H).
  by exists tr, log.
Defined.

(** ** The constructor *)

Lemma elem_of_insert_date (d x : date) (l : list date) :
  x ∈ insert_date d l <-> x = d \/ x ∈ l.
Proof.
  induction l as [|y l IH]; simpl.
  - rewrite list_elem_of_singleton. split; [by left|].
    intros [?|?%elem_of_nil]; done.
  - destruct (Z.ltb d y); [by rewrite elem_of_cons|].
    destruct (Z.eqb_spec d y) as [->|N].
    + split; [by right|]. intros [->|?]; [apply list_elem_of_here|done].
    + rewrite !elem_of_cons, IH. tauto.
Qed.

Lemma elem_of_sorted_union (idxs : list (list date)) (x : date) :
  x ∈ sorted_union idxs <-> exists idx, idx ∈ idxs /\ x ∈ idx.
Proof.
  unfold sorted_union.
  assert (G : forall acc,
            x ∈ fold_left (fun acc idx =>
                             fold_left (fun a d => insert_date d a) idx acc)
                          idxs acc
            <-> x ∈ acc \/ exists idx, idx ∈ idxs /\ x ∈ idx).
  { induction idxs as [|idx idxs IH]; intros acc; simpl.
    - split; [by left|]. intros [?|(? & ?%elem_of_nil & _)]; done.
    - rewrite IH.
      assert (F : forall a, x ∈ fold_left (fun a d => insert_date d a) idx a
                            <-> x ∈ a \/ x ∈ idx).
      { clear. induction idx as [|d idx IHi]; intros a; simpl.
        - split; [by left|]. intros [?|?%elem_of_nil]; done.
        - rewrite IHi, elem_of_insert_date, elem_of_cons. tauto. }
      rewrite F. split.
      + intros [[?|?]|(i & Hi & Hx)]; [by left| |].
        * right. exists idx. split; [apply list_elem_of_here|done].
        * right. exists i. split; [by apply list_elem_of_further|done].
      + intros [?|(i & [->|Hi]%elem_of_cons & Hx)].
        * by left; left.
        * by left; right.
        * right. by exists i. }
  rewrite G. split; [|by right]. intros [?%elem_of_nil|?]; done.
Qed.

Lemma mapM_index_elem (frs : list Series) (d : dict ref) idxs :
  mapM (fun kv => index <$> frs !! kv.2) d = Some idxs ->
  forall idx, idx ∈ idxs <->
    exists t r df, (t, r) ∈ d /\ frs !! r = Some df /\ idx = index df.
Proof.
  intros H%mapM_Some. induction H as [|[t r] i d idxs Hx _ IH]; intros idx.
  - split; [by intros ?%elem_of_nil|]. by intros (? & ? & ? & ?%elem_of_nil & _).
  - simpl in Hx. destruct (frs !! r) as [df|] eqn:Hdf; [|done].
    injection Hx as <-. rewrite elem_of_cons, IH. split.
    + intros [->|(t0 & r0 & df0 & Hin & Hf & ->)].
      * exists t, r, df. split; [apply list_elem_of_here|done].
      * exists t0, r0, df0. split; [by apply list_elem_of_further|done].
    + intros (t0 & r0 & df0 & [[= -> ->]|Hin]%elem_of_cons & Hf & ->).
      * left. rewrite Hdf in Hf. by injection Hf as ->.
      * right. by exists t0, r0, df0.
Qed.

(** X5: [__init__] keeps the two dictionaries it was given, builds an
    ascending master calendar that holds exactly the labels of the
    caller's price frames, and leaves every instrument with a price frame
    and a signal series indexed by that calendar. *)
Theorem constructor_aligns (σ0 σ : Store) (data_dict signals_dict : ref)
    (w : option (dict (float Qc))) (ic sl co : float Qc)
    (bt : PortfolioBacktest) (d0 : dict ref) :
  data_dict <> signals_dict ->
  dicts σ0 !! data_dict = Some d0 ->
  NoDup (keys d0) ->
  init σ0 data_dict signals_dict w ic sl co = Some (σ, bt) ->
  data bt = data_dict /\ signals bt = signals_dict /\
  aligned σ bt = true /\
  forall x, x ∈ master_index bt <->
            exists t df, deref σ0 data_dict t = Some df /\ x ∈ index df.
Proof.
  intros Hne Hd0 Hnd Hinit.
  destruct (init_aligned _ _ _ _ _ _ _ _ _ _ Hne Hd0 Hnd Hinit) as [Hal _].
  unfold init in Hinit. rewrite Hd0 in Hinit.
  cbn [mbind option_bind] in Hinit.
  destruct (mapM _ d0) as [idxs|] eqn:Hm; [|done].
  cbn [mbind option_bind] in Hinit.
  destruct (foldM _ (keys d0) σ0) as [σ'|]; [|done].
  cbn [mbind option_bind] in Hinit. injection Hinit as <- <-.
  split; [done|]. split; [done|]. split; [done|].
  intros x. cbn [master_index]. rewrite elem_of_sorted_union. split.
  - intros (idx & Hidx & Hx).
    apply (mapM_index_elem _ _ _ Hm) in Hidx as (t & r & df & Hin & Hf & ->).
    exists t, df. split; [|done]. unfold deref. rewrite Hd0.
    cbn [mbind option_bind]. by rewrite (dict_get_elem_of d0 t r Hnd Hin).
  - intros (t & df & Hdf & Hx). exists (index df). split; [|done].
    apply (mapM_index_elem _ _ _ Hm).
    unfold deref in Hdf. rewrite Hd0 in Hdf. cbn [mbind option_bind] in Hdf.
    destruct (dict_get d0 t) as [r|] eqn:Hr; [|done].
    exists t, r, df. split; [|done].
    clear -Hr. induction d0 as [|[k v] d0 IH]; [done|]. simpl in Hr.
    destruct (String.eqb_spec k t) as [->|N].
    + injection Hr as ->. apply list_elem_of_here.
    + apply list_elem_of_further. by apply IH.
Qed.

(** The two-instrument input, for the witnesses below. *)
Lemma gap_object :
  exists σ bt,
    Examples.gap_init = Some (σ, bt) /\
    init Examples.gap_store 0%nat 1%nat None (qz 1000) (qfrac 5 10000) (qz 0)
    = Some (σ, bt) /\
    dicts Examples.gap_store !! 0%nat
    = Some [("A"%string, 0%nat); ("B"%string, 1%nat)] /\
    NoDup (keys [("A"%string, 0%nat); ("B"%string, 1%nat)]) /\
    dicts σ !! data bt = Some [("A"%string, 4%nat); ("B"%string, 6%nat)] /\
    master_index bt = [1; 2].
Proof.
  unfold Examples.gap_init.
  destruct (init _ _ _ _ _ _ _) as [[σ bt]|] eqn:E; [|by vm_compute in E].
  exists σ, bt. split; [done|]. split; [done|].
  vm_compute in E. injection E as <- <-.
  repeat split; try reflexivity.
  apply NoDup_cons. split; [|apply NoDup_singleton].
  by intros [=]%list_elem_of_singleton.
Qed.

(** Witness of [constructor_aligns]: two instruments with different
    calendars. *)
Lemma constructor_aligns_witness :
  exists σ bt,
    data bt = 0%nat /\ signals bt = 1%nat /\
    aligned σ bt = true /\
    forall x, x ∈ master_index bt <->
              exists t df, deref Examples.gap_store 0%nat t = Some df
                           /\ x ∈ index df.
Proof.
  destruct gap_object as (σ & bt & _ & Hinit & Hd0 & Hnd & _).
  exists σ, bt.
  exact (constructor_aligns Examples.gap_store σ 0 1 None _ _ _ bt _
           ltac:(done) Hd0 Hnd Hinit).
Defined.

Lemma align_one_contents data_dict signals_dict master σ t σ' :
  data_dict <> signals_dict ->
  align_one data_dict signals_dict master σ t = Some σ' ->
  (forall t0 f, t0 <> t ->
     (deref σ data_dict t0 = Some f -> deref σ' data_dict t0 = Some f) /\
     (deref σ signals_dict t0 = Some f -> deref σ' signals_dict t0 = Some f)) /\
  (forall df s,
     deref σ data_dict t = Some df ->
     deref σ signals_dict t = Some s ->
     deref σ' data_dict t = Some (reindex_ffill master df) /\
     deref σ' signals_dict t
     = Some (fillna_series f0 (reindex_ffill master s))).
Proof.
  intros Hne Hal.
  apply align_one_inv in Hal
    as (d & df & sd & s & Hd & (r & Hr & Hdf) & Hsd & (o & Ho & Hs) & Hfr & Hdi).
  assert (Hlt : (data_dict < length (dicts σ))%nat)
    by (by eapply lookup_lt_Some).
  assert (Hsd0 : dicts σ !! signals_dict = Some sd).
  { by rewrite list_lookup_insert_ne in Hsd. }
  assert (Hlts : (signals_dict < length (dicts σ))%nat)
    by (by eapply lookup_lt_Some).
  assert (Hdata' : dicts σ' !! data_dict
                   = Some (dict_set d t (length (frames σ)))).
  { rewrite Hdi. rewrite list_lookup_insert_ne by done.
    by rewrite list_lookup_insert_eq. }
  assert (Hsig' : dicts σ' !! signals_dict
                  = Some (dict_set sd t (S (length (frames σ))))).
  { rewrite Hdi. rewrite list_lookup_insert_eq; [done|].
    by rewrite length_insert. }
  assert (Hold : forall i f, frames σ !! i = Some f -> frames σ' !! i = Some f).
  { intros i f Hi. rewrite Hfr, <- app_assoc. by apply lookup_app_l_Some. }
  split.
  - intros t0 f N. unfold deref. rewrite Hd, Hsd0, Hdata', Hsig'.
    cbn [mbind option_bind]. rewrite !dict_get_set_ne by done.
    split.
    + destruct (dict_get d t0); [|done]. cbn [mbind option_bind]. apply Hold.
    + destruct (dict_get sd t0); [|done]. cbn [mbind option_bind]. apply Hold.
  - intros df1 s1 Hdf1 Hs1. unfold deref in Hdf1, Hs1.
    rewrite Hd in Hdf1. rewrite Hsd0 in Hs1.
    cbn [mbind option_bind] in Hdf1, Hs1.
    rewrite Hr in Hdf1. rewrite Ho in Hs1.
    cbn [mbind option_bind] in Hdf1, Hs1.
    rewrite Hdf in Hdf1. injection Hdf1 as <-.
    apply (lookup_app_l_Some _ [reindex_ffill master df]) in Hs1.
    rewrite Hs1 in Hs. injection Hs as <-.
    unfold deref. rewrite Hdata', Hsig'. cbn [mbind option_bind].
    rewrite !dict_get_set_eq. cbn [mbind option_bind]. rewrite Hfr. split.
    + rewrite <- app_assoc. by apply list_lookup_middle.
    + apply list_lookup_middle. rewrite length_app. simpl. lia.
Qed.

Lemma align_all_contents data_dict signals_dict master :
  data_dict <> signals_dict ->
  forall l σ σ',
    NoDup l ->
    foldM (align_one data_dict signals_dict master) l σ = Some σ' ->
    forall t df s,
      deref σ data_dict t = Some df ->
      deref σ signals_dict t = Some s ->
      deref σ' data_dict t
      = Some (if bool_decide (t ∈ l) then reindex_ffill master df else df) /\
      deref σ' signals_dict t
      = Some (if bool_decide (t ∈ l)
              then fillna_series f0 (reindex_ffill master s) else s).
Proof.
  intros Hne l. induction l as [|t1 l IH]; intros σ σ' Hnd H t df s Hdf Hs.
  - injection H as <-. by rewrite bool_decide_eq_false_2 by (by intros ?%elem_of_nil).
  - cbn [foldM] in H.
    destruct (align_one _ _ _ σ t1) as [σ1|] eqn:E; [|done].
    cbn [mbind option_bind] in H.
    apply NoDup_cons in Hnd as [Hfresh Hnd].
    destruct (align_one_contents _ _ _ _ _ _ Hne E) as [Hother Hself].
    destruct (decide (t = t1)) as [->|N].
    + destruct (Hself df s Hdf Hs) as [Hdf1 Hs1].
      destruct (IH σ1 σ' Hnd H t1 _ _ Hdf1 Hs1) as [Hd' Hs'].
      rewrite bool_decide_eq_false_2 in Hd', Hs' by done.
      rewrite bool_decide_eq_true_2 by apply list_elem_of_here. done.
    + destruct (Hother t df N) as [Hdf1 _].
      destruct (Hother t s N) as [_ Hs1].
      destruct (IH σ1 σ' Hnd H t _ _ (Hdf1 Hdf) (Hs1 Hs)) as [Hd' Hs'].
      rewrite Hd', Hs'.
      destruct (bool_decide (t ∈ l)) eqn:B.
      * apply bool_decide_eq_true in B.
        rewrite bool_decide_eq_true_2 by (by apply list_elem_of_further). done.
      * apply bool_decide_eq_false in B.
        rewrite bool_decide_eq_false_2; [done|].
        by intros [?|?]%elem_of_cons.
Qed.

Lemma asof_last_known (s : Series) (d : date) : asof s d = last_known s d.
Proof.
  unfold asof, last_known.
  assert (G : forall acc,
            fold_left (fun acc c => if Z.leb c.1 d then c.2 else acc) s acc
            = match last (filter (fun c => c.1 <= d) s) with
              | Some c => c.2
              | None => acc
              end).
  { induction s as [|c s IH]; intros acc; [done|].
    cbn [fold_left]. rewrite IH.
    destruct (Z.leb_spec c.1 d) as [Hle|Hgt].
    - rewrite filter_cons_True by done. rewrite last_cons.
      by destruct (last (filter _ s)).
    - rewrite filter_cons_False by lia. done. }
  apply G.
Qed.

Lemma at_map_labels (g : date -> float Qc) (m : list date) (d : date) :
  d ∈ m -> at_ (map (fun x => (x, g x)) m) d = Some (g d).
Proof.
  induction m as [|x m IH]; simpl.
  - by intros ?%elem_of_nil.
  - intros Hin. destruct (Z.eqb_spec x d) as [->|N]; [done|].
    apply IH. apply elem_of_cons in Hin as [?|?]; [congruence|done].
Qed.

Lemma at_fillna_series (v : float Qc) (s : Series) (d : date) :
  at_ (fillna_series v s) d = fillna v <$> at_ s d.
Proof.
  induction s as [|[l c] s IH]; simpl; [done|].
  by destruct (Z.eqb l d).
Qed.

(** X6: after [__init__], on every calendar date the price of an
    instrument is the caller's price at the last label not later than
    the date, and NaN before the first label; its signal is the caller's
    signal at the last such label, and 0 where that is missing.  Nothing
    later than the date is read, and the caller's frames keep their
    contents. *)
Theorem constructor_forward_fills (σ0 σ : Store)
    (data_dict signals_dict : ref) (w : option (dict (float Qc)))
    (ic sl co : float Qc) (bt : PortfolioBacktest) (d0 : dict ref)
    (t : ticker) (df s : Series) (d : date) :
  data_dict <> signals_dict ->
  dicts σ0 !! data_dict = Some d0 ->
  NoDup (keys d0) ->
  init σ0 data_dict signals_dict w ic sl co = Some (σ, bt) ->
  deref σ0 data_dict t = Some df ->
  deref σ0 signals_dict t = Some s ->
  d ∈ master_index bt ->
  price_at σ bt t d = Some (last_known df d) /\
  sig_at σ bt t d = Some (fillna f0 (last_known s d)) /\
  (forall r f, frames σ0 !! r = Some f -> frames σ !! r = Some f).
Proof.
  intros Hne Hd0 Hnd Hinit Hdf Hs Hd.
  assert (Ht : t ∈ keys d0).
  { unfold deref in Hdf. rewrite Hd0 in Hdf. cbn [mbind option_bind] in Hdf.
    destruct (dict_get d0 t) eqn:E; [|done]. by eapply dict_get_Some_keys. }
  unfold init in Hinit. rewrite Hd0 in Hinit.
  cbn [mbind option_bind] in Hinit.
  destruct (mapM _ d0) as [idxs|] eqn:Hm; [|done].
  cbn [mbind option_bind] in Hinit.
  destruct (foldM _ (keys d0) σ0) as [σ'|] eqn:F; [|done].
  cbn [mbind option_bind] in Hinit. injection Hinit as <- <-.
  cbn [master_index] in Hd.
  destruct (align_all_contents data_dict signals_dict (sorted_union idxs)
              Hne (keys d0) σ0 σ' Hnd F t df s Hdf Hs) as [Hdf' Hs'].
  rewrite bool_decide_eq_true_2 in Hdf', Hs' by done.
  unfold price_at, sig_at. cbn [data signals]. rewrite Hdf', Hs'.
  cbn [mbind option_bind]. split; [|split].
  - unfold reindex_ffill. rewrite (at_map_labels (asof df)) by done.
    by rewrite asof_last_known.
  - rewrite at_fillna_series. unfold reindex_ffill.
    rewrite (at_map_labels (asof s)) by done. simpl.
    by rewrite asof_last_known.
  - clear -F. revert σ0 F.
    induction (keys d0) as [|t1 l IH]; intros σ0 F r f Hr.
    + by injection F as <-.
    + cbn [foldM] in F.
      destruct (align_one _ _ _ σ0 t1) as [σ1|] eqn:E; [|done].
      cbn [mbind option_bind] in F. eapply IH; [done|].
      apply align_one_inv in E as (? & ? & ? & ? & _ & _ & _ & _ & Hfr & _).
      rewrite Hfr, <- app_assoc. by apply lookup_app_l_Some.
Qed.

(** Witness of [constructor_forward_fills]: instrument B, observed from
    day 2 only, on day 1. *)
Lemma constructor_forward_fills_witness :
  exists σ bt,
    price_at σ bt "B" 1 = Some (last_known [(2, qz 20)] 1) /\
    sig_at σ bt "B" 1 = Some (fillna f0 (last_known [(2, qz 0)] 1)) /\
    (forall r f, frames Examples.gap_store !! r = Some f ->
                 frames σ !! r = Some f).
Proof.
  destruct gap_object as (σ & bt & _ & Hinit & Hd0 & Hnd & _ & Hm).
  exists σ, bt.
  apply (constructor_forward_fills Examples.gap_store σ 0 1 None _ _ _ bt _
           "B" [(2, qz 20)] [(2, qz 0)] 1 ltac:(done) Hd0 Hnd Hinit
           eq_refl eq_refl).
  rewrite Hm. apply list_elem_of_here.
Defined.

Lemma align_one_total data_dict signals_dict master σ t df s :
  data_dict <> signals_dict ->
  deref σ data_dict t = Some df -> ascending (index df) = true ->
  deref σ signals_dict t = Some s -> ascending (index s) = true ->
  is_Some (align_one data_dict signals_dict master σ t).
Proof.
  intros Hne Hdf Hadf Hs Has. unfold align_one.
  rewrite Hdf. cbn [mbind option_bind]. rewrite Hadf. cbn [negb].
  unfold alloc_frame, dict_store. cbn [frames dicts].
  unfold deref in Hdf, Hs.
  destruct (dicts σ !! data_dict) as [d|] eqn:Hd; [|done].
  destruct (dicts σ !! signals_dict) as [sd|] eqn:Hsd; [|done].
  cbn [mbind option_bind] in Hs.
  destruct (dict_get sd t) as [o|] eqn:Ho; [|done].
  cbn [mbind option_bind] in Hs.
  unfold deref. cbn [frames dicts].
  rewrite list_lookup_insert_ne by done. rewrite Hsd.
  cbn [mbind option_bind]. rewrite Ho. cbn [mbind option_bind].
  rewrite (lookup_app_l_Some _ _ _ _ Hs). cbn [mbind option_bind].
  rewrite Has. cbn [negb]. by eexists.
Qed.

Lemma align_all_total data_dict signals_dict master :
  data_dict <> signals_dict ->
  forall l σ,
    NoDup l ->
    (forall t, t ∈ l ->
       exists df s,
         deref σ data_dict t = Some df /\ ascending (index df) = true /\
         deref σ signals_dict t = Some s /\ ascending (index s) = true) ->
    is_Some (foldM (align_one data_dict signals_dict master) l σ).
Proof.
  intros Hne l. induction l as [|t1 l IH]; intros σ Hnd Hall.
  - by eexists.
  - apply NoDup_cons in Hnd as [Hfresh Hnd].
    destruct (Hall t1 (list_elem_of_here _ _)) as (df & s & Hdf & Ha & Hs & Hb).
    destruct (align_one_total data_dict signals_dict master σ t1 df s
                Hne Hdf Ha Hs Hb) as [σ1 E].
    cbn [foldM]. rewrite E. cbn [mbind option_bind].
    apply IH; [done|]. intros t Ht.
    destruct (Hall t (list_elem_of_further _ _ _ Ht))
      as (df' & s' & Hdf' & Ha' & Hs' & Hb').
    destruct (align_one_contents _ _ _ _ _ _ Hne E) as [Hother _].
    assert (N : t <> t1) by (by intros ->).
    exists df', s'. split; [by apply (Hother t df' N)|].
    split; [done|]. split; [by apply (Hother t s' N)|done].
Qed.

Lemma align_all_missing data_dict signals_dict master t :
  data_dict <> signals_dict ->
  forall l σ,
    (forall sd, dicts σ !! signals_dict = Some sd -> dict_get sd t = None) ->
    t ∈ l ->
    foldM (align_one data_dict signals_dict master) l σ = None.
Proof.
  intros Hne l. induction l as [|t1 l IH]; intros σ Hmiss Hin.
  - by apply elem_of_nil in Hin.
  - cbn [foldM].
    destruct (align_one _ _ _ σ t1) as [σ1|] eqn:E; [|done].
    cbn [mbind option_bind].
    apply align_one_inv in E
      as (d & df & sd & s & Hd & _ & Hsd & (o & Ho & _) & _ & Hdi).
    assert (Hlt : (data_dict < length (dicts σ))%nat)
      by (by eapply lookup_lt_Some).
    assert (Hsd0 : dicts σ !! signals_dict = Some sd)
      by (by rewrite list_lookup_insert_ne in Hsd).
    assert (Hlts : (signals_dict < length (dicts σ))%nat)
      by (by eapply lookup_lt_Some).
    pose proof (Hmiss sd Hsd0) as Hnone.
    apply elem_of_cons in Hin as [->|Hin]; [congruence|].
    apply IH; [|done]. intros sd' Hsd'. rewrite Hdi in Hsd'.
    rewrite list_lookup_insert_eq in Hsd' by (by rewrite length_insert).
    injection Hsd' as <-.
    destruct (decide (t1 = t)) as [->|N]; [congruence|].
    by rewrite dict_get_set_ne.
Qed.

(** X7: [__init__] raises nothing when the two dictionaries are different
    objects and every instrument of the price dictionary has a price
    frame and a signal series, both with ascending labels; and it raises
    ([KeyError]) as soon as one instrument has no entry in the signal
    dictionary. *)
Theorem constructor_returns_or_raises :
  (forall σ0 data_dict signals_dict w ic sl co d0,
     data_dict <> signals_dict ->
     dicts σ0 !! data_dict = Some d0 ->
     NoDup (keys d0) ->
     (forall t, t ∈ keys d0 ->
        exists df s,
          deref σ0 data_dict t = Some df /\ ascending (index df) = true /\
          deref σ0 signals_dict t = Some s /\ ascending (index s) = true) ->
     is_Some (init σ0 data_dict signals_dict w ic sl co)) /\
  (forall σ0 data_dict signals_dict w ic sl co d0 sd t,
     data_dict <> signals_dict ->
     dicts σ0 !! data_dict = Some d0 ->
     dicts σ0 !! signals_dict = Some sd ->
     t ∈ keys d0 ->
     dict_get sd t = None ->
     init σ0 data_dict signals_dict w ic sl co = None).
Proof.
  split.
  - intros σ0 data_dict signals_dict w ic sl co d0 Hne Hd0 Hnd Hall.
    unfold init. rewrite Hd0. cbn [mbind option_bind].
    assert (Hm : is_Some (mapM (fun kv => index <$> frames σ0 !! kv.2) d0)).
    { assert (Hfr : forall t r, (t, r) ∈ d0 -> is_Some (frames σ0 !! r)).
      { intros t r Hin.
        assert (Ht : t ∈ keys d0)
          by (unfold keys; apply list_elem_of_fmap; by exists (t, r)).
        destruct (Hall t Ht) as (df & _ & Hdf & _).
        unfold deref in Hdf. rewrite Hd0 in Hdf.
        cbn [mbind option_bind] in Hdf.
        rewrite (dict_get_elem_of d0 t r Hnd Hin) in Hdf. by exists df. }
      clear -Hfr. induction d0 as [|[t r] d0 IH]; [by eexists|].
      destruct (Hfr t r (list_elem_of_here _ _)) as [df Hdf].
      destruct IH as [idxs Hidxs].
      { intros t' r' Hin. apply (Hfr t' r'). by apply list_elem_of_further. }
      cbn [mapM]. simpl. rewrite Hdf. simpl. rewrite Hidxs. by eexists. }
    destruct Hm as [idxs ->]. cbn [mbind option_bind].
    destruct (align_all_total data_dict signals_dict (sorted_union idxs) Hne
                (keys d0) σ0 Hnd Hall) as [σ' ->].
    by eexists.
  - intros σ0 data_dict signals_dict w ic sl co d0 sd t Hne Hd0 Hsd Ht Hnone.
    unfold init. rewrite Hd0. cbn [mbind option_bind].
    destruct (mapM _ d0) as [idxs|]; [|done]. cbn [mbind option_bind].
    rewrite (align_all_missing data_dict signals_dict (sorted_union idxs) t
               Hne (keys d0) σ0); [done| |done].
    intros sd' Hsd'. rewrite Hsd in Hsd'. by injection Hsd' as <-.
Qed.

(** Witness of [constructor_returns_or_raises]: the two-instrument input,
    and the same input without a signal series for B. *)
Lemma constructor_returns_or_raises_witness :
  is_Some (init Examples.gap_store 0%nat 1%nat None (qz 1000) (qz 0) (qz 0)) /\
  init Examples.missing_signal_store 0%nat 1%nat None (qz 1000) (qz 0) (qz 0)
  = None.
Proof.
  destruct constructor_returns_or_raises as [Hret Hraise]. split.
  - apply (Hret Examples.gap_store 0%nat 1%nat None (qz 1000) (qz 0) (qz 0)
             [("A"%string, 0%nat); ("B"%string, 1%nat)]);
      [done|reflexivity| |].
    + apply NoDup_cons. split; [|apply NoDup_singleton].
      by intros [=]%list_elem_of_singleton.
    + intros t [->|[->|?%elem_of_nil]%elem_of_cons]%elem_of_cons; [| |done].
      * by exists [(1, qz 10); (2, qz 11)], [(1, qz 0); (2, qz 0)].
      * by exists [(2, qz 20)], [(2, qz 0)].
  - apply (Hraise Examples.missing_signal_store 0%nat 1%nat None (qz 1000)
             (qz 0) (qz 0) [("A"%string, 0%nat); ("B"%string, 1%nat)]
             [("A"%string, 2%nat)] "B"%string);
      [done|reflexivity|reflexivity| |reflexivity].
    apply list_elem_of_further, list_elem_of_here.
Defined.

(** X8: a simulator built with no weights gives every instrument the
    weight [1/n], and its [run] raises nothing: it returns an equity
    curve and the trade logs. *)
Theorem constructed_simulator_runs (σ0 σ : Store)
    (data_dict signals_dict : ref) (ic sl co : float Qc)
    (bt : PortfolioBacktest) (d0 : dict ref) :
  data_dict <> signals_dict ->
  dicts σ0 !! data_dict = Some d0 ->
  NoDup (keys d0) ->
  init σ0 data_dict signals_dict None ic sl co = Some (σ, bt) ->
  weights bt = map (fun t => (t, equal_weight (length d0))) (keys d0) /\
  initial_capital bt = ic /\ slippage bt = sl /\ commission bt = co /\
  is_Some (run σ bt).
Proof.
  intros Hne Hd0 Hnd Hinit.
  pose proof (init_run_total _ _ _ _ _ _ _ _ _ Hne Hd0 Hnd Hinit) as Hrun.
  unfold init in Hinit. rewrite Hd0 in Hinit.
  cbn [mbind option_bind] in Hinit.
  destruct (mapM _ d0) as [idxs|]; [|done].
  cbn [mbind option_bind] in Hinit.
  destruct (foldM _ (keys d0) σ0) as [σ'|]; [|done].
  cbn [mbind option_bind] in Hinit. by injection Hinit as <- <-.
Qed.

(** Witness of [constructed_simulator_runs]: the two-instrument input. *)
Lemma constructed_simulator_runs_witness :
  exists σ bt,
    weights bt = [("A"%string, equal_weight 2); ("B"%string, equal_weight 2)] /\
    initial_capital bt = qz 1000 /\ slippage bt = qfrac 5 10000 /\
    commission bt = qz 0 /\
    is_Some (run σ bt).
Proof.
  destruct gap_object as (σ & bt & _ & Hinit & Hd0 & Hnd & _).
  exists σ, bt.
  exact (constructed_simulator_runs Examples.gap_store σ 0 1 _ _ _ bt _
           ltac:(done) Hd0 Hnd Hinit).
Defined.

(** Witness of [undefined_price_poisons_equity]: instrument B on day 1. *)
Lemma undefined_price_poisons_equity_witness :
  exists σ bt eq tr,
    run σ bt = Some (eq, tr) /\
    price_at σ bt "B" 1 = Some NaN /\
    at_ eq 1 = Some NaN.
Proof.
  destruct gap_object as (σ & bt & _ & Hinit & _ & _ & Hitems & Hm).
  destruct (run σ bt) as [[eq tr]|] eqn:Hrun.
  2:{ exfalso. vm_compute in Hinit. injection Hinit as <- <-.
      by vm_compute in Hrun. }
  assert (Hp : price_at σ bt "B" 1 = Some NaN).
  { vm_compute in Hinit. by injection Hinit as <- <-. }
  exists σ, bt, eq, tr. split; [done|]. split; [done|].
  apply (undefined_price_poisons_equity σ bt _ eq tr 0 1 "B" 6 Hitems);
    try done.
  - apply NoDup_cons. split; [|apply NoDup_singleton].
    by intros [=]%list_elem_of_singleton.
  - rewrite Hm. apply NoDup_cons. split; [|apply NoDup_singleton].
    by intros [=]%list_elem_of_singleton.
  - by rewrite Hm.
  - apply list_elem_of_further, list_elem_of_here.
Defined.

(** ** A run without signals *)

Lemma shift_from_cells (s : Series) :
  forall pv dt v,
    at_ (shift_from pv s) dt = Some v ->
    v = pv \/ exists c, c ∈ s /\ v = c.2.
Proof.
  induction s as [|[l x] s IH]; intros pv dt v H; [done|].
  simpl in H. destruct (Z.eqb l dt).
  - left. by injection H.
  - destruct (IH _ _ _ H) as [->|(c & Hc & ->)].
    + right. exists (l, x). split; [apply list_elem_of_here|done].
    + right. exists c. split; [by apply list_elem_of_further|done].
Qed.

Lemma read_inputs_flat σ bt dt t r s price sig prev :
  deref σ (signals bt) t = Some s ->
  all_flat s ->
  read_inputs σ bt dt t r = Some (price, sig, prev) ->
  (exists df, frames σ !! r = Some df /\ at_ df dt = Some price) /\
  sig = f0 /\ (prev = f0 \/ prev = NaN).
Proof.
  intros Hs Hflat Hread. unfold read_inputs in Hread. rewrite Hs in Hread.
  destruct (frames σ !! r) as [df|]; [|done].
  cbn [mbind option_bind] in Hread.
  destruct (at_ df dt) as [p|] eqn:Hp; [|done].
  cbn [mbind option_bind] in Hread.
  destruct (at_ s dt) as [sg|] eqn:Hsig; [|done].
  cbn [mbind option_bind] in Hread.
  unfold all_flat in Hflat. rewrite Forall_forall in Hflat.
  assert (Hsg : sg = f0).
  { apply at_elem_of in Hsig. apply (Hflat _ Hsig). }
  destruct (master_index bt) as [|first rest]; [done|].
  destruct (negb (Z.eqb dt first)).
  - destruct (at_ (shift1 s) dt) as [pv|] eqn:Hpv; [|done].
    cbn [mbind option_bind] in Hread. injection Hread as <- <- <-.
    split; [by exists df|]. split; [done|].
    apply shift_from_cells in Hpv as [->|(c & Hc & ->)]; [by right|].
    left. apply (Hflat _ Hc).
  - cbn [mbind option_bind] in Hread. injection Hread as <- <- <-.
    split; [by exists df|]. split; [done|]. by left.
Qed.

Lemma trade_step_flat bt dt t price prev st :
  prev = f0 \/ prev = NaN ->
  trade_step bt dt t price f0 prev st = Some st.
Proof. by intros [->| ->]. Qed.

Section FlatRun.
Variables (σ : Store) (bt : PortfolioBacktest) (items : dict ref).
Hypothesis Hitems : dicts σ !! data bt = Some items.
Hypothesis Hflat :
  forall t r, (t, r) ∈ items ->
    exists s, deref σ (signals bt) t = Some s /\ all_flat s.

Lemma flat_instruments dt st :
  forall ts pv st' pv',
    (forall x, x ∈ ts -> x ∈ items) ->
    foldM (instrument_step σ bt dt) ts (st, pv) = Some (st', pv') ->
    st' = st.
Proof using Hflat.
  induction ts as [|[t r] ts IH]; intros pv st' pv' Hsub H.
  - by injection H as <- _.
  - cbn [foldM] in H.
    destruct (instrument_step σ bt dt (st, pv) (t, r)) as [[st1 pv1]|] eqn:E;
      [|done].
    cbn [mbind option_bind] in H.
    apply instrument_step_inv in E
      as (price & sig & prev & sh & Hread & Hstep & _ & _).
    destruct (Hflat t r (Hsub _ (list_elem_of_here _ _))) as (s & Hs & Hfl).
    destruct (read_inputs_flat σ bt dt t r s price sig prev Hs Hfl Hread)
      as (_ & -> & Hprev).
    rewrite (trade_step_flat bt dt t price prev st Hprev) in Hstep.
    injection Hstep as <-.
    eapply IH; [|done]. intros x Hx. by apply Hsub, list_elem_of_further.
Qed.

Lemma flat_dates ds :
  forall st eq st' eq',
    foldM (date_step σ bt) ds (st, eq) = Some (st', eq') -> st' = st.
Proof using Hitems Hflat.
  induction ds as [|d ds IH]; intros st eq st' eq' H.
  - by injection H as <- _.
  - cbn [foldM] in H.
    destruct (date_step σ bt (st, eq) d) as [[st1 eq1]|] eqn:E; [|done].
    cbn [mbind option_bind] in H.
    apply (date_step_inv σ bt items Hitems) in E as (pv & Hfold & _).
    apply flat_instruments in Hfold; [|done]. subst st1. by eapply IH.
Qed.

Lemma flat_value dt (ks : list ticker) :
  forall ts pv st' pv',
    (forall x, x ∈ ts -> x ∈ items) ->
    (forall t r, (t, r) ∈ ts -> t ∈ ks) ->
    (forall t r df, (t, r) ∈ ts -> frames σ !! r = Some df ->
                    exists p, at_ df dt = Some (Fin p)) ->
    pv = f0 ->
    foldM (instrument_step σ bt dt) ts (initial_state bt ks, pv)
    = Some (st', pv') ->
    pv' = f0.
Proof using Hflat.
  induction ts as [|[t r] ts IH]; intros pv st' pv' Hsub Hks Hfin Hpv H.
  - injection H as _ <-. done.
  - cbn [foldM] in H.
    destruct (instrument_step σ bt dt (initial_state bt ks, pv) (t, r))
      as [[st1 pv1]|] eqn:E; [|done].
    cbn [mbind option_bind] in H.
    apply instrument_step_inv in E
      as (price & sig & prev & sh & Hread & Hstep & Hsh & ->).
    destruct (Hflat t r (Hsub _ (list_elem_of_here _ _))) as (s & Hs & Hfl).
    destruct (read_inputs_flat σ bt dt t r s price sig prev Hs Hfl Hread)
      as ((df & Hdf & Hprice) & -> & Hprev).
    rewrite (trade_step_flat bt dt t price prev _ Hprev) in Hstep.
    injection Hstep as <-.
    cbn [initial_state shares] in Hsh.
    rewrite dict_get_map_const in Hsh
      by (apply (Hks t r), list_elem_of_here).
    injection Hsh as <-.
    destruct (Hfin t r df (list_elem_of_here _ _) Hdf) as (p & Hp).
    rewrite Hprice in Hp. injection Hp as ->.
    eapply (IH _ st' pv'); [| | | |exact H].
    + intros x Hx. by apply Hsub, list_elem_of_further.
    + intros t' r' Hin. apply (Hks t' r'). by apply list_elem_of_further.
    + intros t' r' df' Hin. apply (Hfin t' r' df').
      by apply list_elem_of_further.
    + rewrite Hpv. unfold f0. simpl. f_equal; try ring.
Qed.
End FlatRun.

(** X9: when every signal series is flat, [run] opens no trade, and on
    every calendar date on which all the prices are finite numbers the
    equity recorded is the initial capital. *)
Theorem flat_signals_keep_capital (σ : Store) (bt : PortfolioBacktest)
    (items : dict ref) (eq : Series) (tr : dict (list Trade)) (c : Qc) :
  dicts σ !! data bt = Some items ->
  NoDup (master_index bt) ->
  (forall t r, (t, r) ∈ items ->
     exists s, deref σ (signals bt) t = Some s /\ all_flat s) ->
  initial_capital bt = Fin c ->
  run σ bt = Some (eq, tr) ->
  tr = map (fun t => (t, [])) (keys items) /\
  forall dt,
    dt ∈ master_index bt ->
    (forall t r df, (t, r) ∈ items -> frames σ !! r = Some df ->
                    exists p, at_ df dt = Some (Fin p)) ->
    at_ eq dt = Some (Fin c).
Proof.
  intros Hitems Hmnd Hflat Hcap Hrun.
  unfold run in Hrun. rewrite Hitems in Hrun. cbn [mbind option_bind] in Hrun.
  destruct (foldM _ _ _) as [[st eq1]|] eqn:F; [|done].
  cbn [mbind option_bind] in Hrun. injection Hrun as <- <-.
  pose proof (flat_dates σ bt items Hitems Hflat _ _ _ _ _ F) as ->.
  split; [done|].
  intros dt Hdt Hfin.
  apply list_elem_of_split in Hdt as (ds1 & ds2 & Hm).
  rewrite Hm in F, Hmnd. rewrite foldM_app in F.
  destruct (foldM _ ds1 _) as [[st0 eq0]|] eqn:F0; [|done].
  cbn [mbind option_bind foldM] in F.
  destruct (date_step σ bt (st0, eq0) dt) as [[st1 eq2]|] eqn:E; [|done].
  cbn [mbind option_bind] in F.
  pose proof (flat_dates σ bt items Hitems Hflat _ _ _ _ _ F0) as ->.
  destruct (dates_keep_equity _ _ _ _ _ _ _ F0) as [Hidx0 _].
  destruct (dates_keep_equity _ _ _ _ _ _ _ F) as [_ Hat].
  apply NoDup_app in Hmnd as (_ & _ & Hmnd).
  apply NoDup_cons in Hmnd as [Hfresh _].
  rewrite (Hat dt Hfresh).
  apply (date_step_inv σ bt items Hitems) in E as (pv & Hfold & ->).
  pose proof (flat_instruments σ bt items Hflat dt _ items _ _ _
                (fun x H => H) Hfold) as ->.
  assert (Hpv : pv = f0).
  { eapply (flat_value σ bt items Hflat dt (keys items) items f0);
      [done| |exact Hfin|done|exact Hfold].
    intros t r Hin. unfold keys. apply list_elem_of_fmap. by exists (t, r). }
  rewrite Hpv. cbn [initial_state portfolio_cash]. rewrite Hcap.
  replace (fadd (Fin c) f0) with (Fin c)
    by (unfold f0; simpl; f_equal; ring).
  apply at_set_loc_eq. rewrite Hidx0. unfold index.
  rewrite map_map. simpl. rewrite map_id.
  apply elem_of_app. right. apply list_elem_of_here.
Qed.

(** Witness of [flat_signals_keep_capital]: the two-instrument input on
    day 2, when both prices are defined. *)
Lemma flat_signals_keep_capital_witness :
  exists eq tr,
    Examples.gap_run = Some (eq, tr) /\
    tr = [("A"%string, []); ("B"%string, [])] /\
    at_ eq 2 = Some (qz 1000).
Proof.
  unfold Examples.gap_run, Examples.gap_init.
  destruct (init _ _ _ _ _ _ _) as [[σ bt]|] eqn:Hinit;
    [|by vm_compute in Hinit].
  vm_compute in Hinit. injection Hinit as <- <-.
  cbn [mbind option_bind fst snd].
  match goal with |- context [run ?s ?b] => set (σ := s); set (bt := b) end.
  destruct (run σ bt) as [[eq tr]|] eqn:Hrun; [|by vm_compute in Hrun].
  exists eq, tr. split; [done|].
  assert (Hitems : dicts σ !! data bt
                   = Some [("A"%string, 4%nat); ("B"%string, 6%nat)])
    by reflexivity.
  assert (Hmnd : NoDup (master_index bt)).
  { apply NoDup_cons. split; [|apply NoDup_singleton].
    by intros [=]%list_elem_of_singleton. }
  assert (Hflat : forall t r,
             (t, r) ∈ [("A"%string, 4%nat); ("B"%string, 6%nat)] ->
             exists s, deref σ (signals bt) t = Some s /\ all_flat s).
  { intros t r [[= -> ->]|[[= -> ->]|?%elem_of_nil]%elem_of_cons]%elem_of_cons;
      [| |done]; (eexists; split; [reflexivity|by repeat constructor]). }
  destruct (flat_signals_keep_capital σ bt _ eq tr (Q2Qc (inject_Z 1000))
              Hitems Hmnd Hflat eq_refl Hrun) as [Htr Heq].
  split; [done|]. apply Heq.
  - apply list_elem_of_further, list_elem_of_here.
  - intros t r df
      [[= -> ->]|[[= -> ->]|?%elem_of_nil]%elem_of_cons]%elem_of_cons
      Hdf; [| |done]; vm_compute in Hdf; injection Hdf as <-; by eexists.
Defined.

(** ** More on the signal generators *)

Section GeneratorShape.
Import Strategies.

Lemma index_emit {A} (step : A -> Z -> Z) (rows : list (date * A)) :
  forall p, index (emit step rows p) = map fst rows.
Proof.
  induction rows as [|[t a] rows IH]; intros p; [done|].
  unfold index in *. simpl. by rewrite IH.
Qed.






End GeneratorShape.

(** ** The generators as latches

    Each generator's loop opens on an entry row when flat and closes on
    an exit row when long.  When no row is both, the position after a
    row is long exactly when an entry row lies at or before it with no
    exit row since. *)

Section Latch.
Import Strategies.
Context {A : Type} (E X : A -> bool) (step : A -> Z -> Z).
Hypothesis step_latch : forall a p,
  step a p = if Z.eqb p 0 && E a then 1
             else if Z.eqb p 1 && X a then 0 else p.

Lemma latch_pos (rows : list (date * A)) :
  (forall k a, snd <$> rows !! k = Some a -> E a = true -> X a = false) ->
  forall i, (i < length rows)%nat ->
    let p := pos_after step (take (S i) rows) 0 in
    (p = 0 \/ p = 1) /\ (p = 1 <-> long_since E X rows i).
Proof using step_latch.
  intros Hex. induction i as [|i IH]; intros Hi p.
  - destruct (lookup_lt_is_Some_2 rows 0 Hi) as [[t a] H0].
    unfold p. rewrite (pos_after_snoc step rows 0 0 t a H0).
    cbn [take pos_after fold_left]. rewrite step_latch. cbn [Z.eqb andb].
    destruct (E a) eqn:Ea.
    + split; [by right|]. split; [|done]. intros _.
      exists 0%nat, a. rewrite H0. repeat split; try done.
      intros k a' Hk. lia.
    + split; [by left|]. split; [done|].
      intros (j & a' & Hj & Hr & He & _).
      assert (j = 0%nat) as -> by lia. rewrite H0 in Hr.
      injection Hr as <-. congruence.
  - destruct (lookup_lt_is_Some_2 rows (S i) Hi) as [[t a] HS].
    destruct (IH ltac:(lia)) as [Hp Hiff].
    unfold p. rewrite (pos_after_snoc step rows (S i) 0 t a HS).
    set (q := pos_after step (take (S i) rows) 0) in *.
    rewrite step_latch.
    assert (Hrow : snd <$> rows !! S i = Some a) by (by rewrite HS).
    destruct Hp as [Hq|Hq]; rewrite Hq in *; cbn [Z.eqb andb].
    + destruct (E a) eqn:Ea.
      * split; [by right|]. split; [|done]. intros _.
        exists (S i), a. repeat split; try done. intros k a' Hk. lia.
      * split; [by left|]. split; [done|].
        intros (j & a' & Hj & Hr & He & Hno).
        destruct (decide (j = S i)) as [->|Hne].
        { rewrite Hrow in Hr. injection Hr as <-. congruence. }
        assert (long_since E X rows i) as Hl.
        { exists j, a'. repeat split; try done; [lia|].
          intros k b Hk. apply Hno. lia. }
        apply Hiff in Hl. done.
    + destruct (proj1 Hiff eq_refl) as (j & a' & Hj & Hr & He & Hno).
      destruct (X a) eqn:Xa.
      * split; [by left|]. split; [done|].
        intros (j' & b & Hj' & Hr' & He' & Hno').
        destruct (decide (j' = S i)) as [->|Hne].
        { rewrite Hrow in Hr'. injection Hr' as <-.
          rewrite (Hex (S i) a Hrow He') in Xa. done. }
        rewrite (Hno' (S i) a ltac:(lia) Hrow) in Xa. done.
      * split; [by right|]. split; [|done]. intros _.
        exists j, a'. repeat split; try done; [lia|].
        intros k b Hk Hb.
        destruct (decide (k = S i)) as [->|Hne].
        { rewrite Hrow in Hb. by injection Hb as <-. }
        apply (Hno k b); [lia|done].
Qed.

Lemma latch_cell (rows : list (date * A)) i t now :
  (forall k a, snd <$> rows !! k = Some a -> E a = true -> X a = false) ->
  emit step rows 0 !! i = Some (t, now) ->
  (now = qz 0 \/ now = qz 1) /\ (now = qz 1 <-> long_since E X rows i).
Proof using step_latch.
  intros Hex Hc.
  assert (Hi : (i < length rows)%nat).
  { apply lookup_lt_Some in Hc.
    assert (length (emit step rows 0) = length rows) as <-; [|done].
    rewrite <- (length_map fst (emit step rows 0)), <- (length_map fst rows).
    f_equal. apply index_emit. }
  destruct (lookup_lt_is_Some_2 rows i Hi) as [[t' a] Hr].
  rewrite (emit_lookup step rows i 0 t' a Hr) in Hc.
  rewrite <- (pos_after_snoc step rows i 0 t' a Hr) in Hc.
  injection Hc as _ <-.
  destruct (latch_pos rows Hex i Hi) as [Hp Hiff].
  split.
  - destruct Hp as [->| ->]; [by left|by right].
  - rewrite <- Hiff. split; [apply qz_inj|by intros ->].
Qed.
End Latch.

Section LatchGenerators.
Import Strategies.

Lemma fltb_asym (a b : float Qc) : fltb a b = true -> fltb b a = false.
Proof.
  unfold fltb. destruct a as [x| | |], b as [y| | |]; simpl; try done.
  unfold Qccompare. rewrite <- (Qcompare_antisym x y).
  by destruct (x ?= y)%Q.
Qed.

Lemma with_crosses_lookup_inv (df : Table) (up down : list bool) k t r u d :
  with_crosses df up down !! k = Some (t, (r, u, d)) ->
  df !! k = Some (t, r) /\ up !! k = Some u /\ down !! k = Some d.
Proof.
  unfold with_crosses. intros Hk.
  apply lookup_zip_with_Some in Hk as ([t' r'] & [u' d'] & E & Hdf & Hz).
  simpl in E. injection E as -> -> -> ->.
  apply lookup_zip_with_Some in Hz as (u'' & d'' & E & Hu & Hd).
  injection E as -> ->. done.
Qed.

Lemma crosses_exclusive (a b : list (float Qc)) k d :
  cross_up a b !! k = Some true -> cross_down a b !! k = Some d ->
  d = false.
Proof.
  unfold cross_up, cross_down. intros Hu Hd.
  apply lookup_zip_with_Some in Hu as (x & y & E & Hx & _).
  apply lookup_zip_with_Some in Hd as (x' & y' & E' & Hx' & _).
  apply lookup_zip_with_Some in Hx as (ak & bk & -> & Ha & Hb).
  apply lookup_zip_with_Some in Hx' as (ak' & bk' & -> & Ha' & Hb').
  rewrite Ha in Ha'. rewrite Hb in Hb'.
  injection Ha' as <-. injection Hb' as <-.
  symmetry in E. apply andb_true_iff in E as [E _].
  unfold fgtb in E. apply fltb_asym in E. rewrite E in E'. done.
Qed.

Lemma macd_step_latch a p :
  macd_step a p
  = if Z.eqb p 0 && a.1.2 then 1 else if Z.eqb p 1 && a.2 then 0 else p.
Proof. by destruct a as [[r u] d]. Qed.

(** X11: in the momentum-line generator the cell of a row is 1 exactly
    when the line crossed above its signal line at that row or an
    earlier one and has not crossed below it since; every other cell
    is 0. *)
Theorem macd_long_since_cross_up (df : Table) (i : nat) (t : date)
    (now : float Qc) :
  macd_signals df !! i = Some (t, now) ->
  let up := cross_up (column macd df) (column macd_signal df) in
  let down := cross_down (column macd df) (column macd_signal df) in
  (now = qz 0 \/ now = qz 1) /\
  (now = qz 1 <->
   exists j, (j <= i)%nat /\ up !! j = Some true /\
     forall k, (j < k <= i)%nat -> down !! k = Some false).
Proof.
  intros Hc up down. unfold macd_signals in Hc. fold up down in Hc.
  set (rows := with_crosses df up down) in *.
  assert (Hl : forall c : Row -> float Qc, length (column c df) = length df)
    by (intros c; unfold column; by rewrite length_map).
  assert (Hlu : length up = length df)
    by (unfold up; rewrite length_cross_up by (by rewrite !Hl); apply Hl).
  assert (Hld : length down = length df)
    by (unfold down; rewrite length_cross_down by (by rewrite !Hl);
        apply Hl).
  assert (Hlr : length rows = length df)
    by (by apply length_with_crosses).
  assert (Hi : (i < length df)%nat).
  { apply lookup_lt_Some in Hc. rewrite <- Hlr.
    rewrite <- (length_map fst rows), <- (index_emit macd_step rows 0).
    unfold index. by rewrite length_map. }
  assert (Hex : forall k a, snd <$> rows !! k = Some a ->
                  a.1.2 = true -> a.2 = false).
  { intros k [[r u] d] Hk Hu. simpl in *.
    destruct (rows !! k) as [[t' a']|] eqn:Hr; [|done].
    injection Hk as ->.
    apply with_crosses_lookup_inv in Hr as (_ & Hup & Hdn). subst u.
    exact (crosses_exclusive _ _ k d Hup Hdn). }
  destruct (latch_cell (fun a => a.1.2) (fun a => a.2) macd_step
              macd_step_latch rows i t now Hex Hc) as [Hb Hiff].
  split; [exact Hb|]. rewrite Hiff. split.
  - intros (j & [[r u] d] & Hj & Hr & He & Hno). simpl in He. subst u.
    exists j. split; [done|].
    destruct (rows !! j) as [[tj aj]|] eqn:Hrj; [|done].
    injection Hr as ->.
    apply with_crosses_lookup_inv in Hrj as (_ & Hup & _).
    split; [done|]. intros k Hk.
    destruct (lookup_lt_is_Some_2 rows k ltac:(lia)) as [[tk [[rk uk] dk]] Hrk].
    pose proof (Hno k (rk, uk, dk) Hk) as Hx. rewrite Hrk in Hx.
    specialize (Hx eq_refl). simpl in Hx. subst dk.
    by apply with_crosses_lookup_inv in Hrk as (_ & _ & Hdn).
  - intros (j & Hj & Hup & Hno).
    destruct (lookup_lt_is_Some_2 df j ltac:(lia)) as [[tj rj] Hdj].
    destruct (lookup_lt_is_Some_2 down j ltac:(lia)) as [dj Hdn].
    exists j, (rj, true, dj). split; [done|].
    pose proof (with_crosses_lookup df up down j tj rj true dj Hdj Hup Hdn)
      as Hw.
    fold rows in Hw. rewrite Hw.
    split; [done|]. split; [done|].
    intros k [[rk uk] dk] Hk Hr. simpl.
    destruct (rows !! k) as [[tk ak]|] eqn:Hrk; [|done].
    injection Hr as ->.
    apply with_crosses_lookup_inv in Hrk as (_ & _ & Hdk).
    rewrite (Hno k Hk) in Hdk. by injection Hdk as <-.
Qed.

(** Witness of [macd_long_since_cross_up]: the third row of the
    crossing table, one row after the cross-up. *)
Lemma macd_long_since_cross_up_witness :
  let up := cross_up (column macd Examples.crossing_table)
                     (column macd_signal Examples.crossing_table) in
  let down := cross_down (column macd Examples.crossing_table)
                         (column macd_signal Examples.crossing_table) in
  (qz 1 = qz 0 \/ qz 1 = qz 1) /\
  (qz 1 = qz 1 <->
   exists j, (j <= 2)%nat /\ up !! j = Some true /\
     forall k, (j < k <= 2)%nat -> down !! k = Some false).
Proof.
  apply (macd_long_since_cross_up Examples.crossing_table 2 2 (qz 1)).
  reflexivity.
Defined.

Lemma ema_step_latch h v a p :
  ema_rsi_vol_step h v a p
  = if Z.eqb p 0
       && (a.1.2 && fltb (rsi a.1.1) h && fltb (vol a.1.1) v) then 1
    else if Z.eqb p 1
            && (a.2 || fgtb (rsi a.1.1) h || fgtb (vol a.1.1) v) then 0
    else p.
Proof.
  destruct a as [[r u] d]. unfold ema_rsi_vol_step. cbn [fst snd].
  by rewrite !andb_assoc.
Qed.

(** X12: in the trend-crossover generator the cell of a row is 1 exactly
    when some row at or before it is an entry row (the fast average
    crosses above the slow one, the oscillator is below [rsi_high] and
    the volatility below [vol_thresh]) and no later row up to it is an
    exit row (a cross below, the oscillator above [rsi_high] or the
    volatility above [vol_thresh]); every other cell is 0. *)
Theorem ema_long_since_entry_row (df : Table) (h v : float Qc) (i : nat)
    (t : date) (now : float Qc) :
  ema_rsi_vol_signals df h v !! i = Some (t, now) ->
  let up := cross_up (column ema_fast df) (column ema_slow df) in
  let down := cross_down (column ema_fast df) (column ema_slow df) in
  (now = qz 0 \/ now = qz 1) /\
  (now = qz 1 <->
   exists j tj rj, (j <= i)%nat /\ df !! j = Some (tj, rj) /\
     up !! j = Some true /\
     fltb (rsi rj) h = true /\ fltb (vol rj) v = true /\
     forall k tk rk, (j < k <= i)%nat -> df !! k = Some (tk, rk) ->
       down !! k = Some false /\
       fgtb (rsi rk) h = false /\ fgtb (vol rk) v = false).
Proof.
  intros Hc up down. unfold ema_rsi_vol_signals in Hc. fold up down in Hc.
  set (rows := with_crosses df up down) in *.
  set (E := fun a : Row * bool * bool =>
              a.1.2 && fltb (rsi a.1.1) h && fltb (vol a.1.1) v).
  set (X := fun a : Row * bool * bool =>
              a.2 || fgtb (rsi a.1.1) h || fgtb (vol a.1.1) v).
  assert (Hl : forall c : Row -> float Qc, length (column c df) = length df)
    by (intros c; unfold column; by rewrite length_map).
  assert (Hlu : length up = length df)
    by (unfold up; rewrite length_cross_up by (by rewrite !Hl); apply Hl).
  assert (Hld : length down = length df)
    by (unfold down; rewrite length_cross_down by (by rewrite !Hl);
        apply Hl).
  assert (Hlr : length rows = length df)
    by (by apply length_with_crosses).
  assert (Hi : (i < length df)%nat).
  { apply lookup_lt_Some in Hc. rewrite <- Hlr.
    rewrite <- (length_map fst rows),
      <- (index_emit (ema_rsi_vol_step h v) rows 0).
    unfold index. by rewrite length_map. }
  assert (Hex : forall k a, snd <$> rows !! k = Some a ->
                  E a = true -> X a = false).
  { intros k [[r u] d] Hk He. unfold E, X in *. cbn [fst snd] in *.
    destruct (rows !! k) as [[t' a']|] eqn:Hr; [|done].
    injection Hk as ->.
    apply with_crosses_lookup_inv in Hr as (_ & Hup & Hdn).
    apply andb_true_iff in He as [He Hv].
    apply andb_true_iff in He as [-> Hr].
    rewrite (crosses_exclusive _ _ k d Hup Hdn).
    unfold fgtb. by rewrite (fltb_asym _ _ Hr), (fltb_asym _ _ Hv). }
  destruct (latch_cell E X (ema_rsi_vol_step h v) (ema_step_latch h v)
              rows i t now Hex Hc) as [Hb Hiff].
  split; [exact Hb|]. rewrite Hiff. split.
  - intros (j & [[r u] d] & Hj & Hr & He & Hno).
    unfold E in He. cbn [fst snd] in He.
    apply andb_true_iff in He as [He Hv].
    apply andb_true_iff in He as [-> Hrs].
    destruct (rows !! j) as [[tj aj]|] eqn:Hrj; [|done].
    injection Hr as ->.
    apply with_crosses_lookup_inv in Hrj as (Hdj & Hup & _).
    exists j, tj, r. repeat split; try done.
    all: destruct (lookup_lt_is_Some_2 up k ltac:(lia)) as [uk Hu];
      destruct (lookup_lt_is_Some_2 down k ltac:(lia)) as [dk Hd];
      pose proof (with_crosses_lookup df up down k tk rk uk dk H0 Hu Hd)
        as Hw; fold rows in Hw;
      pose proof (Hno k (rk, uk, dk) H) as Hx; rewrite Hw in Hx;
      specialize (Hx eq_refl); unfold X in Hx; cbn [fst snd] in Hx;
      apply orb_false_iff in Hx as [Hx Hxv];
      apply orb_false_iff in Hx as [Hxd Hxr]; congruence.
  - intros (j & tj & rj & Hj & Hdj & Hup & Hrs & Hv & Hno).
    destruct (lookup_lt_is_Some_2 down j ltac:(lia)) as [dj Hdn].
    exists j, (rj, true, dj). split; [done|].
    pose proof (with_crosses_lookup df up down j tj rj true dj Hdj Hup Hdn)
      as Hw.
    fold rows in Hw. rewrite Hw.
    split; [done|]. split; [unfold E; cbn [fst snd]; by rewrite Hrs, Hv|].
    intros k [[rk uk] dk] Hk Hr. unfold X. cbn [fst snd].
    destruct (rows !! k) as [[tk ak]|] eqn:Hrk; [|done].
    injection Hr as ->.
    apply with_crosses_lookup_inv in Hrk as (Hdk & _ & Hdd).
    destruct (Hno k tk rk Hk Hdk) as (Hd' & Hr' & Hv').
    rewrite Hd' in Hdd. injection Hdd as <-. by rewrite Hr', Hv'.
Qed.

(** Witness of [ema_long_since_entry_row]: the third row of the
    crossing table, with the default thresholds. *)
Lemma ema_long_since_entry_row_witness :
  let df := Examples.crossing_table in
  let up := cross_up (column ema_fast df) (column ema_slow df) in
  let down := cross_down (column ema_fast df) (column ema_slow df) in
  (qz 1 = qz 0 \/ qz 1 = qz 1) /\
  (qz 1 = qz 1 <->
   exists j tj rj, (j <= 2)%nat /\ df !! j = Some (tj, rj) /\
     up !! j = Some true /\
     fltb (rsi rj) default_rsi_high = true /\
     fltb (vol rj) default_vol_thresh = true /\
     forall k tk rk, (j < k <= 2)%nat -> df !! k = Some (tk, rk) ->
       down !! k = Some false /\
       fgtb (rsi rk) default_rsi_high = false /\
       fgtb (vol rk) default_vol_thresh = false).
Proof.
  apply (ema_long_since_entry_row Examples.crossing_table default_rsi_high
           default_vol_thresh 2 2 (qz 1)).
  reflexivity.
Defined.

Lemma below_band_not_above_middle (c l u : float Qc) :
  fleb l u = true -> fltb c l = true ->
  fgtb c (fdiv (fadd u l) (qz 2)) = false.
Proof.
  unfold fgtb.
  destruct l as [y| | |], u as [z| | |], c as [x| | |]; try done.
  intros Hle Hlt. unfold fleb, fltb in *. cbn in Hle, Hlt.
  change (fdiv (fadd (Fin z) (Fin y)) (qz 2))
    with (Fin ((z + y) / Q2Qc 2)%Qc).
  cbn [fcompare ccmp Qc_carrier].
  assert (Hxy : (x < y)%Qc).
  { apply Qclt_alt. by destruct (x ?= y)%Qc. }
  assert (Hyz : (y <= z)%Qc).
  { apply Qcle_alt. by destruct (y ?= z)%Qc. }
  assert (Hm : (x <= (z + y) / Q2Qc 2)%Qc).
  { unfold Qcle, Qclt in *.
    unfold Qcdiv, Qcmult, Qcplus, Qcinv. cbn [this Q2Qc].
    rewrite !Qred_correct. change (/ 2)%Q with (1#2)%Q.
    set (a := this x) in *. set (b := this y) in *.
    set (c := this z) in *. Lqa.lra. }
  destruct (((z + y) / Q2Qc 2) ?= x)%Qc eqn:Ec; try done.
  apply Qclt_alt in Ec. exfalso. exact (Qcle_not_lt _ _ Hm Ec).
Qed.

(** X13: on a feature table whose lower band is nowhere above the upper
    band, the cell of a row of the band generator is 1 exactly when the
    close was under the lower band at that row or an earlier one and
    has not been over the middle of the bands since; every other cell
    is 0. *)
Theorem bollinger_long_since_band_break (df : Table) (i : nat) (t : date)
    (now : float Qc) :
  (forall k tk rk, df !! k = Some (tk, rk) ->
     fleb (bb_lower rk) (bb_upper rk) = true) ->
  bollinger_signals df !! i = Some (t, now) ->
  (now = qz 0 \/ now = qz 1) /\
  (now = qz 1 <->
   exists j tj rj, (j <= i)%nat /\ df !! j = Some (tj, rj) /\
     fltb (Close rj) (bb_lower rj) = true /\
     forall k tk rk, (j < k <= i)%nat -> df !! k = Some (tk, rk) ->
       fgtb (Close rk) (fdiv (fadd (bb_upper rk) (bb_lower rk)) (qz 2))
       = false).
Proof.
  intros Hband Hc. unfold bollinger_signals in Hc.
  set (E := fun r : Row => fltb (Close r) (bb_lower r)).
  set (X := fun r : Row =>
              fgtb (Close r) (fdiv (fadd (bb_upper r) (bb_lower r)) (qz 2))).
  assert (Hex : forall k a, snd <$> df !! k = Some a ->
                  E a = true -> X a = false).
  { intros k r Hk He. unfold E, X in *.
    destruct (df !! k) as [[tk rk]|] eqn:Hr; [|done].
    injection Hk as ->.
    apply below_band_not_above_middle; [|done]. exact (Hband k tk r Hr). }
  destruct (latch_cell E X bollinger_step (fun a p => eq_refl)
              df i t now Hex Hc) as [Hb Hiff].
  split; [exact Hb|]. rewrite Hiff. split.
  - intros (j & r & Hj & Hr & He & Hno).
    destruct (df !! j) as [[tj rj]|] eqn:Hrj; [|done].
    injection Hr as ->.
    exists j, tj, r. repeat split; try done.
    intros k tk rk Hk Hdk. apply (Hno k rk Hk). by rewrite Hdk.
  - intros (j & tj & rj & Hj & Hdj & He & Hno).
    exists j, rj. rewrite Hdj. repeat split; try done.
    intros k rk Hk Hr.
    destruct (df !! k) as [[tk ak]|] eqn:Hrk; [|done].
    injection Hr as ->. exact (Hno k tk rk Hk Hrk).
Qed.

(** Witness of [bollinger_long_since_band_break]: the third row of the
    crossing table, whose bands are 90 and 110 on every row. *)
Lemma bollinger_long_since_band_break_witness :
  let df := Examples.crossing_table in
  (qz 1 = qz 0 \/ qz 1 = qz 1) /\
  (qz 1 = qz 1 <->
   exists j tj rj, (j <= 2)%nat /\ df !! j = Some (tj, rj) /\
     fltb (Close rj) (bb_lower rj) = true /\
     forall k tk rk, (j < k <= 2)%nat -> df !! k = Some (tk, rk) ->
       fgtb (Close rk) (fdiv (fadd (bb_upper rk) (bb_lower rk)) (qz 2))
       = false).
Proof.
  apply (bollinger_long_since_band_break Examples.crossing_table 2 2 (qz 1)).
  - intros k tk rk Hk.
    destruct k as [|[|[|[|[|k]]]]]; try done;
      injection Hk as _ <-; reflexivity.
  - reflexivity.
Defined.
End LatchGenerators.

(** ** When the metrics raise *)

Section MetricsRaise.
Import Metrics.
Open Scope R_scope.

Lemma years_zero_iff (d0 dn : Z) : IZR (dn - d0) / 365.25 = 0 <-> d0 = dn.
Proof.
  split.
  - intros E. assert (E' : IZR (dn - d0) = 0).
    { unfold Rdiv in E. apply Rmult_integral in E as [E|E]; [done|].
      exfalso. revert E. apply Rinv_neq_0_compat. lra. }
    apply eq_IZR_R0 in E'. lia.
  - intros ->. apply years_of_one_day.
Qed.

Lemma head_last_cells (c : Curve) :
  c <> [] -> is_Some (head (cells c)) /\ is_Some (last (cells c)).
Proof.
  intros Hne. destruct c as [|[d e] c]; [done|]. split; [by eexists|].
  unfold cells. cbn [map].
  destruct (last (e :: map snd c)) eqn:L; [by eexists|].
  by apply last_None in L.
Qed.

(** X14: [compute_metrics] raises exactly on the empty curve.  On a curve
    of one observation it returns an annualised return of 0, and both
    the annualised volatility and the Sharpe ratio are not a number,
    since the one zero-filled return has no sample deviation. *)
Theorem compute_metrics_short_curves fpow :
  (forall c, compute_metrics fpow c = None <-> c = []) /\
  (forall d e, exists tr dd,
      compute_metrics fpow [(d, e)] = Some (mkMetrics tr f0 NaN NaN dd)).
Proof.
  split.
  - intros c. split.
    + intros Hn. destruct c as [|[d e] c]; [done|]. exfalso.
      destruct (head_last_cells ((d, e) :: c) ltac:(done)) as [[h Hh] [l Hl]].
      unfold compute_metrics, sharpe, ann_return, total_return in Hn.
      rewrite Hl, Hh in Hn. done.
    + by intros ->.
  - intros d e. eexists _, _.
    unfold compute_metrics, sharpe, ann_return, total_return.
    cbn [cells map last head mbind option_bind length Nat.ltb Nat.leb].
    reflexivity.
Qed.

(** X15: [cagr] and [calmar_ratio] raise exactly when the curve is empty
    or its first and last observation carry the same date, so that the
    curve spans no day. *)
Theorem cagr_raises_iff_no_span fpow (c : Curve) :
  (cagr fpow c = None <-> head (map fst c) = last (map fst c)) /\
  (calmar_ratio fpow c = None <-> head (map fst c) = last (map fst c)).
Proof.
  assert (H : cagr fpow c = None <-> head (map fst c) = last (map fst c)).
  { destruct c as [|[d e] c]; [done|].
    destruct (head_last_cells ((d, e) :: c) ltac:(done)) as [[h Hh] [l Hl]].
    unfold cagr. rewrite Hl, Hh.
    destruct (last (map fst ((d, e) :: c))) as [dn|] eqn:L;
      [|by apply last_None in L].
    cbn [map head mbind option_bind fst].
    destruct (Req_dec_T (IZR (dn - d) / 365.25) 0) as [E|N].
    - apply years_zero_iff in E. subst dn. done.
    - split; [done|]. intros [= E]. exfalso. apply N.
      by apply years_zero_iff. }
  split; [exact H|].
  rewrite <- H. unfold calmar_ratio.
  destruct (cagr fpow c); done.
Qed.
End MetricsRaise.

(** ** The maximum drawdown of a positive curve *)

Section Drawdown.
Import Metrics.
Open Scope R_scope.

Lemma fmax_fin (a b : R) : fmax (Fin a) (Fin b) = Fin (Rmax a b).
Proof.
  unfold fmax, fltb. simpl. unfold Rmax.
  destruct (Rcompare_spec a b), (Rle_dec a b); f_equal; lra.
Qed.

Lemma Sorted_Rle_cons_max (m x : R) (xs : list R) :
  Sorted Rle (m :: x :: xs) <-> m <= x /\ Sorted Rle (Rmax m x :: xs).
Proof.
  split.
  - intros Hs. apply Sorted_inv in Hs as [Hs Hh].
    apply HdRel_inv in Hh. split; [done|].
    rewrite Rmax_right by done. exact Hs.
  - intros [Hle Hs]. rewrite Rmax_right in Hs by done.
    constructor; [done|]. by constructor.
Qed.

Lemma drawdown_from (xs : list R) :
  forall m, 0 < m -> Forall (fun x => 0 < x) xs ->
    exists ds,
      zip_with fdiv
        (zip_with fsub (cummax_from (Fin m) (map Fin xs)) (map Fin xs))
        (cummax_from (Fin m) (map Fin xs))
      = map Fin ds /\
      Forall (fun d => 0 <= d <= 1) ds /\
      (Forall (fun d => d = 0) ds <-> Sorted Rle (m :: xs)).
Proof.
  induction xs as [|x xs IH]; intros m Hm Hpos.
  - exists []. repeat split; try done. all: by repeat constructor.
  - apply Forall_cons in Hpos as [Hx Hpos].
    assert (HM : 0 < Rmax m x).
    { apply Rlt_le_trans with m; [done|apply Rmax_l]. }
    destruct (IH (Rmax m x) HM Hpos) as (ds & Hds & Hb & Hz).
    exists ((Rmax m x - x) / Rmax m x :: ds).
    cbn [map cummax_from is_nan zip_with]. rewrite fmax_fin, Hds.
    assert (Hxm : x <= Rmax m x) by apply Rmax_r.
    split; [|split].
    + f_equal. cbn [fsub fneg fadd cadd copp R_carrier].
      rewrite fdiv_fin_R by lra. done.
    + constructor; [|done]. split.
      * apply Rmult_le_pos; [lra|]. left. by apply Rinv_0_lt_compat.
      * apply Rmult_le_reg_r with (Rmax m x); [done|].
        unfold Rdiv. rewrite Rmult_assoc, Rinv_l by lra. lra.
    + rewrite Sorted_Rle_cons_max, <- Hz. rewrite Forall_cons.
      assert (Hd : (Rmax m x - x) / Rmax m x = 0 <-> m <= x); [|tauto].
      split.
      * intros E. assert (E' : Rmax m x - x = 0).
        { unfold Rdiv in E. apply Rmult_integral in E as [E|E]; [done|].
          exfalso. revert E. apply Rinv_neq_0_compat. lra. }
        assert (m <= Rmax m x) by apply Rmax_l. lra.
      * intros Hle. rewrite Rmax_right by done.
        unfold Rdiv. rewrite Rminus_diag. apply Rmult_0_l.
Qed.

Lemma fold_fmax_fin (ds : list R) :
  forall a, 0 <= a <= 1 -> Forall (fun d => 0 <= d <= 1) ds ->
    exists b, fold_left fmax (map Fin ds) (Fin a) = Fin b /\
              0 <= b <= 1 /\
              (b = 0 <-> a = 0 /\ Forall (fun d => d = 0) ds).
Proof.
  induction ds as [|d ds IH]; intros a Ha Hall.
  - exists a. repeat split; try done; try lra; by intros [-> _].
  - apply Forall_cons in Hall as [Hd Hall].
    assert (HM : 0 <= Rmax a d <= 1).
    { unfold Rmax. destruct (Rle_dec a d); lra. }
    destruct (IH (Rmax a d) HM Hall) as (b & Hb & Hr & Hz).
    exists b. cbn [map fold_left]. rewrite fmax_fin.
    split; [done|]. split; [done|].
    rewrite Hz, Forall_cons.
    assert (Rmax a d = 0 <-> a = 0 /\ d = 0); [|tauto].
    unfold Rmax. destruct (Rle_dec a d); lra.
Qed.

(** X16: on a non-empty curve of positive finite values the maximum
    drawdown is a number from 0 to 1, and it is 0 exactly when the
    curve never falls from one observation to the next. *)
Theorem max_drawdown_of_positive_curve (xs : list R) :
  xs <> [] -> Forall (fun x => 0 < x) xs ->
  exists m, max_drawdown (map Fin xs) = Fin m /\ 0 <= m <= 1 /\
            (m = 0 <-> Sorted Rle xs).
Proof.
  intros Hne Hpos. destruct xs as [|x xs]; [done|].
  apply Forall_cons in Hpos as [Hx Hpos].
  destruct (drawdown_from xs x Hx Hpos) as (ds & Hds & Hb & Hz).
  unfold max_drawdown, drawdown, cummax, series_max.
  cbn [map cummax_from is_nan zip_with].
  change (fmax NaN (Fin x)) with (Fin x : float R). rewrite Hds.
  assert (E : fdiv (fsub (Fin x) (Fin x)) (Fin x) = (Fin 0 : float R)).
  { cbn [fsub fneg fadd cadd copp R_carrier].
    rewrite fdiv_fin_R by lra. f_equal.
    unfold Rdiv. rewrite Rplus_opp_r. apply Rmult_0_l. }
  rewrite E. cbn [fold_left].
  change (fmax NaN (Fin 0)) with (Fin 0 : float R).
  destruct (fold_fmax_fin ds 0 ltac:(lra) Hb) as (b & Hfold & Hr & Hb0).
  exists b. split; [done|]. split; [done|].
  rewrite Hb0, Hz. tauto.
Qed.

(** Witness of [max_drawdown_of_positive_curve]: the curve 100, 110,
    121. *)
Lemma max_drawdown_of_positive_curve_witness :
  exists m, max_drawdown (map Fin [100; 110; 121]) = Fin m /\ 0 <= m <= 1 /\
            (m = 0 <-> Sorted Rle [100; 110; 121]).
Proof.
  apply (max_drawdown_of_positive_curve [100; 110; 121]).
  - discriminate.
  - repeat constructor; lra.
Defined.
End Drawdown.

(** ** The downside ratios *)

Section DownsideRatios.
Import Metrics.
Open Scope R_scope.

Lemma fdiv_nan_r (a : float R) : fdiv a NaN = NaN.
Proof. by destruct a. Qed.

Lemma std_short (l : list (float R)) : (length l <= 1)%nat -> std l = NaN.
Proof.
  intros Hl. unfold std.
  assert (length (dropna l) <= length l)%nat by apply length_filter.
  destruct (Nat.leb_spec (length (dropna l)) 1); [done|lia].
Qed.

(** X17: the Sortino ratio is not a number whenever fewer than two daily
    returns are negative: the deviation of the downside returns is then
    undefined, the test against 0 does not catch it, and the undefined
    deviation carries through the division. *)
Theorem sortino_needs_two_down_days (c : Curve) (risk_free : float R) :
  (length (filter (fun r => fltb r f0 = true)
                  (dropna (pct_change (cells c)))) <= 1)%nat ->
  sortino_ratio c risk_free = NaN.
Proof.
  intros Hl. unfold sortino_ratio. rewrite (std_short _ Hl).
  change (feqb NaN f0) with false. cbv iota. by rewrite fdiv_nan_r.
Qed.

(** Witness of [sortino_needs_two_down_days]: the curve 100, 110, 121
    has no negative return. *)
Lemma sortino_needs_two_down_days_witness :
  sortino_ratio Examples.steady_growth f0 = NaN.
Proof.
  apply (sortino_needs_two_down_days Examples.steady_growth f0).
  assert (E : dropna (pct_change (cells Examples.steady_growth))
              = [Fin (110 / 100 + - 1); Fin (121 / 110 + - 1)]).
  { unfold Examples.steady_growth, cells, pct_change, dropna.
    cbn [map snd changes]. rewrite !fdiv_fin_R by lra.
    rewrite filter_cons_False by (simpl; congruence).
    by rewrite !filter_cons_True by done. }
  assert (N : forall x : R, 0 <= x -> ~ fltb (Fin x) f0 = true).
  { intros x Hx. unfold fltb. simpl.
    destruct (Rcompare_spec x 0); try done; lra. }
  rewrite E. rewrite !filter_cons_False by (apply N; lra).
  simpl. lia.
Defined.

Lemma fold_Rplus_acc (xs : list R) :
  forall a, fold_left Rplus xs a = a + rsum xs.
Proof.
  unfold rsum. induction xs as [|x xs IH]; intros a; simpl; [lra|].
  rewrite (IH (a + x)), (IH (0 + x)). lra.
Qed.

Lemma rsum_cons (x : R) (xs : list R) : rsum (x :: xs) = x + rsum xs.
Proof. unfold rsum at 1. simpl. rewrite fold_Rplus_acc. lra. Qed.

Lemma rsum_positive (ys : list R) :
  Forall (fun y => 0 < y) ys -> 0 <= rsum ys /\ (ys <> [] -> 0 < rsum ys).
Proof.
  induction 1 as [|y ys Hy _ [IH _]].
  - split; [unfold rsum; simpl; lra|done].
  - rewrite rsum_cons. split; [lra|]. intros _. lra.
Qed.

Lemma pct_change_fin (xs : list R) :
  Forall (fun x => x <> 0) xs ->
  exists rs, dropna (pct_change (map Fin xs)) = map Fin rs.
Proof.
  intros Hnz. destruct xs as [|p xs]; [by exists []|].
  apply Forall_cons in Hnz as [Hp Hnz].
  cbn [map pct_change]. unfold dropna.
  rewrite filter_cons_False by (simpl; congruence).
  fold (dropna (changes (Fin p) (map Fin xs))).
  revert p Hp. induction Hnz as [|x xs Hx _ IH]; intros p Hp.
  - by exists [].
  - destruct (IH x Hx) as (rs & Hrs).
    exists (x / p + - 1 :: rs). cbn [map changes].
    rewrite fdiv_fin_R by done.
    change (fsub (Fin (x / p)) f1) with (Fin (x / p + - 1) : float R).
    unfold dropna in *. rewrite filter_cons_True by done.
    by rewrite Hrs.
Qed.

Lemma excess_over (t : R) (rs : list R) :
  exists ys,
    map (fun r => fsub r (Fin t))
        (filter (fun r => fgtb r (Fin t) = true) (map Fin rs))
    = map Fin ys /\
    Forall (fun y => 0 < y) ys /\
    (ys = [] <-> Forall (fun r => r <= t) rs).
Proof.
  induction rs as [|r rs (ys & Hys & Hpos & Hnil)].
  - by exists [].
  - cbn [map].
    assert (Hc : fgtb (Fin r) (Fin t) = true <-> t < r).
    { unfold fgtb, fltb. simpl.
      destruct (Rcompare_spec t r); split; try done; lra. }
    destruct (Rlt_dec t r) as [L|G].
    + rewrite filter_cons_True by (by apply Hc). exists (r + - t :: ys).
      cbn [map]. rewrite Hys. split; [done|]. split.
      * constructor; [lra|done].
      * split; [done|]. intros [? _]%Forall_cons. lra.
    + rewrite filter_cons_False by (by rewrite Hc). exists ys.
      split; [done|]. split; [done|]. rewrite Hnil, Forall_cons.
      split; [intros ?; split; [lra|done]|tauto].
Qed.

Lemma shortfall_under (t : R) (rs : list R) :
  exists ys,
    map (fun r => fsub r (Fin t))
        (filter (fun r => fltb r (Fin t) = true) (map Fin rs))
    = map Fin (map Ropp ys) /\
    Forall (fun y => 0 < y) ys /\
    (ys = [] <-> Forall (fun r => t <= r) rs).
Proof.
  induction rs as [|r rs (ys & Hys & Hpos & Hnil)].
  - by exists [].
  - cbn [map].
    assert (Hc : fltb (Fin r) (Fin t) = true <-> r < t).
    { unfold fltb. simpl.
      destruct (Rcompare_spec r t); split; try done; lra. }
    destruct (Rlt_dec r t) as [L|G].
    + rewrite filter_cons_True by (by apply Hc). exists (t - r :: ys).
      cbn [map]. rewrite Hys. split; [|split].
      * f_equal. cbn [fsub fneg fadd cadd copp R_carrier]. f_equal. lra.
      * constructor; [lra|done].
      * split; [done|]. intros [? _]%Forall_cons. lra.
    + rewrite filter_cons_False by (by rewrite Hc). exists ys.
      split; [done|]. split; [done|]. rewrite Hnil, Forall_cons.
      split; [intros ?; split; [lra|done]|tauto].
Qed.

Lemma rsum_opp (ys : list R) : rsum (map Ropp ys) = - rsum ys.
Proof.
  induction ys as [|y ys IH]; [unfold rsum; simpl; lra|].
  cbn [map]. rewrite !rsum_cons, IH. lra.
Qed.

(** X18: on a curve of finite non-zero values every daily return is a
    finite number.  The Omega ratio at a finite target is then not a
    number when no return is below the target; when some return is, it
    is a finite number that is never negative, and it is 0 exactly when
    no return is above the target. *)
Theorem omega_ratio_of_finite_curve (c : Curve) (xs : list R) (t : R) :
  cells c = map Fin xs -> Forall (fun x => x <> 0) xs ->
  exists rs, dropna (pct_change (cells c)) = map Fin rs /\
    (Forall (fun r => t <= r) rs -> omega_ratio c (Fin t) = NaN) /\
    (~ Forall (fun r => t <= r) rs ->
     exists q, omega_ratio c (Fin t) = Fin q /\ 0 <= q /\
               (q = 0 <-> Forall (fun r => r <= t) rs)).
Proof.
  intros Hc Hnz. rewrite Hc.
  destruct (pct_change_fin xs Hnz) as (rs & Hrs).
  exists rs. split; [done|].
  unfold omega_ratio. rewrite Hc, Hrs.
  destruct (excess_over t rs) as (gs & Hgs & Hgpos & Hgnil).
  destruct (shortfall_under t rs) as (ls & Hls & Hlpos & Hlnil).
  rewrite Hgs, Hls, !fsum_fin, rsum_opp.
  cbn [fneg copp R_carrier]. rewrite Ropp_involutive.
  destruct (rsum_positive gs Hgpos) as [Hg0 Hg1].
  destruct (rsum_positive ls Hlpos) as [Hl0 Hl1].
  unfold fneb, feqb, f0. cbn [fcompare ccmp c0 R_carrier]. split.
  - intros Hall. apply Hlnil in Hall. subst ls.
    change (rsum []) with 0.
    destruct (Rcompare_spec 0 0); try done; lra.
  - intros Hsome.
    assert (Hne : ls <> []) by (intros E; by apply Hsome, Hlnil).
    specialize (Hl1 Hne).
    destruct (Rcompare_spec (rsum ls) 0); try lra.
    cbn [negb]. rewrite fdiv_fin_R by lra.
    exists (rsum gs / rsum ls). split; [done|]. split.
    + apply Rmult_le_pos; [done|]. left. by apply Rinv_0_lt_compat.
    + rewrite <- Hgnil. split.
      * intros E. destruct gs as [|g gs]; [done|]. exfalso.
        assert (0 < rsum (g :: gs)) by (by apply Hg1).
        unfold Rdiv in E. apply Rmult_integral in E as [E|E]; [lra|].
        revert E. apply Rinv_neq_0_compat. lra.
      * intros ->. change (rsum []) with 0. unfold Rdiv. apply Rmult_0_l.
Qed.

(** Witness of [omega_ratio_of_finite_curve]: the curve 100, 110, 121
    at target 0. *)
Lemma omega_ratio_of_finite_curve_witness :
  exists rs,
    dropna (pct_change (cells Examples.steady_growth)) = map Fin rs /\
    (Forall (fun r => 0 <= r) rs ->
     omega_ratio Examples.steady_growth (Fin 0) = NaN) /\
    (~ Forall (fun r => 0 <= r) rs ->
     exists q, omega_ratio Examples.steady_growth (Fin 0) = Fin q /\
               0 <= q /\ (q = 0 <-> Forall (fun r => r <= 0) rs)).
Proof.
  apply (omega_ratio_of_finite_curve Examples.steady_growth
           [100; 110; 121] 0).
  - reflexivity.
  - repeat constructor; lra.
Defined.
End DownsideRatios.

(** ** The indicators on finite prices *)

Section Indicators.
Import Metrics Features.
Open Scope R_scope.

Lemma feqb_fin_R (x y : R) : feqb (Fin x) (Fin y) = true <-> x = y.
Proof.
  unfold feqb. simpl. destruct (Rcompare_spec x y); split; try done; lra.
Qed.

(** One turn of the smoothing loop on two finite numbers is the usual
    recursion. *)
Lemma ewm_step_fin (a w x : R) :
  ewm_step (Fin a) (Fin w, f1) (Fin x) = (Fin ((1 - a) * w + a * x), f1).
Proof.
  unfold ewm_step. cbn [is_obs is_nan negb].
  unfold fneb. destruct (feqb (Fin w) (Fin x)) eqn:E; cbn [negb].
  - apply feqb_fin_R in E. subst x. do 2 f_equal. lra.
  - cbn [fmul fsub fneg fadd f1 c1 cmul cadd copp R_carrier].
    rewrite fdiv_fin_R by lra. do 2 f_equal. field. lra.
Qed.

Lemma ewm_loop_fin (a : R) (xs : list R) :
  forall w, ewm_loop (Fin a) (Fin w, f1) (map Fin xs)
            = map Fin (smooth a w xs).
Proof.
  induction xs as [|x xs IH]; intros w; [done|].
  cbn [map ewm_loop smooth]. rewrite ewm_step_fin. cbn [fst].
  by rewrite IH.
Qed.

(** Cell-wise operations on finite columns. *)
Lemma map_fin_ex (f : float R -> float R) (P Q : R -> Prop) :
  (forall x, P x -> exists y, f (Fin x) = Fin y /\ Q y) ->
  forall xs, Forall P xs ->
    exists ys, map f (map Fin xs) = map Fin ys /\ Forall Q ys /\
               length ys = length xs.
Proof.
  intros Hf. induction 1 as [|x xs Hx _ (ys & E & Hq & Hl)].
  - by exists [].
  - destruct (Hf x Hx) as (y & Ey & Hy). exists (y :: ys).
    cbn [map]. rewrite Ey, E. repeat split; [by constructor|simpl; lia].
Qed.

Lemma zip_fin_ex (g : float R -> float R -> float R) (P Q S : R -> Prop) :
  (forall x y, P x -> Q y -> exists z, g (Fin x) (Fin y) = Fin z /\ S z) ->
  forall xs ys, Forall P xs -> Forall Q ys -> length xs = length ys ->
    exists zs, zip_with g (map Fin xs) (map Fin ys) = map Fin zs /\
               Forall S zs /\ length zs = length xs.
Proof.
  intros Hg xs ys Hp. revert ys.
  induction Hp as [|x xs Hx _ IH]; intros ys Hq Hl.
  - by exists [].
  - destruct ys as [|y ys]; [done|].
    apply Forall_cons in Hq as [Hy Hq].
    destruct (IH ys Hq ltac:(simpl in Hl; lia)) as (zs & E & Hs & Hlz).
    destruct (Hg x y Hx Hy) as (z & Ez & Hz). exists (z :: zs).
    cbn [map zip_with]. rewrite Ez, E.
    repeat split; [by constructor|simpl; lia].
Qed.

Lemma diffs_fin (xs : list R) :
  forall p, exists ds, diffs (Fin p) (map Fin xs) = map Fin ds /\
                       length ds = length xs.
Proof.
  induction xs as [|x xs IH]; intros p; [by exists []|].
  destruct (IH x) as (ds & E & Hl). exists (x + - p :: ds).
  cbn [map diffs]. rewrite E. split; [done|simpl; lia].
Qed.

Lemma clip_lower0_fin (x : R) :
  exists y, clip_lower0 (Fin x) = Fin y /\ 0 <= y.
Proof.
  unfold clip_lower0, fltb, f0. simpl.
  destruct (Rcompare_spec x 0); eexists; split; try done; lra.
Qed.

Lemma clip_upper0_fin (x : R) :
  exists y, fmul (Fin (-1)) (clip_upper0 (Fin x)) = Fin y /\ 0 <= y.
Proof.
  unfold clip_upper0, fgtb, fltb, f0. simpl.
  destruct (Rcompare_spec 0 x); eexists; split; try done; lra.
Qed.

Lemma smooth_nonneg (a : R) (xs : list R) :
  0 < a <= 1 -> Forall (fun x => 0 <= x) xs ->
  forall w, 0 <= w -> Forall (fun y => 0 <= y) (smooth a w xs).
Proof.
  intros Ha. induction 1 as [|x xs Hx _ IH]; intros w Hw; [done|].
  cbn [smooth].
  assert (Hb : 0 <= (1 - a) * w + a * x) by nra.
  constructor; [done|]. by apply IH.
Qed.

Lemma length_smooth (a : R) (xs : list R) :
  forall w, length (smooth a w xs) = length xs.
Proof. induction xs as [|x xs IH]; intros w; simpl; [done|]. by rewrite IH. Qed.

(** The smoothing loop after a leading missing cell starts at the first
    observation. *)
Lemma ewm_mean_leading_nan (a : R) (us : list R) :
  0 < a <= 1 -> Forall (fun x => 0 <= x) us ->
  exists ms, ewm_mean (Fin a) (NaN :: map Fin us) = NaN :: map Fin ms /\
             Forall (fun y => 0 <= y) ms /\ length ms = length us.
Proof.
  intros Ha Hus. destruct us as [|u us].
  - by exists [].
  - apply Forall_cons in Hus as [Hu Hus].
    exists (u :: smooth a u us). cbn [map ewm_mean ewm_loop].
    change (ewm_step (Fin a) (NaN, f1) (Fin u)) with (Fin u, f1 : float R).
    cbn [fst]. rewrite ewm_loop_fin. split; [done|]. split.
    + constructor; [done|]. by apply smooth_nonneg.
    + simpl. by rewrite length_smooth.
Qed.

Lemma rsi_cell (u d : R) :
  0 <= u -> 0 <= d ->
  exists r,
    fsub (Fin 100) (fdiv (Fin 100) (fadd f1 (fdiv (Fin u) (fadd (Fin d) tiny))))
    = Fin r /\ 0 <= r <= 100.
Proof.
  intros Hu Hd. unfold tiny, f1.
  cbn [fadd cadd c1 R_carrier].
  assert (Ht : 0 < d + 1 / 1000000000000) by lra.
  rewrite fdiv_fin_R by lra.
  assert (Hrs : 0 <= u / (d + 1 / 1000000000000)).
  { apply Rmult_le_pos; [done|]. left. by apply Rinv_0_lt_compat. }
  set (rs := u / (d + 1 / 1000000000000)) in *.
  cbn [fadd cadd R_carrier].
  rewrite fdiv_fin_R by lra.
  eexists. split; [reflexivity|].
  assert (Hq : 0 < 100 / (1 + rs) <= 100).
  { split.
    - apply Rdiv_lt_0_compat; lra.
    - apply Rmult_le_reg_r with (1 + rs); [lra|].
      unfold Rdiv. rewrite Rmult_assoc, Rinv_l by lra. nra. }
  cbn [cadd copp R_carrier]. lra.
Qed.

(** On finite prices [rsi] returns for a length of at least 1. *)
Lemma rsi_shape (xs : list R) (len : R) :
  1 <= len ->
  exists rs,
    rsi (map Fin xs) len
    = Some (match xs with [] => [] | _ => NaN :: map Fin rs end) /\
    length rs = pred (length xs) /\
    Forall (fun r => 0 <= r <= 100) rs.
Proof.
  unfold rsi, ewm_alpha. intros Hl.
  assert (Ha : 0 < 1 / len <= 1).
  { split.
    - apply Rdiv_lt_0_compat; lra.
    - apply Rmult_le_reg_r with len; [lra|].
      unfold Rdiv. rewrite Rmult_assoc, Rinv_l by lra. lra. }
  destruct (Req_dec_T len 0) as [?|_]; [lra|].
  destruct (Rle_dec (1 / len) 0) as [?|_]; [lra|].
  destruct (Rlt_dec 1 (1 / len)) as [?|_]; [lra|].
  cbn [mbind option_bind].
  destruct xs as [|p xs]; [by exists []|].
  cbn [map diff].
  destruct (diffs_fin xs p) as (ds & -> & Hld).
  destruct (map_fin_ex clip_lower0 (fun _ => True) (fun y => 0 <= y)
              (fun x _ => clip_lower0_fin x) ds)
    as (us & -> & Hus & Hlu).
  { by apply Forall_forall. }
  destruct (map_fin_ex (fun a => fmul (Fin (-1)) (clip_upper0 a))
              (fun _ => True) (fun y => 0 <= y)
              (fun x _ => clip_upper0_fin x) ds)
    as (dn & -> & Hdn & Hln).
  { by apply Forall_forall. }
  change (clip_lower0 NaN) with (NaN : float R).
  change (fmul (Fin (-1)) (clip_upper0 NaN)) with (NaN : float R).
  destruct (ewm_mean_leading_nan (1 / len) us Ha Hus)
    as (mu & -> & Hmu & Hlmu).
  destruct (ewm_mean_leading_nan (1 / len) dn Ha Hdn)
    as (md & -> & Hmd & Hlmd).
  cbn [zip_with map].
  destruct (zip_fin_ex
              (fun u d =>
                 fsub (Fin 100)
                   (fdiv (Fin 100)
                      (fadd f1 (fdiv u (fadd d tiny)))))
              (fun x => 0 <= x) (fun x => 0 <= x)
              (fun r => 0 <= r <= 100) rsi_cell mu md Hmu Hmd
              ltac:(lia))
    as (rs & Hrs & Hr & Hlr).
  exists rs. split; [|split; [simpl; lia|done]].
  do 2 f_equal.
  rewrite <- Hrs. clear.
  generalize (map Fin mu) (map Fin md). intros l1.
  induction l1 as [|a l1 IH]; intros [|b l2]; simpl; try done.
  by rewrite IH.
Qed.

(** X20: [rsi] raises exactly for a length below 1.  For any other
    length, on finite prices, the cell of the first row is missing and
    every later cell is a number from 0 to 100. *)
Theorem rsi_stays_in_range (xs : list R) (len : R) :
  (rsi (map Fin xs) len = None <-> len < 1) /\
  (1 <= len ->
   exists rs,
     rsi (map Fin xs) len
     = Some (match xs with [] => [] | _ => NaN :: map Fin rs end) /\
     length rs = pred (length xs) /\
     Forall (fun r => 0 <= r <= 100) rs).
Proof.
  split; [|apply rsi_shape]. split.
  - intros Hn. destruct (Rlt_dec len 1) as [?|Hge]; [done|]. exfalso.
    destruct (rsi_shape xs len ltac:(lra)) as (rs & E & _).
    rewrite E in Hn. done.
  - intros Hl. unfold rsi, ewm_alpha.
    destruct (Req_dec_T len 0) as [E|N]; [done|].
    destruct (Rle_dec (1 / len) 0) as [?|Hpos]; [done|].
    destruct (Rlt_dec 1 (1 / len)) as [?|Hle]; [done|]. exfalso.
    assert (0 < len).
    { destruct (Rlt_dec 0 len) as [?|Hn]; [done|]. exfalso. apply Hpos.
      assert (len < 0) by lra. unfold Rdiv. rewrite Rmult_1_l.
      left. by apply Rinv_lt_0_compat. }
    apply Hle. apply Rmult_lt_reg_r with len; [done|].
    unfold Rdiv. rewrite Rmult_assoc, Rinv_l by lra. lra.
Qed.

(** Witness of [rsi_stays_in_range]: three prices, length 14. *)
Lemma rsi_stays_in_range_witness :
  exists rs,
    rsi (map Fin [100; 110; 121]) 14 = Some (NaN :: map Fin rs) /\
    length rs = 2%nat /\
    Forall (fun r => 0 <= r <= 100) rs.
Proof.
  apply (proj2 (rsi_stays_in_range [100; 110; 121] 14)). lra.
Defined.

(** *** Rolling windows *)

Lemma window_at_fin (w : nat) (xs : list R) (i : nat) :
  window_at w (map Fin xs) i = map Fin (take w (drop (S i - w) xs)).
Proof. unfold window_at. by rewrite <- fmap_drop, <- fmap_take. Qed.

Lemma forallb_is_obs_fin (ys : list R) : forallb is_obs (map Fin ys) = true.
Proof. induction ys; simpl; [done|]. done. Qed.

Lemma length_window (w : nat) (xs : list R) (i : nat) :
  (w <= S i)%nat -> (i < length xs)%nat ->
  length (take w (drop (S i - w) xs)) = w.
Proof. intros Hw Hi. rewrite length_take, length_drop. lia. Qed.

Lemma rolling_fin_lookup (f : list (float R) -> float R) (w : nat)
    (xs : list R) (i : nat) :
  (i < length xs)%nat ->
  rolling f w (map Fin xs) !! i
  = Some (if (w <=? S i)%nat
          then f (map Fin (take w (drop (S i - w) xs)))
          else NaN).
Proof.
  intros Hi. unfold rolling.
  rewrite list_lookup_fmap, lookup_seq_lt by (by rewrite length_map).
  cbn [fmap option_fmap option_map Nat.add].
  rewrite window_at_fin, forallb_is_obs_fin, andb_true_r. done.
Qed.

Lemma mean_fin (ys : list R) :
  ys <> [] -> mean (map Fin ys) = Fin (rmean ys).
Proof.
  intros Hne. unfold mean. rewrite dropna_fin, fsum_fin, length_map.
  unfold rnat. rewrite fdiv_fin_R; [done|].
  apply not_0_INR. by destruct ys.
Qed.

(** X21: on finite prices, with a window of at least two rows and a
    width that is not negative, both bands of [bollinger_bands] are
    missing on the rows before the window is full; on every later row
    the lower band, the moving average of the window (the cell of
    [series.rolling(window).mean()]) and the upper band are numbers,
    in that order. *)
Theorem bollinger_bands_bracket_mean (xs : list R) (w : nat) (n : R)
    (i : nat) :
  (2 <= w)%nat -> 0 <= n -> (i < length xs)%nat ->
  let bands := bollinger_bands (map Fin xs) w (Fin n) in
  ((S i < w)%nat ->
   bands.1 !! i = Some NaN /\ bands.2 !! i = Some NaN) /\
  ((w <= S i)%nat ->
   exists m u l,
     rolling mean w (map Fin xs) !! i = Some (Fin m) /\
     bands.1 !! i = Some (Fin u) /\ bands.2 !! i = Some (Fin l) /\
     l <= m <= u).
Proof.
  intros Hw Hn Hi bands. unfold bands, bollinger_bands. cbn [fst snd].
  rewrite !lookup_zip_with, !rolling_fin_lookup by done.
  cbn [mbind option_bind]. split.
  - intros Hlt. destruct (Nat.leb_spec w (S i)); [lia|]. done.
  - intros Hge. destruct (Nat.leb_spec w (S i)); [|lia].
    set (win := take w (drop (S i - w) xs)).
    assert (Hlen : length win = w) by (by apply length_window).
    rewrite mean_fin by (intros E; rewrite E in Hlen; simpl in Hlen; lia).
    rewrite std_fin by lia.
    cbn [fmul fadd fsub fneg cmul cadd copp R_carrier].
    eexists _, _, _. split; [reflexivity|].
    split; [reflexivity|]. split; [reflexivity|].
    assert (0 <= sqrt (rvar win)) by apply sqrt_pos.
    split; nra.
Qed.

(** Witness of [bollinger_bands_bracket_mean]: the last of three
    prices, with a window of two rows and the default width. *)
Lemma bollinger_bands_bracket_mean_witness :
  let bands := bollinger_bands (map Fin [100; 110; 121]) 2 (Fin 2) in
  ((3 < 2)%nat ->
   bands.1 !! 2%nat = Some NaN /\ bands.2 !! 2%nat = Some NaN) /\
  ((2 <= 3)%nat ->
   exists m u l,
     rolling mean 2 (map Fin [100; 110; 121]) !! 2%nat = Some (Fin m) /\
     bands.1 !! 2%nat = Some (Fin u) /\ bands.2 !! 2%nat = Some (Fin l) /\
     l <= m <= u).
Proof.
  apply (bollinger_bands_bracket_mean [100; 110; 121] 2 2 2).
  - lia.
  - lra.
  - simpl. lia.
Defined.

Lemma changes_fin (xs : list R) :
  Forall (fun x => x <> 0) xs ->
  forall p, p <> 0 ->
    exists rs, changes (Fin p) (map Fin xs) = map Fin rs /\
               length rs = length xs.
Proof.
  induction 1 as [|x xs Hx _ IH]; intros p Hp; [by exists []|].
  destruct (IH x Hx) as (rs & E & Hl). exists (x / p + - 1 :: rs).
  cbn [map changes]. rewrite fdiv_fin_R, E by done.
  split; [done|simpl; lia].
Qed.

Lemma rolling_lookup (f : list (float R) -> float R) (w : nat)
    (l : list (float R)) (i : nat) :
  (i < length l)%nat ->
  rolling f w l !! i
  = Some (if (w <=? S i)%nat && forallb is_obs (window_at w l i)
          then f (window_at w l i)
          else NaN).
Proof.
  intros Hi. unfold rolling.
  by rewrite list_lookup_fmap, lookup_seq_lt.
Qed.

(** The cells of the volatility column over the finite returns [rs]. *)
Lemma rolling_volatility_lookup (rs : list R) (w i : nat) :
  (2 <= w)%nat -> (i <= length rs)%nat ->
  map (fun s => fmul s sqrt252) (rolling std w (NaN :: map Fin rs)) !! i
  = Some (if (w <=? i)%nat
          then Fin (sqrt (rvar (take w (drop (i - w) rs))) * sqrt 252)
          else NaN).
Proof.
  intros Hw Hi.
  rewrite list_lookup_fmap, rolling_lookup
    by (simpl; rewrite length_map; lia).
  cbn [fmap option_fmap option_map]. unfold window_at. f_equal.
  destruct (Nat.leb_spec w i) as [Hge|Hlt].
  - destruct (Nat.leb_spec w (S i)); [|lia].
    replace (S i - w)%nat with (S (i - w)) by lia.
    cbn [drop]. rewrite <- fmap_drop, <- fmap_take.
    rewrite forallb_is_obs_fin. cbn [andb].
    rewrite std_fin by (rewrite length_take, length_drop; lia).
    done.
  - replace (S i - w)%nat with 0%nat by lia.
    destruct w as [|w]; [lia|]. cbn [drop take forallb is_obs is_nan negb].
    by rewrite andb_false_r.
Qed.

(** X22: on finite non-zero prices, with a window of at least two rows,
    the volatility column is missing on the first [window] rows (the
    first return is missing, so the first full window of returns ends
    on row [window]) and is a number that is not negative on every
    later row. *)
Theorem rolling_volatility_warm_up (xs : list R) (w i : nat) :
  (2 <= w)%nat -> Forall (fun x => x <> 0) xs -> (i < length xs)%nat ->
  ((i < w)%nat -> rolling_volatility (map Fin xs) w !! i = Some NaN) /\
  ((w <= i)%nat ->
   exists v, rolling_volatility (map Fin xs) w !! i = Some (Fin v) /\
             0 <= v).
Proof.
  intros Hw Hnz Hi. destruct xs as [|p xs]; [simpl in Hi; lia|].
  apply Forall_cons in Hnz as [Hp Hnz].
  destruct (changes_fin xs Hnz p Hp) as (rs & Hrs & Hlr).
  unfold rolling_volatility. cbn [map pct_change]. rewrite Hrs.
  rewrite rolling_volatility_lookup by (simpl in Hi; lia). split.
  - intros Hlt. destruct (Nat.leb_spec w i); [lia|done].
  - intros Hge. destruct (Nat.leb_spec w i); [|lia].
    eexists. split; [reflexivity|].
    apply Rmult_le_pos; apply sqrt_pos.
Qed.

(** Witness of [rolling_volatility_warm_up]: the last of four prices
    with a window of two rows. *)
Lemma rolling_volatility_warm_up_witness :
  ((3 < 2)%nat ->
   rolling_volatility (map Fin [100; 110; 121; 110]) 2 !! 3%nat
   = Some NaN) /\
  ((2 <= 3)%nat ->
   exists v,
     rolling_volatility (map Fin [100; 110; 121; 110]) 2 !! 3%nat
     = Some (Fin v) /\ 0 <= v).
Proof.
  apply (rolling_volatility_warm_up [100; 110; 121; 110] 2 3).
  - lia.
  - repeat constructor; lra.
  - simpl. lia.
Defined.

(** *** The momentum lines *)

Lemma ewm_loop_const (a : float R) (c : R) (n : nat) :
  ewm_loop a (Fin c, f1) (replicate n (Fin c)) = replicate n (Fin c).
Proof.
  induction n as [|n IH]; [done|]. cbn [replicate ewm_loop].
  assert (E : ewm_step a (Fin c, f1) (Fin c) = (Fin c, f1)).
  { unfold ewm_step. cbn [is_obs is_nan negb]. unfold fneb.
    by rewrite (proj2 (feqb_fin_R c c) eq_refl). }
  rewrite E. cbn [fst]. by rewrite IH.
Qed.

Lemma ewm_span_const (span c : R) (n : nat) :
  1 <= span ->
  ewm_span span (replicate n (Fin c)) = Some (replicate n (Fin c)).
Proof.
  intros Hs. unfold ewm_span. destruct (Rlt_dec span 1) as [?|_]; [lra|].
  destruct n as [|n]; [done|]. cbn [replicate ewm_mean].
  by rewrite ewm_loop_const.
Qed.

Lemma zip_fsub_const (c : R) (n : nat) :
  zip_with fsub (replicate n (Fin c)) (replicate n (Fin c))
  = replicate n (Fin 0).
Proof.
  induction n as [|n IH]; [done|]. cbn [replicate zip_with].
  rewrite IH. f_equal. cbn [fsub fneg fadd cadd copp R_carrier].
  f_equal. lra.
Qed.

(** X19: [ema] raises exactly for a span below 1.  For any other span
    it has no warm-up: on finite prices it returns one finite value per
    price, the first of them the first price itself; and a column that
    stays at one value is returned as it is. *)
Theorem ema_starts_at_first_price (series : list (float R)) (xs : list R)
    (span c : R) (n : nat) :
  (ema series span = None <-> span < 1) /\
  (1 <= span ->
   (exists ys,
      ema (map Fin xs) span = Some (map Fin ys) /\
      length ys = length xs /\ head ys = head xs) /\
   ema (replicate n (Fin c)) span = Some (replicate n (Fin c))).
Proof.
  split.
  - unfold ema, ewm_span. by destruct (Rlt_dec span 1).
  - intros Hs. split; [|by apply ewm_span_const].
    unfold ema, ewm_span. destruct (Rlt_dec span 1) as [?|_]; [lra|].
    destruct xs as [|x xs]; [by exists []|].
    exists (x :: smooth (2 / (span + 1)) x xs).
    cbn [map ewm_mean]. rewrite ewm_loop_fin.
    split; [done|]. split; [|done].
    simpl. by rewrite length_smooth.
Qed.

(** Witness of [ema_starts_at_first_price]: three prices with span 3,
    and three rows at 100. *)
Lemma ema_starts_at_first_price_witness :
  (exists ys,
     ema (map Fin [100; 110; 121]) 3 = Some (map Fin ys) /\
     length ys = 3%nat /\ head ys = Some 100) /\
  ema (replicate 3 (Fin 100)) 3 = Some (replicate 3 (Fin 100)).
Proof.
  apply (proj2 (ema_starts_at_first_price [] [100; 110; 121] 3 100 3)).
  lra.
Defined.

(** X23: [macd] raises exactly when one of its three spans is below 1.
    On a price column that stays at one finite value, the line, its
    signal line and the histogram are 0 on every row. *)
Theorem macd_of_constant_prices (series : list (float R))
    (fast slow signal c : R) (n : nat) :
  (macd series fast slow signal = None
   <-> fast < 1 \/ slow < 1 \/ signal < 1) /\
  (1 <= fast -> 1 <= slow -> 1 <= signal ->
   macd (replicate n (Fin c)) fast slow signal
   = Some (replicate n (Fin 0), replicate n (Fin 0),
           replicate n (Fin 0))).
Proof.
  split.
  - unfold macd, ewm_span.
    destruct (Rlt_dec fast 1), (Rlt_dec slow 1), (Rlt_dec signal 1);
      cbn [mbind option_bind]; split; try done; try tauto;
      intros [?|[?|?]]; lra.
  - intros Hf Hs Hg. unfold macd.
    rewrite !ewm_span_const by done. cbn [mbind option_bind].
    rewrite zip_fsub_const, ewm_span_const by done.
    cbn [mbind option_bind]. by rewrite zip_fsub_const.
Qed.

(** Witness of [macd_of_constant_prices]: five rows at 100 with the
    default spans. *)
Lemma macd_of_constant_prices_witness :
  macd (replicate 5 (Fin 100)) 12 26 9
  = Some (replicate 5 (Fin 0), replicate 5 (Fin 0), replicate 5 (Fin 0)).
Proof.
  apply (proj2 (macd_of_constant_prices [] 12 26 9 100 5)); lra.
Defined.

(** *** Which rows [prepare_features] keeps *)

Lemma cell_lookup (l : list (float R)) (i : nat) (x : float R) :
  l !! i = Some x -> cell l i = x.
Proof. intros H. unfold cell. by apply nth_lookup_Some. Qed.

Lemma cell_fin (ys : list R) (i : nat) :
  (i < length ys)%nat -> is_obs (cell (map Fin ys) i) = true.
Proof.
  intros Hi. destruct (lookup_lt_is_Some_2 ys i Hi) as [y Hy].
  rewrite (cell_lookup _ i (Fin y)); [done|].
  by rewrite list_lookup_fmap, Hy.
Qed.

Lemma ema_fin (xs : list R) (span : R) :
  1 <= span ->
  exists ys, ema (map Fin xs) span = Some (map Fin ys) /\
             length ys = length xs.
Proof.
  intros Hs. unfold ema, ewm_span.
  destruct (Rlt_dec span 1) as [?|_]; [lra|].
  destruct xs as [|x xs]; [by exists []|].
  exists (x :: smooth (2 / (span + 1)) x xs).
  cbn [map ewm_mean]. rewrite ewm_loop_fin.
  split; [done|]. simpl. by rewrite length_smooth.
Qed.

Lemma zip_fsub_fin (xs ys : list R) :
  length xs = length ys ->
  exists zs, zip_with fsub (map Fin xs) (map Fin ys) = map Fin zs /\
             length zs = length xs.
Proof.
  intros Hl.
  assert (Hg : forall x y : R, True -> True ->
                 exists z, fsub (Fin x) (Fin y) = Fin z /\ True).
  { intros x y _ _. by exists (x + - y). }
  destruct (zip_fin_ex fsub (fun _ => True) (fun _ => True)
              (fun _ => True) Hg xs ys) as (zs & E & _ & Hz); try done.
  - by apply Forall_forall.
  - by apply Forall_forall.
  - by exists zs.
Qed.

Lemma macd_fin (xs : list R) :
  exists m sg h,
    macd (map Fin xs) 12 26 9 = Some (map Fin m, map Fin sg, map Fin h) /\
    length m = length xs /\ length sg = length xs /\
    length h = length xs.
Proof.
  unfold macd.
  destruct (ema_fin xs 12 ltac:(lra)) as (f & Ef & Hf).
  destruct (ema_fin xs 26 ltac:(lra)) as (sl & Es & Hs).
  unfold ema in Ef, Es. rewrite Ef, Es. cbn [mbind option_bind].
  destruct (zip_fsub_fin f sl ltac:(lia)) as (m & -> & Hm).
  destruct (ema_fin m 9 ltac:(lra)) as (sg & Eg & Hg).
  unfold ema in Eg. rewrite Eg. cbn [mbind option_bind].
  destruct (zip_fsub_fin m sg ltac:(lia)) as (h & -> & Hh).
  exists m, sg, h. repeat split; lia.
Qed.

Lemma rsi_obs (xs : list R) (len : R) :
  1 <= len ->
  exists c, rsi (map Fin xs) len = Some c /\
    forall i, (i < length xs)%nat -> is_obs (cell c i) = (1 <=? i)%nat.
Proof.
  intros Hl. destruct (rsi_shape xs len Hl) as (rs & E & Hlen & _).
  eexists. split; [exact E|]. intros i Hi.
  destruct xs as [|x xs]; [simpl in Hi; lia|].
  destruct i as [|j]; [done|].
  unfold cell. cbn [nth Nat.leb].
  apply cell_fin. simpl in *. lia.
Qed.

Lemma vol_obs (xs : list R) (w : nat) :
  (2 <= w)%nat -> Forall (fun x => x <> 0) xs ->
  forall i, (i < length xs)%nat ->
    is_obs (cell (rolling_volatility (map Fin xs) w) i) = (w <=? i)%nat.
Proof.
  intros Hw Hnz i Hi. destruct xs as [|p xs]; [simpl in Hi; lia|].
  apply Forall_cons in Hnz as [Hp Hnz].
  destruct (changes_fin xs Hnz p Hp) as (rs & Hrs & Hlr).
  unfold rolling_volatility. cbn [map pct_change]. rewrite Hrs.
  erewrite cell_lookup
    by (apply rolling_volatility_lookup; [done|simpl in Hi; lia]).
  by destruct (w <=? i)%nat.
Qed.

Lemma rolling_mean_obs (xs : list R) (w : nat) :
  (1 <= w)%nat ->
  forall i, (i < length xs)%nat ->
    is_obs (cell (rolling mean w (map Fin xs)) i) = (w <=? S i)%nat.
Proof.
  intros Hw i Hi.
  erewrite cell_lookup by (by apply rolling_fin_lookup).
  destruct (Nat.leb_spec w (S i)) as [Hge|Hlt]; [|done].
  rewrite mean_fin; [done|].
  intros E. apply (f_equal length) in E.
  rewrite length_window in E by done. simpl in E. lia.
Qed.

Lemma bb_obs (xs : list R) :
  forall i, (i < length xs)%nat ->
    is_obs (cell (bollinger_bands (map Fin xs) 20 (Fin 2)).1 i)
    = (19 <=? i)%nat /\
    is_obs (cell (bollinger_bands (map Fin xs) 20 (Fin 2)).2 i)
    = (19 <=? i)%nat.
Proof.
  intros i Hi. unfold bollinger_bands. cbn [fst snd].
  assert (Hm : rolling mean 20 (map Fin xs) !! i
               = Some (if (20 <=? S i)%nat
                       then mean (map Fin (take 20 (drop (S i - 20) xs)))
                       else NaN))
    by (by apply rolling_fin_lookup).
  assert (Hs : rolling std 20 (map Fin xs) !! i
               = Some (if (20 <=? S i)%nat
                       then std (map Fin (take 20 (drop (S i - 20) xs)))
                       else NaN))
    by (by apply rolling_fin_lookup).
  split.
  - erewrite cell_lookup
      by (rewrite lookup_zip_with, Hm; cbn [mbind option_bind];
          rewrite Hs; reflexivity).
    change (19 <=? i)%nat with (20 <=? S i)%nat.
    destruct (Nat.leb_spec 20 (S i)) as [Hge|Hlt]; [|done].
    rewrite mean_fin, std_fin; [done| |].
    + rewrite length_window; [lia|done|done].
    + intros E. apply (f_equal length) in E.
      rewrite length_window in E by done. simpl in E. lia.
  - erewrite cell_lookup
      by (rewrite lookup_zip_with, Hm; cbn [mbind option_bind];
          rewrite Hs; reflexivity).
    change (19 <=? i)%nat with (20 <=? S i)%nat.
    destruct (Nat.leb_spec 20 (S i)) as [Hge|Hlt]; [|done].
    rewrite mean_fin, std_fin; [done| |].
    + rewrite length_window; [lia|done|done].
    + intros E. apply (f_equal length) in E.
      rewrite length_window in E by done. simpl in E. lia.
Qed.

Lemma shift_lookup_0 (l : list (float R)) :
  l <> [] -> shift l !! 0%nat = Some NaN.
Proof. by destruct l. Qed.

Lemma shift_lookup_S (l : list (float R)) (j : nat) :
  (S j < length l)%nat -> shift l !! S j = l !! j.
Proof.
  intros Hj. destruct l as [|x l]; [simpl in Hj; lia|].
  unfold shift. cbn [lookup list_lookup].
  rewrite removelast_firstn_len.
  change (firstn ?n ?l) with (take n l).
  apply lookup_take_lt. simpl in *. lia.
Qed.

Lemma fin_cells (l : list (float R)) :
  (forall i, (i < length l)%nat -> exists x, l !! i = Some (Fin x)) ->
  exists xs, l = map Fin xs /\ length xs = length l.
Proof.
  induction l as [|a l IH]; intros H; [by exists []|].
  destruct (H 0%nat ltac:(simpl; lia)) as (x & Hx).
  injection Hx as ->.
  destruct IH as (xs & -> & Hl).
  { intros i Hi. apply (H (S i)). simpl. lia. }
  exists (x :: xs). split; [done|]. simpl. by rewrite Hl.
Qed.

Lemma fmax_nan_r (m : R) : fmax (Fin m) NaN = Fin m.
Proof. done. Qed.

Lemma row_max_fin (x : R) (a b : float R) :
  (a = NaN \/ exists y, a = Fin y) -> (b = NaN \/ exists y, b = Fin y) ->
  exists m, row_max [Fin x; a; b] = Fin m.
Proof.
  unfold row_max. cbn [fold_left].
  change (fmax NaN (Fin x)) with (Fin x : float R).
  intros [->|[y ->]] [->|[z ->]];
    repeat (rewrite fmax_fin || rewrite fmax_nan_r); by eexists.
Qed.

Lemma true_range_fin (bars : list Bar) :
  Forall finite_bar bars ->
  exists ts,
    zip_with (fun hl hc_lc => row_max [hl; hc_lc.1; hc_lc.2])
      (map (fun b => fsub (High b) (Low b)) bars)
      (zip (zip_with (fun b c => fabs (fsub (High b) c)) bars
                     (shift (map Close bars)))
           (zip_with (fun b c => fabs (fsub (Low b) c)) bars
                     (shift (map Close bars))))
    = map Fin ts /\ length ts = length bars.
Proof.
  intros Hfin.
  set (tr := zip_with _ _ _).
  assert (Hlen : length tr = length bars).
  { unfold tr. rewrite length_zip_with, length_map, length_zip_with.
    rewrite !length_zip_with.
    assert (length (shift (map Close bars)) = length bars); [|lia].
    destruct bars as [|b bars]; [done|].
    unfold shift. cbn [map length]. rewrite removelast_firstn_len.
    rewrite length_take. simpl. rewrite length_map. lia. }
  destruct (fin_cells tr) as (ts & E & Hl).
  - rewrite Hlen. intros i Hi.
    destruct (lookup_lt_is_Some_2 bars i Hi) as [b Hb].
    assert (Hfb : finite_bar b).
    { rewrite Forall_forall in Hfin. apply Hfin.
      by apply list_elem_of_lookup_2 in Hb. }
    destruct Hfb as (o & h & l & c & a & v & -> & _).
    assert (Hprev : exists pc, shift (map Close bars) !! i = Some pc /\
                      (pc = NaN \/ exists y, pc = Fin y)).
    { destruct i as [|j].
      - exists NaN. split; [|by left].
        apply shift_lookup_0. by destruct bars.
      - destruct (lookup_lt_is_Some_2 bars j ltac:(lia)) as [b' Hb'].
        assert (Hfb' : finite_bar b').
        { rewrite Forall_forall in Hfin. apply Hfin.
          by apply list_elem_of_lookup_2 in Hb'. }
        destruct Hfb' as (o' & h' & l' & c' & a' & v' & -> & _).
        exists (Fin c'). split; [|right; by eexists].
        rewrite shift_lookup_S by (rewrite length_map; lia).
        by rewrite list_lookup_fmap, Hb'. }
    destruct Hprev as (pc & Hpc & Hcase).
    unfold tr. rewrite lookup_zip_with, list_lookup_fmap, Hb.
    cbn [fmap option_fmap option_map mbind option_bind].
    rewrite lookup_zip_with, !lookup_zip_with, Hb, Hpc.
    cbn [mbind option_bind High Low fst snd].
    destruct (row_max_fin (h + - l) (fabs (fsub (Fin h) pc))
                (fabs (fsub (Fin l) pc))) as (m & Hm).
    + destruct Hcase as [->|[y ->]]; [by left|right; by eexists].
    + destruct Hcase as [->|[y ->]]; [by left|right; by eexists].
    + exists m. by rewrite <- Hm.
  - exists ts. split; [done|lia].
Qed.

Lemma atr_obs (bars : list Bar) :
  Forall finite_bar bars ->
  forall i, (i < length bars)%nat ->
    is_obs (cell (atr bars 14) i) = (13 <=? i)%nat.
Proof.
  intros Hfin i Hi. unfold atr.
  destruct (true_range_fin bars Hfin) as (ts & -> & Hl).
  rewrite rolling_mean_obs by lia. done.
Qed.

Lemma filter_map_seq {A} (F : nat -> A) (P : A -> Prop)
    `{forall x, Decision (P x)} (k : nat) :
  forall n, (forall i, (i < n)%nat -> P (F i) <-> (k <= i)%nat) ->
    filter P (map F (seq 0 n)) = map F (seq k (n - k)).
Proof.
  induction n as [|n IH]; intros HP; [done|].
  rewrite seq_S, map_app, filter_app, IH by (intros i Hi; apply HP; lia).
  cbn [Nat.add map].
  destruct (decide (k <= n)%nat) as [Hle|Hgt].
  - rewrite filter_cons_True by (apply HP; lia). rewrite filter_nil.
    replace (S n - k)%nat with (S (n - k)) by lia.
    rewrite seq_S, map_app. cbn [map].
    by replace (k + (n - k))%nat with n by lia.
  - rewrite filter_cons_False by (rewrite HP; lia). rewrite filter_nil.
    replace (S n - k)%nat with 0%nat by lia.
    replace (n - k)%nat with 0%nat by lia. done.
Qed.

Lemma map_nth_seq {A} (l : list A) (d : A) (k : nat) :
  map (fun i => nth i l d) (seq k (length l - k)) = drop k l.
Proof.
  apply list_eq. intros i.
  rewrite list_lookup_fmap, lookup_drop.
  destruct (decide (i < length l - k)%nat) as [Hi|Hi].
  - rewrite lookup_seq_lt by done. cbn [fmap option_fmap option_map].
    destruct (lookup_lt_is_Some_2 l (k + i) ltac:(lia)) as [x Hx].
    rewrite Hx. f_equal. by apply nth_lookup_Some.
  - rewrite lookup_seq_ge by lia. cbn [fmap option_fmap option_map].
    symmetry. apply lookup_ge_None. lia.
Qed.

Lemma adjusted_finite (bs : list Bar) :
  Forall finite_bar bs ->
  Forall finite_bar (map adjusted bs) /\
  exists cs, map Close (map adjusted bs) = map Fin cs /\
             Forall (fun x => x <> 0) cs /\ length cs = length bs.
Proof.
  induction 1 as [|b bs Hb _ [IH (cs & E & Hnz & Hl)]].
  - split; [done|]. by exists [].
  - destruct Hb as (o & h & l & c & a & v & -> & Ha). split.
    + constructor; [|done]. by exists o, h, l, a, a, v.
    + exists (a :: cs). cbn [map]. rewrite E.
      repeat split; [by constructor|simpl; lia].
Qed.

Lemma bar_cells_obs (bs : list Bar) (i : nat) :
  Forall finite_bar bs -> (i < length bs)%nat ->
  let b := nth i bs (mkBar NaN NaN NaN NaN NaN NaN) in
  forallb is_obs
    [Open b; High b; Low b; Close b; Adj_Close b; Volume b] = true.
Proof.
  intros Hfin Hi b.
  destruct (lookup_lt_is_Some_2 bs i Hi) as [b' Hb'].
  assert (E : b = b') by (by apply nth_lookup_Some).
  assert (Hfb : finite_bar b').
  { rewrite Forall_forall in Hfin. apply Hfin.
    by apply list_elem_of_lookup_2 in Hb'. }
  destruct Hfb as (o & h & l & c & a & v & -> & _). by rewrite E.
Qed.

(** X24: on a frame of finite prices with non-zero adjusted closes, with
    spans and oscillator length of at least 1 and a volatility window
    of at least two rows, [prepare_features] raises nothing and keeps
    exactly the rows after the warm-up: the first
    [max(vol_window, 19, 13)] rows are dropped (19 only with the bands
    switched on, 13 only with the true-range average), every later row
    is kept in order under its label, and its close is its adjusted
    close. *)
Theorem prepare_features_drops_warm_up (df : list (date * Bar))
    (fast slow len : R) (w : nat) (cm cb ca : bool) :
  Forall (fun r => finite_bar r.2) df ->
  1 <= fast -> 1 <= slow -> 1 <= len -> (2 <= w)%nat ->
  exists out,
    prepare_features df fast slow len w cm cb ca = Some out /\
    map fst out = drop (warm_up w cb ca) (map fst df) /\
    map (fun r => bar r.2) out
    = drop (warm_up w cb ca) (map adjusted (map snd df)).
Proof.
  intros Hfin Hf Hs Hl Hw.
  assert (Hfin' : Forall finite_bar (map snd df)).
  { apply Forall_forall. intros b [r [-> Hr]]%list_elem_of_fmap.
    rewrite Forall_forall in Hfin. by apply Hfin. }
  destruct (adjusted_finite _ Hfin') as [Hbars (cs & Hcs & Hnz & Hlcs)].
  rewrite length_map in Hlcs.
  unfold prepare_features. rewrite Hcs.
  destruct (ema_fin cs fast Hf) as (yf & -> & Hlf).
  destruct (ema_fin cs slow Hs) as (ys & -> & Hls).
  destruct (rsi_obs cs len Hl) as (cr & -> & Hr).
  destruct (macd_fin cs) as (m & sg & h & Hm & Hlm & Hlsg & Hlh).
  cbn [mbind option_bind].
  set (c_macd := if cm then Some <$> macd (map Fin cs) 12 26 9
                 else Some None).
  assert (Hcm : c_macd
                = Some (if cm then Some (map Fin m, map Fin sg, map Fin h)
                        else None)).
  { unfold c_macd. destruct cm; [by rewrite Hm|done]. }
  rewrite Hcm. cbn [mbind option_bind].
  eexists. split; [reflexivity|].
  set (k := warm_up w cb ca).
  set (F := fun i : nat => _).
  assert (Hkeep : forall i, (i < length df)%nat ->
                    complete (F i).2 = true <-> (k <= i)%nat).
  { intros i Hi. unfold F, complete, row_cells.
    cbn [snd bar ema_fast ema_slow rsi_ vol macd_ bb atr_].
    change [Open ?b; High ?b; Low ?b; Close ?b; Adj_Close ?b; Volume ?b;
            ?e1; ?e2; ?e3; ?e4]
      with ([Open b; High b; Low b; Close b; Adj_Close b; Volume b]
            ++ [e1; e2; e3; e4]).
    rewrite !forallb_app.
    rewrite bar_cells_obs by (by rewrite ?length_map).
    cbn [forallb andb].
    rewrite !cell_fin by lia.
    rewrite Hr by lia.
    rewrite vol_obs by (done || lia).
    assert (Hmacd : forallb is_obs
              match (fun c : list (float R) * list (float R)
                             * list (float R) =>
                       (cell c.1.1 i, cell c.1.2 i, cell c.2 i))
                    <$> (if cm
                         then Some (map Fin m, map Fin sg, map Fin h)
                         else None)
              with
              | Some (m0, s0, h0) => [m0; s0; h0]
              | None => []
              end = true).
    { destruct cm; [|done]. cbn [fmap option_fmap option_map fst snd].
      cbn [forallb]. by rewrite !cell_fin by lia. }
    rewrite Hmacd.
    destruct (bb_obs cs i ltac:(lia)) as [Hu Hlo].
    unfold k, warm_up.
    destruct cb, ca; cbn [fmap option_fmap option_map fst snd forallb];
      rewrite ?Hu, ?Hlo, ?atr_obs by (done || by rewrite !length_map);
      rewrite ?andb_true_r;
      destruct (Nat.leb_spec 1 i), (Nat.leb_spec w i),
               (Nat.leb_spec 19 i), (Nat.leb_spec 13 i);
      cbn [andb]; split; try done; lia. }
  rewrite (filter_map_seq F (fun r => complete r.2 = true) k
             (length df) Hkeep).
  split.
  - rewrite map_map. unfold F. cbn [fst].
    rewrite <- (length_map fst df). apply map_nth_seq.
  - rewrite map_map. unfold F. cbn [snd bar].
    rewrite <- (length_map snd df), <- (length_map adjusted (map snd df)).
    apply map_nth_seq.
Qed.

(** Witness of [prepare_features_drops_warm_up]: three rows, a
    volatility window of two rows, bands and true-range average
    switched off; the third row is the one kept. *)
Lemma prepare_features_drops_warm_up_witness :
  exists out,
    prepare_features Examples.three_bars 3 5 2 2 true false false
    = Some out /\
    map fst out
    = drop (warm_up 2 false false) (map fst Examples.three_bars) /\
    map (fun r => bar r.2) out
    = drop (warm_up 2 false false)
           (map adjusted (map snd Examples.three_bars)).
Proof.
  apply (prepare_features_drops_warm_up Examples.three_bars 3 5 2 2
           true false false).
  - repeat constructor; cbn [snd].
    + exists 100, 102, 99, 101, 100, 5000. split; [done|lra].
    + exists 101, 111, 100, 111, 110, 6000. split; [done|lra].
    + exists 111, 123, 110, 122, 121, 7000. split; [done|lra].
  - lra.
  - lra.
  - lra.
  - lia.
Defined.
End Indicators.
